(** * Megaplace: the pixel ledger, the backend's HTTP façade and the
      frontend's binary decoder, embedded from the sources

    The development follows the repository:
    - [Js]       the JavaScript values the handlers compute with;
    - [Http]     responses as the Express handlers build them;
    - [App]      backend/src/app.ts (validation helpers and routes);
    - [Legacy]   the earlier createApp that ships next to index.ts;
    - [Contract] Megaplace.sol (placePixel, placePixelBatch, getRegion);
    - [BackendApi] frontend/src/services/backendApi.ts (binary decoder
      and fetch helpers);
    - [UseMegaplace], [UseMap]  the frontend hooks;
    - [Listener], [Cache], [Stream]  the event listener behind the
      routes, eventListener.ts, which is not among the sources. *)

From Stdlib Require Import ZArith QArith List Bool Lia Permutation.
From stdpp Require Import base option list strings pretty gmap.

Local Open Scope Z_scope.

(** ** JavaScript numbers as the routes meet them *)
Module Js.

(** The values [parseInt] and [Number] hand to the validation helpers:
    NaN, an infinity, or an integer.  [Int z] stands for a Number when
    [z] is one, which every [z] with [|z| <= 2^53] is; [toNumber] below
    gives the Number of any other integer.  A finite non-integer, which
    only [Number] of a query parameter can yield, is rejected by
    [Number.isInteger] exactly as NaN is by [isNaN] and is represented
    by [NaN]. *)
Inductive number :=
| NaN
| Infinity (negative : bool)
| Int (z : Z).

#[global] Instance number_eq_dec : EqDecision number.
Proof. solve_decision. Defined.

Definition isNaN (n : number) : bool :=
  match n with NaN => true | _ => false end.

Definition Number_isInteger (n : number) : bool :=
  match n with Int _ => true | _ => false end.

(** [a < b] and [a <= b]; every comparison with NaN is false. *)
Definition lt (a b : number) : bool :=
  match a, b with
  | NaN, _ | _, NaN => false
  | Int x, Int y => x <? y
  | Infinity s, Infinity t => s && negb t
  | Infinity s, Int _ => s
  | Int _, Infinity t => negb t
  end.

Definition le (a b : number) : bool :=
  match a, b with
  | NaN, _ | _, NaN => false
  | Int x, Int y => x <=? y
  | Infinity s, Infinity t => s || negb t
  | Infinity s, Int _ => s
  | Int _, Infinity t => negb t
  end.

(** [a > b] and [a >= b]. *)
Definition gt (a b : number) : bool := lt b a.
Definition ge (a b : number) : bool := le b a.

(** [a + b]; NaN is absorbing, opposite infinities add to NaN. *)
Definition add (a b : number) : number :=
  match a, b with
  | NaN, _ | _, NaN => NaN
  | Int x, Int y => Int (x + y)
  | Infinity s, Infinity t => if eqb s t then Infinity s else NaN
  | Infinity s, Int _ | Int _, Infinity s => Infinity s
  end.

(** [a * b]; NaN is absorbing, [0 * Infinity] is NaN. *)
Definition mul (a b : number) : number :=
  match a, b with
  | NaN, _ | _, NaN => NaN
  | Int x, Int y => Int (x * y)
  | Infinity s, Infinity t => Infinity (xorb s t)
  | Infinity s, Int y | Int y, Infinity s =>
      if y =? 0 then NaN else Infinity (xorb s (y <? 0))
  end.

(** [a.length] *)
Definition array_length {A} (a : list A) : Z := Z.of_nat (length a).

(** [String(n)], as a template literal renders a number (decimal digits
    for an integer below 10^21). *)
Definition toString (n : number) : string :=
  match n with
  | NaN => "NaN"
  | Infinity false => "Infinity"
  | Infinity true => "-Infinity"
  | Int z => pretty z
  end.

(** A string of a request is its sequence of UTF-16 code units; this
    gives the code units of an ASCII string of the sources. *)
Fixpoint codeUnits (s : string) : list Z :=
  match s with
  | EmptyString => []
  | String c rest => Z.of_nat (Ascii.nat_of_ascii c) :: codeUnits rest
  end.

(** The Number nearest a non-negative integer [n]: [n] itself below
    2^53, else [n] rounded to a significand of 53 bits, a tie going to
    the even significand. *)
Definition nearest (n : Z) : Z :=
  let k := Z.log2 n in
  if k <? 53 then n
  else
    let e := k - 52 in
    let q := Z.shiftr n e in
    let r := Z.land n (Z.ones e) in
    let half := Z.shiftl 1 (e - 1) in
    let q' := if (half <? r) || ((r =? half) && Z.odd q) then q + 1 else q in
    Z.shiftl q' e.

(** The Number value of a mathematical integer: what [Number(b)] makes
    of a bigint [b] and what [parseInt] returns for the integer it has
    read.  From 2^1024 on the value is an infinity. *)
Definition toNumber (z : Z) : number :=
  let m := nearest (Z.abs z) in
  if 2 ^ 1024 <=? m then Infinity (z <? 0) else Int (Z.sgn z * m).

(** White space and line terminators, which [parseInt] skips at the
    start of its argument. *)
Definition isWhiteSpace (c : Z) : bool :=
  bool_decide (c ∈ [9; 10; 11; 12; 13; 32; 160; 5760; 8232; 8233; 8239; 8287; 12288; 65279])
  || ((8192 <=? c) && (c <=? 8202)).

Fixpoint trimStart (s : list Z) : list Z :=
  match s with
  | c :: rest => if isWhiteSpace c then trimStart rest else s
  | [] => []
  end.

(** The value of code unit [c] as a digit of radix [R]: [0-9], then
    [a-z] or [A-Z] from ten on. *)
Definition digitValue (R c : Z) : option Z :=
  let v := if (48 <=? c) && (c <=? 57) then Some (c - 48)
           else if (97 <=? c) && (c <=? 122) then Some (c - 87)
           else if (65 <=? c) && (c <=? 90) then Some (c - 55)
           else None in
  d ← v ; if d <? R then Some d else None.

(** The longest leading run of radix-[R] digits, as digit values. *)
Fixpoint digits (R : Z) (s : list Z) : list Z :=
  match s with
  | c :: rest =>
      match digitValue R c with
      | Some d => d :: digits R rest
      | None => []
      end
  | [] => []
  end.

(** The string starts with [0x] or [0X]. *)
Definition hexPrefix (s : list Z) : bool :=
  match s with
  | c0 :: c1 :: _ => (c0 =? 48) && ((c1 =? 120) || (c1 =? 88))
  | _ => false
  end.

(** [parseInt] without a radix argument, on the string after its sign:
    hexadecimal after a [0x] or [0X], else decimal; the longest leading
    run of digits is the numeral, whatever follows it is ignored, and no
    digit at all gives NaN.  The result is the Number of the numeral's
    value (past 20 significant decimal digits an engine may drop the
    later ones first; such a value is beyond every bound of the routes
    either way). *)
Definition parseUnsigned (sign : Z) (unsigned : list Z) : number :=
  let R := if hexPrefix unsigned then 16 else 10 in
  let body := if hexPrefix unsigned then drop 2 unsigned else unsigned in
  let numeral := digits R body in
  match numeral with
  | [] => NaN
  | _ => let mathInt := foldl (λ a d, a * R + d) 0 numeral in toNumber (sign * mathInt)
  end.

(** [parseInt(string)], as the routes call it: leading white space is
    skipped, then an optional [+] or [-] is read. *)
Definition parseInt (string : list Z) : number :=
  let trimmed := trimStart string in
  let sign := match trimmed with c :: _ => if c =? 45 then -1 else 1 | [] => 1 end in
  let unsigned := match trimmed with
                  | c :: rest => if (c =? 43) || (c =? 45) then rest else trimmed
                  | [] => trimmed
                  end in
  parseUnsigned sign unsigned.

End Js.
Export Js.

(** ** Records and the listener's interface *)

(** [PixelData] of eventListener.ts, as the README and the frontend's
    [BackendPixelData] give it. *)
Record PixelData := mkPixelData {
  px_x : Z;
  px_y : Z;
  px_color : Z;
  px_placedBy : string;
  px_timestamp : Z
}.

#[global] Instance PixelData_eq_dec : EqDecision PixelData.
Proof. solve_decision. Defined.

(** The storage key of a pixel, [`${x},${y}`], for the numbers [toString]
    renders: the two decimal numerals for integers that a Number holds
    exactly. *)
Definition pixelKey (x y : number) : string :=
  toString x +:+ "," +:+ toString y.

Record Stats := mkStats {
  totalPixels : Z;
  lastProcessedBlock : string;
  isWatching : bool
}.

(** The methods of [EventListener] that the routes call.  The class
    itself (eventListener.ts) is not among the sources, so a listener is
    taken as the results its methods give at the time of the request.
    The methods are taken to return; the [catch] branch of a route, its
    500 answer, is the case of a method that throws. *)
Record EventListener := mkEventListener {
  getStats : Stats;
  getPixels : gmap string PixelData;
  getPixel : number → number → option PixelData;
  getPixelsArray : option number → option number → list PixelData;
  getPixelsBinary : list Z;
  getRegion : number → number → number → number → list PixelData
}.

(** ** HTTP responses *)
Module Http.

#[warnings="-register-all"] Inductive json :=
| JBool (b : bool)
| JNum (z : Z)
| JStr (s : string)
| JArr (items : list json)
| JObj (fields : list (string * json)).

Inductive body :=
| Json (j : json)
| Octets (bytes : list Z).

(** A header is set from a string, or from [q.toString()] of a number
    [q] (kept as the rational it denotes). *)
Inductive header_value :=
| HText (s : string)
| HNumber (q : Q).

Record response := mkResponse {
  status : Z;
  headers : list (string * header_value);
  payload : body
}.

Definition pixel_json (p : PixelData) : json :=
  JObj [("x", JNum (px_x p)); ("y", JNum (px_y p));
        ("color", JNum (px_color p)); ("placedBy", JStr (px_placedBy p));
        ("timestamp", JNum (px_timestamp p))].

(** [res.json(j)] after the [res.set] calls [hs]: status 200. *)
Definition ok_json (hs : list (string * header_value)) (j : json) : response :=
  mkResponse 200 hs (Json j).

(** Field [k] of a JSON object. *)
Fixpoint field (k : string) (fs : list (string * json)) : option json :=
  match fs with
  | [] => None
  | (k', v) :: rest => if decide (k = k') then Some v else field k rest
  end.

Definition body_field (k : string) (r : response) : option json :=
  match payload r with
  | Json (JObj fs) => field k fs
  | _ => None
  end.

End Http.
Export Http.

(** ** backend/src/app.ts *)
Module App.

Definition isValidCoordinate (value : number) : bool :=
  let num := value in
  negb (isNaN num) && Number_isInteger num && ge num (Int 0) && lt num (Int 1048576).

Definition isValidDimension (value : number) (max : Z) : bool :=
  let num := value in
  negb (isNaN num) && Number_isInteger num && gt num (Int 0) && le num (Int max).

Definition isValidPaginationParam (value : number) (max : Z) : bool :=
  let num := value in
  negb (isNaN num) && Number_isInteger num && ge num (Int 0) && le num (Int max).

Definition errorResponse (status : Z) (message : string) : response :=
  mkResponse status [] (Json (JObj [("success", JBool false); ("error", JStr message)])).

(** GET /api/pixels/:x/:y, with [x] and [y] the two [parseInt] results. *)
Definition get_pixel (eventListener : EventListener) (x y : number) : response :=
  if negb (isValidCoordinate x) || negb (isValidCoordinate y) then
    errorResponse 400 "Invalid coordinates. Must be integers between 0 and 1048575."
  else
    match getPixel eventListener x y with
    | None => errorResponse 404 "Pixel not found"
    | Some pixel =>
        ok_json [("Cache-Control", HText "public, max-age=2")]
          (JObj [("success", JBool true); ("pixel", pixel_json pixel)])
    end.

(** GET /api/pixels, with [limit] and [offset] the query parameters
    ([None] when absent, else their [Number] value). *)
Definition get_pixels (eventListener : EventListener) (limit offset : option number)
  : response :=
  if match limit with
     | Some l => negb (isValidPaginationParam l 100000)
     | None => false
     end
  then errorResponse 400 "Invalid limit. Must be 0-100000."
  else if match offset with
          | Some o => negb (isValidPaginationParam o 10000000)
          | None => false
          end
  then errorResponse 400 "Invalid offset. Must be 0-10000000."
  else
    let stats := getStats eventListener in
    let limitNum := limit in
    let offsetNum := offset in
    let pixelArray :=
      if bool_decide (limitNum ≠ None) || bool_decide (offsetNum ≠ None)
      then getPixelsArray eventListener limitNum (Some (default (Int 0) offsetNum))
      else getPixelsArray eventListener None None in
    ok_json [("Cache-Control", HText "public, max-age=5")]
      (JObj [("success", JBool true);
             ("count", JNum (array_length pixelArray));
             ("total", JNum (totalPixels stats));
             ("hasMore",
              JBool (lt (add (default (Int 0) offsetNum) (Int (array_length pixelArray)))
                        (Int (totalPixels stats))));
             ("pixels", JArr (pixel_json <$> pixelArray))]).

(** GET /api/pixels/region/:startX/:startY/:width/:height, on the four
    [parseInt] results. *)
Definition get_region (eventListener : EventListener)
    (startX startY width height : number) : response :=
  if negb (isValidCoordinate startX) || negb (isValidCoordinate startY) then
    errorResponse 400 "Invalid start coordinates. Must be integers between 0 and 1048575."
  else if negb (isValidDimension width 1000) || negb (isValidDimension height 1000) then
    errorResponse 400 "Invalid dimensions. Must be integers between 1 and 1000."
  else if gt (mul width height) (Int 10000) then
    errorResponse 400 "Region too large. Maximum 10,000 pixels (e.g., 100x100)."
  else
    let pixels := getRegion eventListener startX startY width height in
    ok_json [("Cache-Control", HText "public, max-age=5")]
      (JObj [("success", JBool true);
             ("count", JNum (array_length pixels));
             ("pixels", JArr (pixel_json <$> pixels))]).

(** The two handlers from their path parameters on: [req.params.x] and
    the like are strings, handed to [parseInt] first. *)
Definition pixel_route (eventListener : EventListener) (params_x params_y : list Z)
  : response :=
  let x := parseInt params_x in
  let y := parseInt params_y in
  get_pixel eventListener x y.

Definition region_route (eventListener : EventListener)
    (params_startX params_startY params_width params_height : list Z) : response :=
  let startX := parseInt params_startX in
  let startY := parseInt params_startY in
  let width := parseInt params_width in
  let height := parseInt params_height in
  get_region eventListener startX startY width height.

(** GET /api/pixels/binary.  [X-Pixel-Count] is [buffer.length / 12], a
    JavaScript (not an integer) division. *)
Definition get_pixels_binary (eventListener : EventListener) : response :=
  let buffer := getPixelsBinary eventListener in
  mkResponse 200
    [("Content-Type", HText "application/octet-stream");
     ("Content-Length", HNumber (inject_Z (array_length buffer)));
     ("X-Pixel-Count", HNumber (array_length buffer # 12));
     ("Cache-Control", HText "public, max-age=5")]
    (Octets buffer).

End App.

(** ** The earlier createApp kept beside backend/src/index.ts *)
Module Legacy.

Definition bad_request (message : string) : response :=
  mkResponse 400 [] (Json (JObj [("success", JBool false); ("error", JStr message)])).

Definition not_found (message : string) : response :=
  mkResponse 404 [] (Json (JObj [("success", JBool false); ("error", JStr message)])).

(** GET /api/pixels/:x/:y *)
Definition get_pixel (eventListener : EventListener) (x y : number) : response :=
  if isNaN x || isNaN y then bad_request "Invalid coordinates"
  else
    match getPixel eventListener x y with
    | None => not_found "Pixel not found"
    | Some pixel => ok_json [] (JObj [("success", JBool true); ("pixel", pixel_json pixel)])
    end.

(** The inner loop, [for (let x = startX; x < startX + width; x++)], with
    [n] iterations left. *)
Fixpoint scan_row (allPixels : gmap string PixelData) (y : Z) (x : Z) (n : nat)
  : list PixelData :=
  match n with
  | O => []
  | S n' =>
      let key := pixelKey (Int x) (Int y) in
      match allPixels !! key with
      | Some p => p :: scan_row allPixels y (x + 1) n'
      | None => scan_row allPixels y (x + 1) n'
      end
  end.

(** The outer loop, [for (let y = startY; y < startY + height; y++)]. *)
Fixpoint scan_rows (allPixels : gmap string PixelData) (startX : Z) (width : nat)
    (y : Z) (n : nat) : list PixelData :=
  match n with
  | O => []
  | S n' => scan_row allPixels y startX width ++ scan_rows allPixels startX width (y + 1) n'
  end.

(** Both loops.  A bound [start + size] with an infinite operand admits
    no iteration once [size > 1000] has been refused, so only integer
    operands scan anything; a size [<= 0] gives an empty loop.  The
    counters are Numbers: the loops are these for operands within
    2^53, where [y++] and [x++] are exact; beyond, a counter stops
    advancing and the handler does not answer. *)
Definition scan_region (allPixels : gmap string PixelData)
    (startX startY width height : number) : list PixelData :=
  match startX, startY, width, height with
  | Int sx, Int sy, Int w, Int h => scan_rows allPixels sx (Z.to_nat w) sy (Z.to_nat h)
  | _, _, _, _ => []
  end.

(** GET /api/pixels/region/:startX/:startY/:width/:height *)
Definition get_region (eventListener : EventListener)
    (startX startY width height : number) : response :=
  if isNaN startX || isNaN startY || isNaN width || isNaN height then
    bad_request "Invalid parameters"
  else if gt width (Int 1000) || gt height (Int 1000) then
    bad_request "Region too large (max 1000x1000)"
  else
    let allPixels := getPixels eventListener in
    let pixels := scan_region allPixels startX startY width height in
    ok_json []
      (JObj [("success", JBool true);
             ("count", JNum (array_length pixels));
             ("pixels", JArr (pixel_json <$> pixels))]).

End Legacy.

(** ** Megaplace.sol

    Calls are modelled by their result, the new state and the events
    emitted, or the revert; gas is not modelled.  Arguments of unsigned
    type are non-negative integers below the width of the type. *)
Module Contract.

Definition CANVAS_RES : Z := 1048576.

(** Unsigned types wrap at their width; checked arithmetic panics there. *)
Definition uint64 (v : Z) : Z := v mod 2 ^ 64.
Definition uint256 (v : Z) : Z := v mod 2 ^ 256.

Inductive result (A : Type) :=
| Ok (a : A)
| Revert (reason : string)
| Panic (code : Z).
Arguments Ok {A} a.
Arguments Revert {A} reason.
Arguments Panic {A} code.

#[global] Instance result_bind : MBind result := λ A B k r,
  match r with
  | Ok a => k a
  | Revert m => Revert m
  | Panic c => Panic c
  end.

Definition require (cond : bool) (reason : string) : result unit :=
  if cond then Ok tt else Revert reason.

(** Checked [a + b] and [a * b] on a [bits]-wide unsigned type. *)
Definition checked_add (bits a b : Z) : result Z :=
  if a + b <? 2 ^ bits then Ok (a + b) else Panic 17.

Definition checked_mul (bits a b : Z) : result Z :=
  if a * b <? 2 ^ bits then Ok (a * b) else Panic 17.

(** [struct pixel]; [address] values are 160-bit integers. *)
Record pixel := mkPixel {
  color : Z;
  placedBy : Z;
  timestamp : Z
}.

Definition zero_pixel : pixel := mkPixel 0 0 0.

Record state := mkState {
  owner : Z;
  canvas : gmap Z pixel;
  lastPlaced : gmap Z Z;
  premiumAccess : gmap Z Z
}.

(** Reading a mapping: the zero value where nothing was written. *)
Definition canvas_at (st : state) (index : Z) : pixel :=
  default zero_pixel (canvas st !! index).
Definition lastPlaced_at (st : state) (a : Z) : Z := default 0 (lastPlaced st !! a).
Definition premiumAccess_at (st : state) (a : Z) : Z := default 0 (premiumAccess st !! a).

Record env := mkEnv {
  msg_sender : Z;
  block_timestamp : Z
}.

Inductive event :=
| PixelPlaced (user x y color timestamp : Z)
| PixelsBatchPlaced (user count timestamp : Z).

(** [index = px + py * CANVAS_RES], inside [unchecked]. *)
Definition canvasIndex (px py : Z) : Z := uint256 (px + py * CANVAS_RES).

(** The rate-limit block shared by placePixel and placePixelBatch. *)
Definition rateLimit (st : state) (e : env) (currentTime : Z) : result unit :=
  let userPremiumExpiry := premiumAccess_at st (msg_sender e) in
  if userPremiumExpiry <? currentTime then
    let lastTime := lastPlaced_at st (msg_sender e) in
    next ← checked_add 64 lastTime 15 ;
    require (next <=? currentTime) "Megaplace: rate limit exceeded"
  else Ok tt.

Definition placePixel (st : state) (e : env) (px py color : Z)
  : result (state * list event) :=
  _ ← require ((px <? CANVAS_RES) && (py <? CANVAS_RES))
        "Megaplace: invalid coordinates" ;
  let currentTime := uint64 (block_timestamp e) in
  _ ← rateLimit st e currentTime ;
  let index := canvasIndex px py in
  let storedColor := if color =? 0 then 0x010101 else color in
  let st' := mkState (owner st)
               (<[index := mkPixel storedColor (msg_sender e) currentTime]> (canvas st))
               (<[msg_sender e := currentTime]> (lastPlaced st))
               (premiumAccess st) in
  Ok (st', [PixelPlaced (msg_sender e) px py storedColor currentTime]).

(** The body of the batch loop, over the three arrays read in step. *)
Fixpoint placeBatchLoop (sender currentTime : Z) (px py colors : list Z)
    (cv : gmap Z pixel) (emitted : list event) : result (gmap Z pixel * list event) :=
  match px, py, colors with
  | x :: px', y :: py', c :: colors' =>
      _ ← require ((x <? CANVAS_RES) && (y <? CANVAS_RES))
            "Megaplace: invalid coordinates" ;
      let index := canvasIndex x y in
      let storedColor := if c =? 0 then 0x010101 else c in
      placeBatchLoop sender currentTime px' py' colors'
        (<[index := mkPixel storedColor sender currentTime]> cv)
        (emitted ++ [PixelPlaced sender x y storedColor currentTime])
  | _, _, _ => Ok (cv, emitted)
  end.

Definition placePixelBatch (st : state) (e : env) (px py colors : list Z)
  : result (state * list event) :=
  let len := Z.of_nat (length px) in
  _ ← require ((len =? Z.of_nat (length py)) && (len =? Z.of_nat (length colors)))
        "Megaplace: array length mismatch" ;
  _ ← require ((0 <? len) && (len <=? 100)) "Megaplace: batch size must be 1-100" ;
  let currentTime := uint64 (block_timestamp e) in
  _ ← rateLimit st e currentTime ;
  r ← placeBatchLoop (msg_sender e) currentTime px py colors (canvas st) [] ;
  let st' := mkState (owner st) r.1
               (<[msg_sender e := currentTime]> (lastPlaced st))
               (premiumAccess st) in
  Ok (st', r.2 ++ [PixelsBatchPlaced (msg_sender e) len currentTime]).

(** getRegion: the inner loop over [dx], with [n] iterations left. *)
Fixpoint regionRow (st : state) (startPx row : Z) (dx : Z) (n : nat) : list Z :=
  match n with
  | O => []
  | S n' =>
      let canvasIndex := uint256 ((startPx + dx) + row * CANVAS_RES) in
      color (canvas_at st canvasIndex) :: regionRow st startPx row (dx + 1) n'
  end.

(** The outer loop over [dy]; rows are appended in order, which is the
    running [arrayIndex] of the source. *)
Fixpoint regionRows (st : state) (startPx startPy width : Z) (dy : Z) (n : nat) : list Z :=
  match n with
  | O => []
  | S n' =>
      regionRow st startPx (startPy + dy) 0 (Z.to_nat width)
        ++ regionRows st startPx startPy width (dy + 1) n'
  end.

Definition getRegion (st : state) (startPx startPy width height : Z) : result (list Z) :=
  _ ← require ((startPx <? CANVAS_RES) && (startPy <? CANVAS_RES))
        "Megaplace: invalid start coordinates" ;
  right ← checked_add 256 startPx width ;
  _ ← (if right <=? CANVAS_RES then
         bottom ← checked_add 256 startPy height ;
         require (bottom <=? CANVAS_RES) "Megaplace: region out of bounds"
       else Revert "Megaplace: region out of bounds") ;
  _ ← require ((0 <? width) && (0 <? height)) "Megaplace: invalid dimensions" ;
  totalPixels ← checked_mul 256 width height ;
  Ok (regionRows st startPx startPy width 0 (Z.to_nat height)).

(** ** The rest of the contract's interface *)

(** [msg.value == 0.01 ether], in wei. *)
Definition PREMIUM_PRICE : Z := 10 ^ 16.

(** [2 hours], in seconds. *)
Definition TWO_HOURS : Z := 7200.

Definition onlyOwner (st : state) (e : env) : result unit :=
  require (msg_sender e =? owner st) "Ownable: caller is not the owner".

Definition setPremium (st : state) (user expiry : Z) : state :=
  mkState (owner st) (canvas st) (lastPlaced st) (<[user := expiry]> (premiumAccess st)).

(** grantPremiumAccess, called with [value] wei.  The ether stays with
    the contract account, which [state] does not carry. *)
Definition grantPremiumAccess (st : state) (e : env) (value : Z) : result state :=
  _ ← require (value =? PREMIUM_PRICE) "Megaplace: incorrect payment amount" ;
  Ok (setPremium st (msg_sender e) (uint64 (uint256 (block_timestamp e + TWO_HOURS)))).

Definition adminGrantPremiumAccess (st : state) (e : env) (user : Z) : result state :=
  _ ← onlyOwner st e ;
  Ok (setPremium st user (uint64 (uint256 (block_timestamp e + TWO_HOURS)))).

Definition adminGrantPremiumAccessBatch (st : state) (e : env) (users : list Z)
  : result state :=
  _ ← onlyOwner st e ;
  sum ← checked_add 256 (block_timestamp e) TWO_HOURS ;
  let expiryTime := uint64 sum in
  Ok (foldl (λ s user, setPremium s user expiryTime) st users).

Definition getPixel (st : state) (px py : Z) : result (Z * Z * Z) :=
  _ ← require ((px <? CANVAS_RES) && (py <? CANVAS_RES))
        "Megaplace: invalid coordinates" ;
  let index := canvasIndex px py in
  let p := canvas_at st index in
  Ok (color p, placedBy p, timestamp p).

(** The loop of getPixelBatch over the two arrays read in step; the three
    result arrays are filled in the same order. *)
Fixpoint getPixelBatchLoop (st : state) (px py : list Z)
  : result (list Z * list Z * list Z) :=
  match px, py with
  | x :: px', y :: py' =>
      _ ← require ((x <? CANVAS_RES) && (y <? CANVAS_RES))
            "Megaplace: invalid coordinates" ;
      let p := canvas_at st (canvasIndex x y) in
      rest ← getPixelBatchLoop st px' py' ;
      Ok (color p :: rest.1.1, placedBy p :: rest.1.2, timestamp p :: rest.2)
  | _, _ => Ok ([], [], [])
  end.

Definition getPixelBatch (st : state) (px py : list Z)
  : result (list Z * list Z * list Z) :=
  let len := Z.of_nat (length px) in
  _ ← require (len =? Z.of_nat (length py)) "Megaplace: array length mismatch" ;
  _ ← require ((0 <? len) && (len <=? 1000)) "Megaplace: batch size must be 1-1000" ;
  getPixelBatchLoop st px py.

Definition hasPremiumAccess (st : state) (e : env) (user : Z) : bool * Z :=
  let expiry := premiumAccess_at st user in
  (block_timestamp e <=? expiry, expiry).

Definition getCooldown (st : state) (e : env) (user : Z) : result (bool * Z) :=
  let currentTime := uint64 (block_timestamp e) in
  let userPremiumExpiry := premiumAccess_at st user in
  if currentTime <=? userPremiumExpiry then Ok (true, 0)
  else
    let lastTime := lastPlaced_at st user in
    nextAvailable ← checked_add 64 lastTime 15 ;
    if nextAvailable <=? currentTime then Ok (true, 0)
    else Ok (false, nextAvailable - currentTime).

End Contract.

(** ** frontend/src/services/backendApi.ts *)
Module BackendApi.

Record BackendPixelData := mkBackendPixelData {
  x : Z;
  y : Z;
  color : Z;
  placedBy : string;
  timestamp : Z
}.

(** [dataView.getUint32(offset, true)]: four bytes, least significant
    first; a read past the end throws a RangeError ([None]). *)
Definition getUint32 (buffer : list Z) (offset : nat) : option Z :=
  match drop offset buffer with
  | b0 :: b1 :: b2 :: b3 :: _ =>
      Some (Z.lor b0 (Z.lor (Z.shiftl b1 8) (Z.lor (Z.shiftl b2 16) (Z.shiftl b3 24))))
  | _ => None
  end.

(** [for (let i = 0; i < pixelCount; i++)], with [n] iterations left. *)
Fixpoint decodeLoop (buffer : list Z) (i : nat) (n : nat) : option (list BackendPixelData) :=
  match n with
  | O => Some []
  | S n' =>
      let offset := (i * 12)%nat in
      x ← getUint32 buffer offset ;
      y ← getUint32 buffer (offset + 4)%nat ;
      color ← getUint32 buffer (offset + 8)%nat ;
      rest ← decodeLoop buffer (S i) n' ;
      Some (mkBackendPixelData x y color "" 0 :: rest)
  end.

(** The decoding part of fetchAllPixelsBinary.  [pixelCount] is
    [byteLength / 12] as a JavaScript number, so [i < pixelCount] holds
    for [i] below the quotient rounded up.  [None] is the thrown
    RangeError, on which the function falls back to the JSON route. *)
Definition decodePixels (buffer : list Z) : option (list BackendPixelData) :=
  let byteLength := length buffer in
  decodeLoop buffer 0 (Nat.div (byteLength + 11) 12).

(** [response.ok]: a status of the 2xx range. *)
Definition ok (r : response) : bool := (200 <=? status r) && (status r <=? 299).

(** fetchPixel.  [fetch] is the network: it gives the response to a
    URL, or throws ([None]).  A 404 returns null; another failure status
    throws, and the [catch] returns null. *)
Definition fetchPixel (BACKEND_URL : string) (fetch : string → option response)
    (x y : number) : option json :=
  match fetch (BACKEND_URL +:+ "/api/pixels/" +:+ toString x +:+ "/" +:+ toString y) with
  | None => None
  | Some response =>
      if negb (ok response) then
        (if status response =? 404 then None else None)
      else body_field "pixel" response
  end.

(** fetchRegion: [data.pixels || []], and [[]] from the [catch].  The
    routes answer [pixels] with an array; a body without one reads as
    [[]]. *)
Definition fetchRegion (BACKEND_URL : string) (fetch : string → option response)
    (startX startY width height : number) : list json :=
  match fetch (BACKEND_URL +:+ "/api/pixels/region/" +:+ toString startX +:+ "/"
               +:+ toString startY +:+ "/" +:+ toString width +:+ "/"
               +:+ toString height) with
  | None => []
  | Some response =>
      if negb (ok response) then []
      else match body_field "pixels" response with
           | Some (JArr pixels) => pixels
           | _ => []
           end
  end.

End BackendApi.

(** ** The event listener's read side *)
Module Listener.

(** The persisted layout the READMEs give,
    [{ pixels: { "x,y": PixelData }, lastProcessedBlock, totalPixels }]. *)
Record storage := mkStorage {
  pixels : gmap string PixelData;
  lastProcessedBlock : string;
  totalPixels : Z
}.

(** [Object.values(pixels)], in the map's enumeration order. *)
Definition values (st : storage) : list PixelData := (map_to_list (pixels st)).*2.

(** Modelled from the spec: one u32 field of the binary encoding, least
    significant byte first ([buf.writeUInt32LE(v)] for a [v] of the u32
    range). *)
Definition writeUInt32LE (v : Z) : list Z :=
  [Z.land v 255; Z.land (Z.shiftr v 8) 255;
   Z.land (Z.shiftr v 16) 255; Z.land (Z.shiftr v 24) 255].

(** Modelled from the spec: the 12 bytes of one record, [x], [y], [color]. *)
Definition encodePixel (p : PixelData) : list Z :=
  writeUInt32LE (px_x p) ++ writeUInt32LE (px_y p) ++ writeUInt32LE (px_color p).

(** Modelled from the spec: EventListener.getPixelsBinary (eventListener.ts
    is not among the sources) — the fixed-width binary encoding,
    [x:u32-LE, y:u32-LE, color:u32-LE] per record, concatenated. *)
Definition binaryDump (st : storage) : list Z :=
  flat_map encodePixel (values st).

(** Modelled from the spec: EventListener.getPixelsArray without
    pagination arguments — the descriptive dump, one entry per record. *)
Definition descriptiveDump (st : storage) : list PixelData := values st.

(** The type of the spec's Record: [x], [y] and [color] are u32. *)
Definition u32 (v : Z) : Prop := 0 ≤ v < 2 ^ 32.
Definition wf_pixel (p : PixelData) : Prop :=
  u32 (px_x p) ∧ u32 (px_y p) ∧ u32 (px_color p).

(** A listener whose two dumps are taken from the storage [st]. *)
Definition serves (el : EventListener) (st : storage) : Prop :=
  getPixelsBinary el = binaryDump st
  ∧ getPixelsArray el None None = descriptiveDump st.

End Listener.

(** ** The record cache *)
Module Cache.

Definition RES : Z := 1048576.

(** A log entry of the ledger collaborator,
    [{user, x, y, color, timestamp, position}]. *)
Record entry := mkEntry {
  user : string;
  x : Z;
  y : Z;
  color : Z;
  timestamp : Z;
  position : Z
}.

#[global] Instance entry_eq_dec : EqDecision entry.
Proof. solve_decision. Defined.

(** Modelled from the spec: the normalisation step of eventListener.ts
    (not among the sources), which turns a log entry into a Record and
    keeps what the ledger returned as received. *)
Definition normalize (e : entry) : PixelData :=
  mkPixelData (x e) (y e) (color e) (user e) (timestamp e).

(** The canonical key encoding, [x + y * RES]. *)
Definition key (e : entry) : Z := x e + y e * RES.

(** Modelled from the spec: the Cache's [put] (eventListener.ts is not
    among the sources) — the entry is applied only if its position is
    greater than the stored position of its key, else it is a no-op; a
    key with no record takes the entry.  The cache keeps, per key, the
    entry whose normalisation is the current record. *)
Definition put (e : entry) (c : gmap Z entry) : gmap Z entry :=
  match c !! key e with
  | Some stored => if position stored <? position e then <[key e := e]> c else c
  | None => <[key e := e]> c
  end.

(** Modelled from the spec: [get(key)]. *)
Definition get (k : Z) (c : gmap Z entry) : option PixelData :=
  normalize <$> c !! k.

(** Entries applied in their order of arrival. *)
Definition apply_all (l : list entry) (c : gmap Z entry) : gmap Z entry :=
  foldl (λ c e, put e c) c l.

End Cache.

(** ** The push stream *)
Module Stream.

(** One server-sent event, [event: <name>\ndata: <json>\n\n]. *)
Record sse := mkSse {
  name : string;
  data : json
}.

Definition connected : sse :=
  mkSse "connected" (JObj [("message", JStr "Connected to pixel stream")]).
Definition pixel (p : PixelData) : sse := mkSse "pixel" (pixel_json p).
Definition heartbeat (now : Z) : sse := mkSse "heartbeat" (JObj [("timestamp", JNum now)]).

(** The server between events: the callbacks registered with [onPixel]
    and the running heartbeat intervals (both by connection), what was
    written to each response, and the number of connections so far. *)
Record server := mkServer {
  callbacks : list nat;
  intervals : list nat;
  written : gmap nat (list sse);
  connections : nat
}.

Definition init : server := mkServer [] [] ∅ 0.

Definition write (c : nat) (m : sse) (out : gmap nat (list sse)) : gmap nat (list sse) :=
  <[c := default [] (out !! c) ++ [m]]> out.

(** GET /api/pixels/stream: the acknowledgment is written, the callback
    registered and the 30 s interval started. *)
Definition connect (s : server) : server :=
  let c := connections s in
  mkServer (callbacks s ++ [c]) (intervals s ++ [c])
           (write c connected (written s)) (S c).

(** Modelled from the spec: the listener's fan-out (eventListener.ts is
    not among the sources) — [publish(record)] calls every callback that
    is registered at that time; nothing is kept for later subscribers. *)
Definition publish (p : PixelData) (s : server) : server :=
  mkServer (callbacks s) (intervals s)
           (foldl (λ out c, write c (pixel p) out) (written s) (callbacks s))
           (connections s).

(** The interval of connection [c] fires at time [now]. *)
Definition tick (c : nat) (now : Z) (s : server) : server :=
  if bool_decide (c ∈ intervals s) then
    mkServer (callbacks s) (intervals s) (write c (heartbeat now) (written s))
             (connections s)
  else s.

(** [req.on('close')]: [unsubscribe()] and [clearInterval(heartbeat)]. *)
Definition close (c : nat) (s : server) : server :=
  mkServer (filter (λ c', c' ≠ c) (callbacks s)) (filter (λ c', c' ≠ c) (intervals s))
           (written s) (connections s).

Inductive action :=
| Connect
| Publish (p : PixelData)
| Tick (c : nat) (now : Z)
| Close (c : nat).

Definition step (s : server) (a : action) : server :=
  match a with
  | Connect => connect s
  | Publish p => publish p s
  | Tick c now => tick c now s
  | Close c => close c s
  end.

Definition run (tr : list action) (s : server) : server := foldl step s tr.

(** What connection [c] is owed by the actions that follow its request:
    one event per published record and per firing of its own interval,
    up to its close. *)
Fixpoint deliveries (c : nat) (tr : list action) : list sse :=
  match tr with
  | [] => []
  | Connect :: tr' => deliveries c tr'
  | Publish p :: tr' => pixel p :: deliveries c tr'
  | Tick c' now :: tr' =>
      if decide (c' = c) then heartbeat now :: deliveries c tr' else deliveries c tr'
  | Close c' :: tr' => if decide (c' = c) then [] else deliveries c tr'
  end.

End Stream.

(** ** frontend/src/hooks/useMegaplace.ts *)
Module UseMegaplace.

(** ToInt32 and ToUint32 of an integer: the operands and results of the
    bitwise operators. *)
Definition toInt32 (z : Z) : Z := (z + 2 ^ 31) mod 2 ^ 32 - 2 ^ 31.
Definition toUint32 (z : Z) : Z := z mod 2 ^ 32.

(** [a & b], [a | b], [a << n], [a >> n] on integer Numbers, [n] below 32. *)
Definition band (a b : Z) : Z := toInt32 (Z.land (toInt32 a) (toInt32 b)).
Definition bor (a b : Z) : Z := toInt32 (Z.lor (toInt32 a) (toInt32 b)).
Definition shl (a n : Z) : Z := toInt32 (Z.shiftl (toInt32 a) n).
Definition sar (a n : Z) : Z := Z.shiftr (toInt32 a) n.

Definition rgbToUint32 (r g b : Z) : Z :=
  toUint32 (bor (bor (shl (band r 255) 16) (shl (band g 255) 8)) (band b 255)).

(** ToInt32 of a Number: NaN and the infinities give 0. *)
Definition int32 (n : number) : Z :=
  match n with Int z => toInt32 z | _ => 0 end.

(** uint32ToRgb, for an integer [color] that comes as a bigint or as a
    Number: [Number(color)] rounds a bigint beyond 2^53 and leaves a
    Number as it is; the bitwise operators then work on its ToInt32. *)
Definition uint32ToRgb (color : Z) : Z * Z * Z :=
  let colorNum := int32 (toNumber color) in
  (band (sar colorNum 16) 255, band (sar colorNum 8) 255, band colorNum 255).

Record PixelPlacedEvent := mkPixelPlacedEvent {
  user : string;
  x : Z;
  y : Z;
  color : Z;
  timestamp : Z
}.

(** The updater passed to setRecentPixels for a new event: a duplicate
    leaves the list as it is, else the event goes first and the list is
    cut to 20. *)
Definition addRecent (event : PixelPlacedEvent) (prev : list PixelPlacedEvent)
  : list PixelPlacedEvent :=
  let isDuplicate :=
    existsb (λ p, (x p =? x event) && (y p =? y event) && (timestamp p =? timestamp event))
            prev in
  if isDuplicate then prev else take 20 (event :: prev).

(** One run of pollForNewEvents with the chain at [currentBlock] and
    getLogs succeeding: the block range it asks for, if any, and the new
    value of lastProcessedBlockRef. *)
Definition pollForNewEvents (lastProcessedBlock currentBlock : Z) : option (Z * Z) * Z :=
  let fromBlock :=
    if lastProcessedBlock =? 0 then currentBlock else lastProcessedBlock + 1 in
  if fromBlock <=? currentBlock then (Some (fromBlock, currentBlock), currentBlock)
  else (None, lastProcessedBlock).

(** Successive polls, the chain at the given heads: the ranges asked
    for, in order, and the last reference value. *)
Fixpoint polls (lastProcessedBlock : Z) (heads : list Z) : list (Z * Z) * Z :=
  match heads with
  | [] => ([], lastProcessedBlock)
  | currentBlock :: rest =>
      let r := pollForNewEvents lastProcessedBlock currentBlock in
      let rs := polls r.2 rest in
      (match r.1 with Some range => range :: rs.1 | None => rs.1 end, rs.2)
  end.

(** The check of usePlacePixelBatch before it calls the contract;
    [Some message] is the Error thrown. *)
Definition placePixelBatch_check (xCoords yCoords colors : list Z) : option string :=
  if negb (length xCoords =? length yCoords)%nat || negb (length xCoords =? length colors)%nat
  then Some "Array lengths must match"
  else if (length xCoords =? 0)%nat || (100 <? length xCoords)%nat
  then Some "Batch size must be 1-100"
  else None.

End UseMegaplace.

(** ** The map hook (useMap) *)
Module UseMap.

(** handlePixelPlaced on pixelDataRef ("px,py" to color): color 0 deletes
    the entry, another color sets it.  [Number(event.x)] is taken as the
    integer itself, which it is for every coordinate Number holds exactly
    (the contract's are below 2^20); the markers are left out. *)
Definition handlePixelPlaced (event : UseMegaplace.PixelPlacedEvent)
    (pixelData : gmap string Z) : gmap string Z :=
  let px := UseMegaplace.x event in
  let py := UseMegaplace.y event in
  let color := UseMegaplace.color event in
  let pixelKey := pixelKey (Int px) (Int py) in
  if color =? 0 then delete pixelKey pixelData
  else <[pixelKey := color]> pixelData.

(** [setPlacedPixelCount(pixelDataRef.current.size)] *)
Definition placedPixelCount (pixelData : gmap string Z) : nat := size pixelData.

End UseMap.

(** ** The properties, in the terms of the sources *)

(** The canvas resolution, 2^20. *)
Definition RES : Z := 1048576.

(** [n] is an integer of [[0, RES)]. *)
Definition valid_coordinate (n : number) : Prop :=
  ∃ z, n = Int z ∧ 0 ≤ z < RES.

(** [r] carries the [{ success: false, error: <message> }] body. *)
Definition descriptive_error (r : response) : Prop :=
  body_field "success" r = Some (JBool false)
  ∧ ∃ message, body_field "error" r = Some (JStr message) ∧ message ≠ "".

(** The coordinates of the rectangle at [(x, y)] of [w] columns and [h]
    rows, row by row. *)
Definition rect_coords (x y w h : Z) : list (Z * Z) :=
  flat_map (λ dy, (λ dx, (x + dx, y + dy)) <$> seqZ 0 w) (seqZ 0 h).

(** The rectangle lies on the canvas. *)
Definition in_bounds (x y w h : Z) : Prop :=
  0 ≤ x ∧ 0 ≤ y ∧ 0 < w ∧ 0 < h
  ∧ x + w ≤ Contract.CANVAS_RES ∧ y + h ≤ Contract.CANVAS_RES.

(** The color the ledger reads at [(cx, cy)]. *)
Definition ledger_color (st : Contract.state) (c : Z * Z) : Z :=
  Contract.color (Contract.canvas_at st (c.1 + c.2 * Contract.CANVAS_RES)).

(** The record the backend holds at [(cx, cy)], if any. *)
Definition stored_at (allPixels : gmap string PixelData) (c : Z * Z) : option PixelData :=
  allPixels !! pixelKey (Int c.1) (Int c.2).

(** A listener with no record at all. *)
Definition empty_listener : EventListener :=
  mkEventListener (mkStats 0 "0" true) ∅ (λ _ _, None) (λ _ _, []) [] (λ _ _ _ _, []).

(** The color a ledger event carries, for a PixelPlaced event. *)
Definition event_color (ev : Contract.event) : option Z :=
  match ev with
  | Contract.PixelPlaced _ _ _ c _ => Some c
  | Contract.PixelsBatchPlaced _ _ _ => None
  end.

(** No PixelPlaced event of [evs] has color 0. *)
Definition no_zero_color (evs : list Contract.event) : Prop :=
  Forall (λ ev, event_color ev ≠ Some 0) evs.

(** The [(x, y, color)] triple of a record of the descriptive dump and
    of a record decoded from the binary dump. *)
Definition record_triple (p : PixelData) : Z * Z * Z := (px_x p, px_y p, px_color p).
Definition decoded_triple (d : BackendApi.BackendPixelData) : Z * Z * Z :=
  (BackendApi.x d, BackendApi.y d, BackendApi.color d).

(** The value of header [k] of a response. *)
Fixpoint header_in (k : string) (hs : list (string * header_value)) : option header_value :=
  match hs with
  | [] => None
  | (k', v) :: rest => if decide (k = k') then Some v else header_in k rest
  end.
Definition header (k : string) (r : response) : option header_value :=
  header_in k (headers r).

(** A listener that answers from the storage [st]. *)
Definition listener_of (st : Listener.storage) : EventListener :=
  mkEventListener
    (mkStats (Listener.totalPixels st) (Listener.lastProcessedBlock st) true)
    (Listener.pixels st)
    (λ x y, Listener.pixels st !! pixelKey x y)
    (λ _ _, Listener.descriptiveDump st)
    (Listener.binaryDump st)
    (λ _ _ _ _, []).

(** [top] is the most recent entry of key [k] in [l], and the only one
    at its position. *)
Definition newest_in (top : Cache.entry) (k : Z) (l : list Cache.entry) : Prop :=
  ∀ e, e ∈ l → Cache.key e = k →
       Cache.position e ≤ Cache.position top
       ∧ (Cache.position e = Cache.position top → e = top).

(** What the push stream has written to connection [c]. *)
Definition received (c : nat) (s : Stream.server) : list Stream.sse :=
  default [] (Stream.written s !! c).

(** The bookkeeping of the stream server is consistent: a connection is
    registered at most once, and only connections made so far are
    registered or written to. *)
Definition stream_inv (s : Stream.server) : Prop :=
  NoDup (Stream.callbacks s)
  ∧ (∀ c, c ∈ Stream.callbacks s → (c < Stream.connections s)%nat)
  ∧ (∀ c, c ∈ Stream.intervals s → (c < Stream.connections s)%nat)
  ∧ (∀ c, (Stream.connections s ≤ c)%nat → Stream.written s !! c = None).

(** A listener holding one red pixel at the origin. *)
Definition red : PixelData := mkPixelData 0 0 16711680 "0x1234" 1700000000.
Definition stored : EventListener :=
  mkEventListener (mkStats 1 "4250000" true) {[ "0,0" := red ]}
    (λ x y, ({[ "0,0" := red ]} : gmap string PixelData) !! pixelKey x y)
    (λ _ _, [red]) [] (λ _ _ _ _, [red]).

(** [w] and [h] are integer dimensions from 1 to 1000 of an area of at
    most 10000. *)
Definition valid_dimensions (w h : number) : Prop :=
  ∃ a b, w = Int a ∧ h = Int b ∧ 1 ≤ a ≤ 1000 ∧ 1 ≤ b ≤ 1000 ∧ a * b ≤ 10000.


(** The string has a comma (character 44) in it. *)
Fixpoint has_comma (s : string) : bool :=
  match s with
  | EmptyString => false
  | String c rest => if Ascii.eqb c (Ascii.ascii_of_nat 44) then true else has_comma rest
  end.

(** The blocks of a list of inclusive block ranges, in order. *)
Definition blocks (ranges : list (Z * Z)) : list Z :=
  flat_map (λ r, seqZ r.1 (r.2 - r.1 + 1)) ranges.

(** The event the frontend builds from a PixelPlaced log of the ledger,
    [show] rendering the user's address. *)
Definition event_of_log (show : Z → string) (ev : Contract.event)
  : option UseMegaplace.PixelPlacedEvent :=
  match ev with
  | Contract.PixelPlaced user x y color timestamp =>
      Some (UseMegaplace.mkPixelPlacedEvent (show user) x y color timestamp)
  | Contract.PixelsBatchPlaced _ _ _ => None
  end.

(** What may follow a decimal numeral for [parseInt] to read exactly
    that numeral: nothing, or a code unit that is no decimal digit and
    neither [x] nor [X]. *)
Definition stops (rest : list Z) : Prop :=
  match rest with
  | [] => True
  | c :: _ => digitValue 10 c = None ∧ c ≠ 120 ∧ c ≠ 88
  end.

(** A code unit from [0] to [9]. *)
Definition decimalUnit (c : Z) : Prop := 48 ≤ c ≤ 57.

(** The path parameter is the decimal numeral of an integer of
    [[0, RES)]. *)
Definition integer_in_range (param : list Z) : Prop :=
  ∃ z, param = codeUnits (pretty z) ∧ 0 ≤ z < RES.

(** * Theorems *)

Section Validation.

Lemma isValidCoordinate_spec n :
  App.isValidCoordinate n = true ↔ valid_coordinate n.
Proof.
  unfold App.isValidCoordinate, valid_coordinate, RES.
  destruct n as [| neg | z]; simpl.
  - split; [discriminate | intros (z & ? & _); discriminate].
  - split; [discriminate | intros (z & ? & _); discriminate].
  - rewrite andb_true_iff, Z.leb_le, Z.ltb_lt. split.
    + intros [? ?]. exists z. split; [reflexivity | lia].
    + intros (z' & Heq & ?). injection Heq as ->. lia.
Qed.

Lemma isValidDimension_spec n max :
  App.isValidDimension n max = true ↔ ∃ z, n = Int z ∧ 0 < z ≤ max.
Proof.
  unfold App.isValidDimension.
  destruct n as [| neg | z]; simpl.
  - split; [discriminate | intros (z & ? & _); discriminate].
  - split; [discriminate | intros (z & ? & _); discriminate].
  - unfold gt, le, lt. rewrite andb_true_iff, Z.leb_le, Z.ltb_lt. split.
    + intros [? ?]. exists z. split; [reflexivity | lia].
    + intros (z' & Heq & ?). injection Heq as ->. lia.
Qed.

Lemma isValidPaginationParam_spec n max :
  App.isValidPaginationParam n max = true ↔ ∃ z, n = Int z ∧ 0 ≤ z ≤ max.
Proof.
  unfold App.isValidPaginationParam.
  destruct n as [| neg | z]; simpl.
  - split; [discriminate | intros (z & ? & _); discriminate].
  - split; [discriminate | intros (z & ? & _); discriminate].
  - rewrite andb_true_iff, !Z.leb_le. split.
    + intros [? ?]. exists z. split; [reflexivity | lia].
    + intros (z' & Heq & ?). injection Heq as ->. lia.
Qed.

Lemma errorResponse_descriptive st msg :
  msg ≠ "" → descriptive_error (App.errorResponse st msg).
Proof.
  intros Hm. split; [reflexivity |]. exists msg. split; [reflexivity | exact Hm].
Qed.

End Validation.

(** * Reading a path parameter *)
Section Parse.

Lemma toNumber_exact z : Z.abs z ≤ 2 ^ 53 → toNumber z = Int z.
Proof.
  intros Hz. destruct (decide (Z.abs z = 2 ^ 53)) as [Heq | Hne].
  - assert (z = 2 ^ 53 ∨ z = - 2 ^ 53) as [-> | ->] by lia; vm_compute; reflexivity.
  - unfold toNumber, nearest.
    assert (Hlog : Z.log2 (Z.abs z) < 53).
    { destruct (decide (Z.abs z = 0)) as [-> | Hpos]; [reflexivity |].
      apply Z.log2_lt_pow2; lia. }
    replace (Z.log2 (Z.abs z) <? 53) with true by (symmetry; apply Z.ltb_lt; exact Hlog).
    replace (2 ^ 1024 <=? Z.abs z) with false.
    + f_equal. rewrite Z.mul_comm. apply Z.abs_sgn.
    + symmetry. apply Z.leb_gt.
      assert (2 ^ 53 < 2 ^ 1024) by (apply Z.pow_lt_mono_r; lia). lia.
Qed.

Lemma nearest_large n : 2 ^ 53 ≤ n → 2 ^ 53 ≤ nearest n.
Proof.
  intros Hn. unfold nearest.
  assert (Hk : 53 ≤ Z.log2 n) by (apply Z.log2_le_pow2; lia).
  replace (Z.log2 n <? 53) with false by (symmetry; apply Z.ltb_ge; exact Hk).
  set (e := Z.log2 n - 52).
  assert (He : 1 ≤ e) by (subst e; lia).
  assert (Hq : 2 ^ 52 ≤ Z.shiftr n e).
  { rewrite Z.shiftr_div_pow2 by lia.
    apply Z.div_le_lower_bound; [apply Z.pow_pos_nonneg; lia |].
    rewrite Z.mul_comm, <- Z.pow_add_r by lia.
    replace (52 + e) with (Z.log2 n) by (subst e; lia).
    apply Z.log2_spec. lia. }
  set (q := Z.shiftr n e) in *.
  match goal with |- context [Z.shiftl ?t e] => set (q' := t) end.
  assert (Hq' : 2 ^ 52 ≤ q') by (subst q'; case_match; lia).
  rewrite Z.shiftl_mul_pow2 by lia.
  assert (2 ^ 1 ≤ 2 ^ e) by (apply Z.pow_le_mono_r; lia).
  change (2 ^ 53) with (2 ^ 52 * 2 ^ 1). nia.
Qed.

Lemma toNumber_in_range z lo hi :
  - 2 ^ 53 < lo → hi ≤ 2 ^ 53 →
  (∃ m, toNumber z = Int m ∧ lo ≤ m < hi) ↔ lo ≤ z < hi.
Proof.
  intros Hlo Hhi. destruct (decide (Z.abs z ≤ 2 ^ 53)) as [Hs | Hl].
  - rewrite toNumber_exact by exact Hs. split.
    + intros (m & [= <-] & H). exact H.
    + intros H. exists z. split; [reflexivity | exact H].
  - split; [| lia].
    intros (m & Heq & Hm). exfalso. unfold toNumber in Heq.
    pose proof (nearest_large (Z.abs z) ltac:(lia)) as Hbig.
    destruct (2 ^ 1024 <=? nearest (Z.abs z)); [discriminate |].
    injection Heq as <-.
    destruct z as [| p | p]; cbn [Z.sgn Z.abs] in *; lia.
Qed.

Lemma codeUnit_pretty_N_char (d : N) :
  (d < 10)%N → Z.of_nat (Ascii.nat_of_ascii (pretty_N_char d)) = 48 + Z.of_N d.
Proof.
  intros Hd.
  assert (d = 0 ∨ d = 1 ∨ d = 2 ∨ d = 3 ∨ d = 4 ∨ d = 5 ∨ d = 6 ∨ d = 7 ∨ d = 8 ∨ d = 9)%N
    as Hcases by lia.
  repeat (destruct Hcases as [-> | Hcases]; [reflexivity |]). subst d. reflexivity.
Qed.

Lemma digitValue_decimal (d : Z) : 0 ≤ d < 10 → digitValue 10 (48 + d) = Some d.
Proof.
  intros Hd. unfold digitValue.
  replace ((48 <=? 48 + d) && (48 + d <=? 57)) with true
    by (symmetry; apply andb_true_iff; split; apply Z.leb_le; lia).
  cbn [mbind option_bind]. replace (48 + d - 48) with d by lia.
  replace (d <? 10) with true by (symmetry; apply Z.ltb_lt; lia). reflexivity.
Qed.

Lemma last_digit_bounds (n : N) : 0 ≤ Z.of_N (n `mod` 10) < 10.
Proof.
  split; [apply N2Z.is_nonneg |].
  change 10 with (Z.of_N 10). apply (proj1 (N2Z.inj_lt _ _)). apply N.mod_lt. discriminate.
Qed.

(** Reading the numeral that [pretty] printed: its digits, most
    significant first, make the number. *)
Lemma digits_pretty_N_go (n : N) : ∀ (s : string) (rest : list Z),
  ∃ ds, digits 10 (codeUnits (pretty_N_go n s) ++ rest)
          = ds ++ digits 10 (codeUnits s ++ rest)
        ∧ (∀ a, foldl (λ a d, a * 10 + d) a ds = a * 10 ^ Z.of_nat (length ds) + Z.of_N n)
        ∧ ((0 < n)%N → ds ≠ []).
Proof.
  induction (N.lt_wf_0 n) as [n _ IH]; intros s rest.
  destruct (decide (n = 0)%N) as [-> | Hn].
  - exists []. rewrite pretty_N_go_0. split; [reflexivity |].
    split; [intros a; cbn; lia | intros H; lia].
  - rewrite pretty_N_go_step by lia.
    destruct (IH (n `div` 10)%N ltac:(apply N.div_lt; lia)
                 (String (pretty_N_char (n `mod` 10)) s) rest) as (ds & Hds & Hval & _).
    assert (Hd : (n `mod` 10 < 10)%N) by (apply N.mod_lt; lia).
    exists (ds ++ [Z.of_N (n `mod` 10)]). split; [| split].
    + rewrite Hds. cbn [codeUnits app digits].
      rewrite codeUnit_pretty_N_char by exact Hd.
      rewrite digitValue_decimal by apply last_digit_bounds.
      rewrite <- app_assoc. reflexivity.
    + intros a. rewrite foldl_app, Hval. cbn [foldl].
      rewrite length_app, Nat2Z.inj_add. cbn [length].
      rewrite Z.pow_add_r by lia. change (10 ^ Z.of_nat 1) with 10.
      assert (Hsplit : Z.of_N n = 10 * Z.of_N (n `div` 10) + Z.of_N (n `mod` 10)).
      { rewrite (N.div_mod n 10) at 1 by lia. rewrite N2Z.inj_add, N2Z.inj_mul. reflexivity. }
      rewrite Hsplit. ring.
    + intros _ Heq. destruct ds; discriminate Heq.
Qed.

Lemma decimal_pretty_N_go (n : N) : ∀ s,
  Forall decimalUnit (codeUnits s) → Forall decimalUnit (codeUnits (pretty_N_go n s)).
Proof.
  induction (N.lt_wf_0 n) as [n _ IH]; intros s Hs.
  destruct (decide (n = 0)%N) as [-> | Hn].
  - rewrite pretty_N_go_0. exact Hs.
  - rewrite pretty_N_go_step by lia. apply IH; [apply N.div_lt; lia |].
    cbn [codeUnits]. constructor; [| exact Hs].
    assert (Hd : (n `mod` 10 < 10)%N) by (apply N.mod_lt; lia).
    rewrite codeUnit_pretty_N_char by exact Hd. unfold decimalUnit.
    pose proof (last_digit_bounds n). lia.
Qed.

Lemma decimal_pretty_N (n : N) :
  Forall decimalUnit (codeUnits (pretty n)) ∧ codeUnits (pretty n) ≠ [].
Proof.
  unfold pretty, pretty_N. destruct (decide (n = 0)%N) as [-> | Hn].
  - split; [| discriminate]. change (codeUnits "0") with [48].
    constructor; [unfold decimalUnit; lia | constructor].
  - split; [apply decimal_pretty_N_go; constructor |].
    rewrite pretty_N_go_step by lia.
    intros Hnil.
    pose proof (decimal_pretty_N_go (n `div` 10)
                  (String (pretty_N_char (n `mod` 10)) "")) as _.
    assert (Hlen : ∀ m s, (length (codeUnits s) ≤ length (codeUnits (pretty_N_go m s)))%nat).
    { intros m. induction (N.lt_wf_0 m) as [m _ IHm]; intros s.
      destruct (decide (m = 0)%N) as [-> | Hm]; [rewrite pretty_N_go_0; lia |].
      rewrite pretty_N_go_step by lia.
      etrans; [| apply IHm; apply N.div_lt; lia]. cbn. lia. }
    specialize (Hlen (n `div` 10)%N (String (pretty_N_char (n `mod` 10)) "")).
    rewrite Hnil in Hlen. cbn in Hlen. lia.
Qed.

Lemma digits_pretty_N (n : N) (rest : list Z) :
  ∃ ds, digits 10 (codeUnits (pretty n) ++ rest) = ds ++ digits 10 rest
        ∧ ds ≠ [] ∧ foldl (λ a d, a * 10 + d) 0 ds = Z.of_N n.
Proof.
  unfold pretty, pretty_N. destruct (decide (n = 0)%N) as [-> | Hn].
  - exists [0]. split; [reflexivity |]. split; [discriminate | reflexivity].
  - destruct (digits_pretty_N_go n "" rest) as (ds & Hds & Hval & Hne).
    exists ds. split; [exact Hds |]. split; [apply Hne; lia |].
    rewrite Hval. lia.
Qed.

Lemma decimal_not_space c : decimalUnit c → isWhiteSpace c = false.
Proof.
  unfold decimalUnit, isWhiteSpace. intros Hc.
  apply orb_false_iff. split.
  - apply bool_decide_eq_false. rewrite !elem_of_cons, elem_of_nil. lia.
  - apply andb_false_iff. left. apply Z.leb_gt. lia.
Qed.

Lemma hexPrefix_decimal (l rest : list Z) :
  Forall decimalUnit l → l ≠ [] → stops rest → hexPrefix (l ++ rest) = false.
Proof.
  intros Hl Hne Hrest. destruct l as [| c0 l]; [contradiction |].
  apply Forall_cons in Hl as [_ Hl]. destruct l as [| c1 l]; cbn [app hexPrefix].
  - destruct rest as [| c1 rest]; [reflexivity |]. destruct Hrest as (_ & H1 & H2).
    apply andb_false_iff. right. apply orb_false_iff. split; apply Z.eqb_neq; assumption.
  - apply Forall_cons in Hl as [Hc1 _]. unfold decimalUnit in Hc1.
    apply andb_false_iff. right. apply orb_false_iff. split; apply Z.eqb_neq; lia.
Qed.

Lemma digits_stops rest : stops rest → digits 10 rest = [].
Proof.
  destruct rest as [| c rest]; [reflexivity |]. intros (Hc & _).
  cbn [digits]. rewrite Hc. reflexivity.
Qed.

(** An unsigned decimal numeral at the head of the string. *)
Lemma parseUnsigned_decimal (n : N) (rest : list Z) (sign : Z) :
  stops rest →
  parseUnsigned sign (codeUnits (pretty n) ++ rest) = toNumber (sign * Z.of_N n).
Proof.
  intros Hrest. unfold parseUnsigned.
  destruct (decimal_pretty_N n) as [Hdec Hne].
  rewrite (hexPrefix_decimal _ _ Hdec Hne Hrest). cbv zeta.
  destruct (digits_pretty_N n rest) as (ds & -> & Hds & Hval).
  rewrite (digits_stops rest Hrest), app_nil_r.
  destruct ds as [| d ds]; [contradiction |]. rewrite Hval. reflexivity.
Qed.

Lemma parseInt_decimal (z : Z) (rest : list Z) :
  stops rest → parseInt (codeUnits (pretty z) ++ rest) = toNumber z.
Proof.
  intros Hrest. unfold parseInt.
  destruct z as [| p | p].
  - change (pretty 0) with (pretty 0%N).
    destruct (decimal_pretty_N 0) as [Hdec Hne].
    destruct (codeUnits (pretty 0%N)) as [| c l] eqn:Hl; [contradiction |].
    apply Forall_cons in Hdec as [Hc Hdec].
    cbn [app trimStart]. rewrite (decimal_not_space c Hc).
    unfold decimalUnit in Hc.
    replace (c =? 45) with false by (symmetry; apply Z.eqb_neq; lia).
    replace (c =? 43) with false by (symmetry; apply Z.eqb_neq; lia).
    cbn [orb]. change (c :: l ++ rest) with ((c :: l) ++ rest). rewrite <- Hl.
    transitivity (toNumber (1 * Z.of_N 0));
      [exact (parseUnsigned_decimal 0 rest 1 Hrest) | reflexivity].
  - change (pretty (Z.pos p)) with (pretty (N.pos p)).
    destruct (decimal_pretty_N (N.pos p)) as [Hdec Hne].
    destruct (codeUnits (pretty (N.pos p))) as [| c l] eqn:Hl; [contradiction |].
    apply Forall_cons in Hdec as [Hc Hdec].
    cbn [app trimStart]. rewrite (decimal_not_space c Hc).
    unfold decimalUnit in Hc.
    replace (c =? 45) with false by (symmetry; apply Z.eqb_neq; lia).
    replace (c =? 43) with false by (symmetry; apply Z.eqb_neq; lia).
    cbn [orb]. change (c :: l ++ rest) with ((c :: l) ++ rest). rewrite <- Hl.
    transitivity (toNumber (1 * Z.of_N (N.pos p)));
      [exact (parseUnsigned_decimal (N.pos p) rest 1 Hrest) | reflexivity].
  - change (pretty (Z.neg p)) with ("-" +:+ pretty (N.pos p)).
    change (codeUnits ("-" +:+ pretty (N.pos p)))
      with (45 :: codeUnits (pretty (N.pos p))).
    cbn [app trimStart].
    change (isWhiteSpace 45) with false. cbv iota.
    change (45 =? 45) with true. rewrite orb_true_r. cbv iota.
    transitivity (toNumber (-1 * Z.of_N (N.pos p)));
      [exact (parseUnsigned_decimal (N.pos p) rest (-1) Hrest) | reflexivity].
Qed.

Lemma decimal_pretty_Z (z : Z) : 0 ≤ z → Forall decimalUnit (codeUnits (pretty z)).
Proof.
  intros Hz. destruct z as [| p | p]; [| | lia].
  - apply (decimal_pretty_N 0).
  - apply (decimal_pretty_N (N.pos p)).
Qed.

Lemma valid_coordinate_parsed (param : list Z) (a : Z) (rest : list Z) :
  stops rest → param = codeUnits (pretty a) ++ rest →
  (valid_coordinate (parseInt param) ↔ 0 ≤ a < RES).
Proof.
  intros Hrest ->. rewrite (parseInt_decimal a rest Hrest).
  unfold valid_coordinate. apply toNumber_in_range; unfold RES; lia.
Qed.

End Parse.

(** C6 (as amended). The point-lookup route answers 400, with the
    descriptive error body, exactly when the integer that [parseInt]
    reads at the head of [x] or of [y] is missing or not in
    [[0, 1048576)]; otherwise the answer is the lookup's own 200 or 404
    at the two integers read, never a 500.  A parameter that starts with
    the decimal numeral of an integer is read as that integer whatever
    follows the numeral, so a decimal integer parameter is rejected
    exactly when it is out of range, and a parameter that goes on after
    an in-range numeral is looked up at the numeral. *)
Theorem point_lookup_rejects_iff_no_integer_head_in_range
    (el : EventListener) (x y : list Z) :
  let r := App.pixel_route el x y in
  (status r = 400 ↔ ¬ (valid_coordinate (parseInt x) ∧ valid_coordinate (parseInt y)))
  ∧ (status r = 400 →
       r = App.errorResponse 400
             "Invalid coordinates. Must be integers between 0 and 1048575."
       ∧ descriptive_error r)
  ∧ (valid_coordinate (parseInt x) ∧ valid_coordinate (parseInt y) →
       status r = 200 ∨ status r = 404)
  ∧ (∀ param a rest, stops rest → param = codeUnits (pretty a) ++ rest →
       (valid_coordinate (parseInt param) ↔ 0 ≤ a < RES))
  ∧ (∀ a b restx resty, stops restx → stops resty →
       x = codeUnits (pretty a) ++ restx → y = codeUnits (pretty b) ++ resty →
       0 ≤ a < RES → 0 ≤ b < RES →
       r = App.get_pixel el (Int a) (Int b)).
Proof.
  intros r. subst r. unfold App.pixel_route. cbv zeta.
  split; [| split; [| split; [| split]]].
  - unfold App.get_pixel. rewrite <- !isValidCoordinate_spec.
    destruct (App.isValidCoordinate (parseInt x)), (App.isValidCoordinate (parseInt y));
      cbn [negb orb].
    + destruct (getPixel el (parseInt x) (parseInt y)); cbn;
        (split; [discriminate | intros Hn; exfalso; apply Hn; split; reflexivity]).
    + split; [intros _ [_ ?]; discriminate | reflexivity].
    + split; [intros _ [? _]; discriminate | reflexivity].
    + split; [intros _ [? _]; discriminate | reflexivity].
  - unfold App.get_pixel.
    destruct (negb (App.isValidCoordinate (parseInt x))
              || negb (App.isValidCoordinate (parseInt y))).
    + intros _. split; [reflexivity |]. apply errorResponse_descriptive. discriminate.
    + destruct (getPixel el (parseInt x) (parseInt y)); cbn; discriminate.
  - intros [Hx Hy]. apply isValidCoordinate_spec in Hx, Hy.
    unfold App.get_pixel. rewrite Hx, Hy. cbn [negb orb].
    destruct (getPixel el (parseInt x) (parseInt y)); cbn; auto.
  - intros param a rest Hrest Hparam. apply (valid_coordinate_parsed param a rest Hrest Hparam).
  - intros a b restx resty Hrx Hry -> -> Ha Hb.
    rewrite (parseInt_decimal a restx Hrx), (parseInt_decimal b resty Hry).
    rewrite !toNumber_exact by (unfold RES in *; lia). reflexivity.
Qed.

(** C6, as stated, fails: the parameter [0.5] is not an integer, yet
    the request for /api/pixels/0.5/0 is not rejected; it is answered
    with the record stored at (0, 0). *)
Lemma point_lookup_accepts_non_integer :
  let r := App.pixel_route stored (codeUnits "0.5") (codeUnits "0") in
  ¬ integer_in_range (codeUnits "0.5")
  ∧ status r = 200
  ∧ body_field "pixel" r = Some (pixel_json red)
  ∧ ¬ (status r = 400
         ↔ ¬ (integer_in_range (codeUnits "0.5") ∧ integer_in_range (codeUnits "0"))).
Proof.
  intros r.
  assert (Hno : ¬ integer_in_range (codeUnits "0.5")).
  { intros (z & Heq & Hz & _).
    pose proof (decimal_pretty_Z z Hz) as Hdec. rewrite <- Heq in Hdec.
    change (codeUnits "0.5") with [48; 46; 53] in Hdec.
    apply Forall_cons in Hdec as [_ Hdec]. apply Forall_cons in Hdec as [Hdot _].
    unfold decimalUnit in Hdot. lia. }
  split; [exact Hno |].
  split; [vm_compute; reflexivity |].
  split; [vm_compute; reflexivity |].
  intros [_ Hback].
  assert (Hst : status r = 400) by (apply Hback; intros [H _]; exact (Hno H)).
  vm_compute in Hst. discriminate Hst.
Qed.

(** C10. For a coordinate pair within range, the point lookup answers 404
    with [success: false] when the listener holds no record there, and
    200 with the record itself when it holds one, whatever its color
    (color 0 included); the earlier handler answers the same two ways.
    The two answers differ, so absence shows at the interface. *)
Theorem point_lookup_absent_404_present_200
    (el : EventListener) (x y : number)
    (Hx : valid_coordinate x) (Hy : valid_coordinate y) :
  (getPixel el x y = None →
     App.get_pixel el x y = App.errorResponse 404 "Pixel not found"
     ∧ status (App.get_pixel el x y) = 404
     ∧ body_field "success" (App.get_pixel el x y) = Some (JBool false)
     ∧ status (Legacy.get_pixel el x y) = 404
     ∧ body_field "success" (Legacy.get_pixel el x y) = Some (JBool false))
  ∧ (∀ p, getPixel el x y = Some p →
       status (App.get_pixel el x y) = 200
       ∧ body_field "success" (App.get_pixel el x y) = Some (JBool true)
       ∧ body_field "pixel" (App.get_pixel el x y) = Some (pixel_json p)
       ∧ status (Legacy.get_pixel el x y) = 200
       ∧ body_field "pixel" (Legacy.get_pixel el x y) = Some (pixel_json p))
  ∧ (∀ el', getPixel el x y = None → is_Some (getPixel el' x y) →
       App.get_pixel el x y ≠ App.get_pixel el' x y).
Proof.
  pose proof (proj2 (isValidCoordinate_spec x) Hx) as Vx.
  pose proof (proj2 (isValidCoordinate_spec y) Hy) as Vy.
  destruct Hx as (a & -> & _), Hy as (b & -> & _).
  unfold App.get_pixel, Legacy.get_pixel. rewrite Vx, Vy. simpl.
  split; [| split].
  - intros ->. repeat split.
  - intros p ->. repeat split.
  - intros el' -> [p ->]. discriminate.
Qed.

Lemma point_lookup_absent_404_present_200_witness :
  let cleared := mkPixelData 5 5 0 "0xabc" 1700000000 in
  let el := mkEventListener (mkStats 1 "10" true) ∅
              (λ x y, if decide (x = Int 5 ∧ y = Int 5) then Some cleared else None)
              (λ _ _, []) [] (λ _ _ _ _, []) in
  status (App.get_pixel el (Int 5) (Int 5)) = 200
  ∧ body_field "pixel" (App.get_pixel el (Int 5) (Int 5)) = Some (pixel_json cleared)
  ∧ status (App.get_pixel el (Int 6) (Int 5)) = 404.
Proof.
  intros cleared el.
  assert (V5 : valid_coordinate (Int 5)) by (exists 5; unfold RES; split; [reflexivity | lia]).
  assert (V6 : valid_coordinate (Int 6)) by (exists 6; unfold RES; split; [reflexivity | lia]).
  destruct (point_lookup_absent_404_present_200 el (Int 5) (Int 5) V5 V5) as (_ & Hp & _).
  destruct (point_lookup_absent_404_present_200 el (Int 6) (Int 5) V6 V5) as (Ha & _ & _).
  destruct (Hp cleared eq_refl) as (H1 & _ & H2 & _).
  destruct (Ha eq_refl) as (_ & H3 & _).
  exact (conj H1 (conj H2 H3)).
Defined.


(** C9. For a full-dump request whose pagination parameters pass the
    validation, the answer is a 200 whose [hasMore] is true exactly when
    the offset (0 when absent) plus the number of pixels in the answer is
    below the [total] of the same answer. *)
Theorem hasMore_iff_offset_plus_count_below_total
    (el : EventListener) (limit offset : option number)
    (Hlimit : ∀ l, limit = Some l → App.isValidPaginationParam l 100000 = true)
    (Hoffset : ∀ o, offset = Some o → App.isValidPaginationParam o 10000000 = true) :
  ∃ (off total : Z) (items : list json) (more : bool),
    status (App.get_pixels el limit offset) = 200
    ∧ default (Int 0) offset = Int off
    ∧ body_field "pixels" (App.get_pixels el limit offset) = Some (JArr items)
    ∧ body_field "count" (App.get_pixels el limit offset) = Some (JNum (array_length items))
    ∧ body_field "total" (App.get_pixels el limit offset) = Some (JNum total)
    ∧ total = totalPixels (getStats el)
    ∧ body_field "hasMore" (App.get_pixels el limit offset) = Some (JBool more)
    ∧ (more = true ↔ off + array_length items < total).
Proof.
  assert (Hoff : ∃ off, default (Int 0) offset = Int off).
  { destruct offset as [o |]; simpl; [| eexists; reflexivity].
    destruct (proj1 (isValidPaginationParam_spec _ _) (Hoffset o eq_refl)) as (z & -> & _).
    eexists; reflexivity. }
  destruct Hoff as [off Hoff].
  unfold App.get_pixels.
  replace (match limit with
           | Some l => negb (App.isValidPaginationParam l 100000)
           | None => false
           end) with false
    by (destruct limit as [l |]; [rewrite (Hlimit l eq_refl) |]; reflexivity).
  replace (match offset with
           | Some o => negb (App.isValidPaginationParam o 10000000)
           | None => false
           end) with false
    by (destruct offset as [o |]; [rewrite (Hoffset o eq_refl) |]; reflexivity).
  set (arr := if bool_decide (limit ≠ None) || bool_decide (offset ≠ None)
              then getPixelsArray el limit (Some (default (Int 0) offset))
              else getPixelsArray el None None).
  exists off, (totalPixels (getStats el)), (pixel_json <$> arr),
         (off + array_length arr <? totalPixels (getStats el)).
  rewrite Hoff. unfold array_length. rewrite length_fmap.
  repeat split; try reflexivity.
  - apply Z.ltb_lt.
  - apply Z.ltb_lt.
Qed.

Lemma hasMore_iff_offset_plus_count_below_total_witness :
  let p := mkPixelData 1 2 16711680 "0x1234" 1700000000 in
  let el := mkEventListener (mkStats 5 "10" true) ∅ (λ _ _, None)
              (λ _ _, [p; p]) [] (λ _ _ _ _, []) in
  body_field "hasMore" (App.get_pixels el (Some (Int 2)) (Some (Int 2))) = Some (JBool true)
  ∧ body_field "hasMore" (App.get_pixels el (Some (Int 2)) (Some (Int 3))) = Some (JBool false).
Proof.
  intros p el.
  assert (V : ∀ n l, (n = 2 ∨ n = 3) → Some (Int n) = Some l →
                     ∀ max, 100000 ≤ max → App.isValidPaginationParam l max = true).
  { intros n l Hn [= <-] max Hmax. apply isValidPaginationParam_spec.
    exists n. split; [reflexivity | lia]. }
  split.
  - destruct (hasMore_iff_offset_plus_count_below_total el (Some (Int 2)) (Some (Int 2)))
      as (off & total & items & more & _ & Ho & Hi & _ & _ & Ht & Hm & Hiff).
    + intros l Hl. apply (V 2 l); [lia | exact Hl | lia].
    + intros o Hoo. apply (V 2 o); [lia | exact Hoo | lia].
    + rewrite Hm. f_equal. f_equal. apply Hiff.
      injection Ho as <-. injection Hi as <-. subst total. vm_compute. reflexivity.
  - destruct (hasMore_iff_offset_plus_count_below_total el (Some (Int 2)) (Some (Int 3)))
      as (off & total & items & more & _ & Ho & Hi & _ & _ & Ht & Hm & Hiff).
    + intros l Hl. apply (V 2 l); [lia | exact Hl | lia].
    + intros o Hoo. apply (V 3 o); [lia | exact Hoo | lia].
    + rewrite Hm. f_equal. f_equal. destruct more; [| reflexivity].
      exfalso. destruct Hiff as [Hiff _]. specialize (Hiff eq_refl).
      injection Ho as <-. injection Hi as <-. subst total. vm_compute in Hiff. discriminate.
Defined.

Section Region.

Lemma length_rect_coords x y w h :
  0 ≤ w → 0 ≤ h → Z.of_nat (length (rect_coords x y w h)) = w * h.
Proof.
  intros Hw Hh. unfold rect_coords.
  rewrite flat_map_constant_length with (c := Z.to_nat w).
  - rewrite length_seqZ. lia.
  - intros dy _. rewrite length_fmap, length_seqZ. reflexivity.
Qed.

Lemma regionRow_spec st startPx row dx n :
  Contract.regionRow st startPx row dx n
  = (λ i, Contract.color
            (Contract.canvas_at st (Contract.uint256 ((startPx + i) + row * Contract.CANVAS_RES))))
      <$> seqZ dx (Z.of_nat n).
Proof.
  revert dx. induction n as [| n IH]; intros dx; [reflexivity |].
  rewrite seqZ_cons by lia. cbn [Contract.regionRow fmap list_fmap].
  rewrite IH. repeat f_equal; lia.
Qed.

Lemma regionRows_spec st startPx startPy width dy n :
  Contract.regionRows st startPx startPy width dy n
  = flat_map (λ j, (λ i, Contract.color
                           (Contract.canvas_at st
                              (Contract.uint256 ((startPx + i) + (startPy + j) * Contract.CANVAS_RES))))
                     <$> seqZ 0 width)
      (seqZ dy (Z.of_nat n)).
Proof.
  revert dy. induction n as [| n IH]; intros dy; [reflexivity |].
  rewrite (seqZ_cons dy) by lia. cbn [Contract.regionRows flat_map].
  rewrite IH, regionRow_spec. f_equal.
  - destruct (Z_lt_le_dec width 0) as [Hneg | Hpos].
    + rewrite !seqZ_nil by lia. reflexivity.
    + rewrite Z2Nat.id by lia. reflexivity.
  - repeat f_equal; lia.
Qed.

Lemma flat_map_fmap {A B C} (g : B → C) (f : A → list B) (l : list A) :
  g <$> flat_map f l = flat_map (λ a, g <$> f a) l.
Proof.
  induction l as [| a l IH]; [reflexivity |].
  cbn [flat_map]. rewrite fmap_app, IH. reflexivity.
Qed.

Lemma flat_map_ext_in {A B} (f g : A → list B) (l : list A) :
  (∀ a, a ∈ l → f a = g a) → flat_map f l = flat_map g l.
Proof.
  induction l as [| a l IH]; intros H; [reflexivity |].
  cbn [flat_map]. rewrite (H a) by left. rewrite IH; [reflexivity |].
  intros b Hb. apply H. right. exact Hb.
Qed.

Lemma elem_of_seqZ_bounds (m n i : Z) : i ∈ seqZ m n → m ≤ i < m + n.
Proof. intros H. apply elem_of_seqZ in H. exact H. Qed.

Lemma ledger_region_colors st x y w h :
  in_bounds x y w h →
  Contract.regionRows st x y w 0 (Z.to_nat h) = ledger_color st <$> rect_coords x y w h.
Proof.
  intros (Hx & Hy & Hw & Hh & Hr & Hb).
  rewrite regionRows_spec, Z2Nat.id by lia.
  unfold rect_coords. rewrite flat_map_fmap.
  apply flat_map_ext_in. intros j Hj. apply elem_of_seqZ_bounds in Hj.
  rewrite <- list_fmap_compose. apply list_fmap_ext.
  intros k i Hi. apply list_elem_of_lookup_2, elem_of_seqZ_bounds in Hi.
  unfold ledger_color, compose, Contract.uint256. cbn [fst snd].
  unfold Contract.CANVAS_RES in *.
  rewrite Z.mod_small; [reflexivity |].
  split; [lia |].
  assert (x + i + (y + j) * 1048576 < 1048576 * 1048577) by nia.
  assert (1048576 * 1048577 < 2 ^ 256) by (vm_compute; reflexivity).
  lia.
Qed.

Lemma scan_row_spec allPixels y x n :
  Legacy.scan_row allPixels y x n
  = omap (λ i, stored_at allPixels (i, y)) (seqZ x (Z.of_nat n)).
Proof.
  revert x. induction n as [| n IH]; intros x; [reflexivity |].
  rewrite seqZ_cons by lia. cbn [Legacy.scan_row omap list_omap].
  unfold stored_at at 1. cbn [fst snd].
  replace (Z.pred (Z.of_nat (S n))) with (Z.of_nat n) by lia.
  destruct (allPixels !! pixelKey (Int x) (Int y)); rewrite IH; reflexivity.
Qed.

Lemma omap_flat_map {A B C} (g : B → option C) (f : A → list B) (l : list A) :
  omap g (flat_map f l) = flat_map (λ a, omap g (f a)) l.
Proof.
  induction l as [| a l IH]; [reflexivity |].
  cbn [flat_map]. rewrite omap_app, IH. reflexivity.
Qed.

Lemma scan_rows_spec allPixels startX width y n :
  Legacy.scan_rows allPixels startX width y n
  = omap (stored_at allPixels)
      (flat_map (λ j, (λ i, (i, j)) <$> seqZ startX (Z.of_nat width)) (seqZ y (Z.of_nat n))).
Proof.
  revert y. induction n as [| n IH]; intros y; [reflexivity |].
  rewrite (seqZ_cons y) by lia. cbn [Legacy.scan_rows flat_map].
  replace (Z.pred (Z.of_nat (S n))) with (Z.of_nat n) by lia.
  rewrite omap_app, IH, scan_row_spec. f_equal.
  generalize (seqZ startX (Z.of_nat width)). intros l.
  induction l as [| i l IHl]; [reflexivity |].
  cbn [omap list_omap fmap list_fmap]. rewrite IHl. reflexivity.
Qed.

Lemma scan_region_spec allPixels x y w h :
  0 ≤ w → 0 ≤ h →
  Legacy.scan_region allPixels (Int x) (Int y) (Int w) (Int h)
  = omap (stored_at allPixels) (rect_coords x y w h).
Proof.
  intros Hw Hh. unfold Legacy.scan_region. rewrite scan_rows_spec, !Z2Nat.id by lia.
  f_equal. unfold rect_coords.
  replace (seqZ y h) with (Z.add y <$> seqZ 0 h)
    by (rewrite fmap_add_seqZ; f_equal; lia).
  replace (seqZ x w) with (Z.add x <$> seqZ 0 w)
    by (rewrite fmap_add_seqZ; f_equal; lia).
  generalize (seqZ 0 h). intros rows.
  induction rows as [| j rows IH]; [reflexivity |].
  cbn [fmap list_fmap flat_map]. f_equal; [| exact IH].
  rewrite <- list_fmap_compose. apply list_fmap_ext. intros k i _. reflexivity.
Qed.

Lemma length_omap_le {A B} (f : A → option B) (l : list A) :
  (length (omap f l) ≤ length l)%nat.
Proof.
  induction l as [| a l IH]; [reflexivity |].
  cbn [omap list_omap]. destruct (f a); simpl; lia.
Qed.

End Region.

(** C2 (as amended). For a rectangle on the canvas, the ledger's
    getRegion returns exactly [w*h] colors, one per coordinate in
    row-major order, a coordinate never written reading as color 0, and
    it does not revert.  The backend's inline region handler (dimensions
    up to 1000) answers 200 with, in row-major order, the records stored
    in the rectangle and only those: at most [w*h] entries, none for an
    unset coordinate, and never an error.  The route of app.ts (area up
    to 10000) answers 200 with the listener's region result as it is and
    its length as count. *)
Theorem region_ledger_complete_backend_stored_only
    (st : Contract.state) (el : EventListener) (x y w h : Z)
    (Hin : in_bounds x y w h) :
  Contract.getRegion st x y w h = Contract.Ok (ledger_color st <$> rect_coords x y w h)
  ∧ array_length (ledger_color st <$> rect_coords x y w h) = w * h
  ∧ (∀ c, c ∈ rect_coords x y w h →
       Contract.canvas st !! (c.1 + c.2 * Contract.CANVAS_RES) = None →
       ledger_color st c = 0)
  ∧ (w ≤ 1000 → h ≤ 1000 →
       let pixels := omap (stored_at (getPixels el)) (rect_coords x y w h) in
       Legacy.get_region el (Int x) (Int y) (Int w) (Int h)
         = ok_json [] (JObj [("success", JBool true);
                             ("count", JNum (array_length pixels));
                             ("pixels", JArr (pixel_json <$> pixels))])
       ∧ array_length pixels ≤ w * h)
  ∧ (w ≤ 1000 → h ≤ 1000 → w * h ≤ 10000 →
       let pixels := getRegion el (Int x) (Int y) (Int w) (Int h) in
       App.get_region el (Int x) (Int y) (Int w) (Int h)
         = ok_json [("Cache-Control", HText "public, max-age=5")]
             (JObj [("success", JBool true);
                    ("count", JNum (array_length pixels));
                    ("pixels", JArr (pixel_json <$> pixels))])).
Proof.
  pose proof Hin as (Hx & Hy & Hw & Hh & Hr & Hb).
  assert (Hbig : Contract.CANVAS_RES < 2 ^ 256) by (vm_compute; reflexivity).
  assert (Hres : Contract.CANVAS_RES = 1048576) by reflexivity.
  split; [| split; [| split; [| split]]].
  - unfold Contract.getRegion, Contract.require, Contract.checked_add, Contract.checked_mul.
    replace ((x <? Contract.CANVAS_RES) && (y <? Contract.CANVAS_RES)) with true
      by (symmetry; apply andb_true_iff; split; apply Z.ltb_lt; lia).
    cbn [mbind Contract.result_bind].
    replace (x + w <? 2 ^ 256) with true by (symmetry; apply Z.ltb_lt; lia).
    cbn [mbind Contract.result_bind].
    replace (x + w <=? Contract.CANVAS_RES) with true by (symmetry; apply Z.leb_le; lia).
    replace (y + h <? 2 ^ 256) with true by (symmetry; apply Z.ltb_lt; lia).
    cbn [mbind Contract.result_bind].
    replace (y + h <=? Contract.CANVAS_RES) with true by (symmetry; apply Z.leb_le; lia).
    cbn [mbind Contract.result_bind].
    replace ((0 <? w) && (0 <? h)) with true
      by (symmetry; apply andb_true_iff; split; apply Z.ltb_lt; lia).
    cbn [mbind Contract.result_bind].
    replace (w * h <? 2 ^ 256) with true.
    2:{ symmetry. apply Z.ltb_lt.
        assert (w * h ≤ 1048576 * 1048576) by nia.
        assert (1048576 * 1048576 < 2 ^ 256) by (vm_compute; reflexivity). lia. }
    cbn [mbind Contract.result_bind].
    rewrite (ledger_region_colors st x y w h Hin). reflexivity.
  - unfold array_length. rewrite length_fmap. apply length_rect_coords; lia.
  - intros c _ Hnone. unfold ledger_color, Contract.canvas_at. rewrite Hnone. reflexivity.
  - intros Hw1000 Hh1000 pixels. unfold Legacy.get_region. cbn [isNaN orb].
    unfold gt, lt.
    replace (1000 <? w) with false by (symmetry; apply Z.ltb_ge; lia).
    replace (1000 <? h) with false by (symmetry; apply Z.ltb_ge; lia).
    cbn [orb]. rewrite scan_region_spec by lia. split; [reflexivity |].
    subst pixels. unfold array_length.
    rewrite <- (length_rect_coords x y w h) by lia.
    apply inj_le, length_omap_le.
  - intros Hw1000 Hh1000 Harea pixels. unfold App.get_region.
    rewrite (proj2 (isValidCoordinate_spec (Int x)))
      by (exists x; unfold RES; split; [reflexivity | lia]).
    rewrite (proj2 (isValidCoordinate_spec (Int y)))
      by (exists y; unfold RES; split; [reflexivity | lia]).
    rewrite (proj2 (isValidDimension_spec (Int w) 1000)) by (exists w; split; [reflexivity | lia]).
    rewrite (proj2 (isValidDimension_spec (Int h) 1000)) by (exists h; split; [reflexivity | lia]).
    cbn [negb orb mul]. unfold gt, lt.
    replace (10000 <? w * h) with false by (symmetry; apply Z.ltb_ge; lia).
    reflexivity.
Qed.

Lemma region_ledger_complete_backend_stored_only_witness :
  let st := Contract.mkState 1 (<[5 := Contract.mkPixel 255 7 100]> ∅) ∅ ∅ in
  Contract.getRegion st 4 0 2 2 = Contract.Ok [0; 255; 0; 0].
Proof.
  intros st.
  assert (Hin : in_bounds 4 0 2 2) by (unfold in_bounds, Contract.CANVAS_RES; lia).
  destruct (region_ledger_complete_backend_stored_only st empty_listener 4 0 2 2 Hin)
    as (Heq & _).
  rewrite Heq. vm_compute. reflexivity.
Defined.

(** C2, as stated, fails on the backend's handler: with no record stored,
    the region of one pixel at the origin is answered with no entry at
    all, not with one default entry. *)
Lemma region_backend_omits_unset :
  body_field "count" (Legacy.get_region empty_listener (Int 0) (Int 0) (Int 1) (Int 1))
    = Some (JNum 0)
  ∧ ¬ (∃ items,
         body_field "pixels" (Legacy.get_region empty_listener (Int 0) (Int 0) (Int 1) (Int 1))
           = Some (JArr items)
         ∧ array_length items = 1 * 1).
Proof.
  split; [vm_compute; reflexivity |].
  intros (items & Hitems & Hlen).
  vm_compute in Hitems. injection Hitems as <-. discriminate Hlen.
Qed.

Section Ledger.

Lemma bind_Ok_inv {A B} (r : Contract.result A) (k : A → Contract.result B) (b : B) :
  r ≫= k = Contract.Ok b → ∃ a, r = Contract.Ok a ∧ k a = Contract.Ok b.
Proof.
  destruct r as [a | m | c]; cbn [mbind Contract.result_bind]; intros H;
    [exists a; split; [reflexivity | exact H] | discriminate | discriminate].
Qed.

Lemma stored_color_nonzero c : (if c =? 0 then 65793 else c) ≠ 0.
Proof. destruct (c =? 0) eqn:Hc; [discriminate | apply Z.eqb_neq; exact Hc]. Qed.

Lemma placeBatchLoop_no_zero sender t px : ∀ py colors cv emitted cv' evs,
  Contract.placeBatchLoop sender t px py colors cv emitted = Contract.Ok (cv', evs) →
  no_zero_color emitted → no_zero_color evs.
Proof.
  induction px as [| x px IH]; intros py colors cv emitted cv' evs Hrun Hnz.
  - cbn in Hrun. injection Hrun as <- <-. exact Hnz.
  - destruct py as [| y py]; [cbn in Hrun; injection Hrun as <- <-; exact Hnz |].
    destruct colors as [| c colors]; [cbn in Hrun; injection Hrun as <- <-; exact Hnz |].
    cbn [Contract.placeBatchLoop] in Hrun.
    apply bind_Ok_inv in Hrun as ([] & _ & Hrun).
    apply IH in Hrun; [exact Hrun |].
    apply Forall_app. split; [exact Hnz |].
    constructor; [| constructor]. cbn [event_color].
    intros [= H]. exact (stored_color_nonzero c H).
Qed.

End Ledger.

Section Binary.

Lemma u32_high_bits v n : Listener.u32 v → 32 ≤ n → Z.testbit v n = false.
Proof.
  intros [Hlo Hhi] Hn.
  destruct (Z.eq_dec v 0) as [-> | Hnz]; [apply Z.bits_0 |].
  apply Z.bits_above_log2; [exact Hlo |].
  assert (Z.log2 v < 32) by (apply Z.log2_lt_pow2; lia). lia.
Qed.

Lemma byte_bits v k n :
  0 ≤ k → 0 ≤ n →
  Z.testbit (Z.shiftl (Z.land (Z.shiftr v k) 255) k) n
  = Z.testbit v n && (k <=? n) && (n <? k + 8).
Proof.
  intros Hk Hn. rewrite Z.shiftl_spec by lia.
  destruct (Z.leb_spec k n) as [Hle | Hgt].
  - rewrite Z.land_spec, Z.shiftr_spec by lia.
    change 255 with (Z.ones 8). rewrite Z.testbit_ones_nonneg by lia.
    replace (n - k + k) with n by lia.
    destruct (Z.ltb_spec (n - k) 8), (Z.ltb_spec n (k + 8)); try lia;
      rewrite ?andb_true_r, ?andb_false_r; reflexivity.
  - rewrite Z.testbit_neg_r by lia. rewrite andb_false_r. reflexivity.
Qed.

Lemma read_after_write v :
  Listener.u32 v →
  Z.lor (Z.land v 255)
    (Z.lor (Z.shiftl (Z.land (Z.shiftr v 8) 255) 8)
       (Z.lor (Z.shiftl (Z.land (Z.shiftr v 16) 255) 16)
              (Z.shiftl (Z.land (Z.shiftr v 24) 255) 24))) = v.
Proof.
  intros Hv.
  rewrite <- (Z.shiftl_0_r (Z.land v 255)), <- (Z.shiftr_0_r v) at 1.
  apply Z.bits_inj'. intros n Hn.
  rewrite !Z.lor_spec, !byte_bits by lia.
  destruct (Z.testbit v n) eqn:Hbit; [| reflexivity].
  assert (n < 32).
  { destruct (Z_lt_le_dec n 32) as [? | Hge]; [assumption |].
    rewrite (u32_high_bits v n Hv Hge) in Hbit. discriminate. }
  cbn [andb].
  repeat match goal with
         | |- context [?a <=? ?b] => destruct (Z.leb_spec a b)
         | |- context [?a <? ?b] => destruct (Z.ltb_spec a b)
         end; cbn [andb orb]; try reflexivity; lia.
Qed.

Lemma getUint32_written pre v tail off :
  Listener.u32 v → off = length pre →
  BackendApi.getUint32 (pre ++ Listener.writeUInt32LE v ++ tail) off = Some v.
Proof.
  intros Hv ->. unfold BackendApi.getUint32. rewrite drop_app_length.
  cbn [Listener.writeUInt32LE app]. rewrite (read_after_write v Hv). reflexivity.
Qed.

Lemma length_encodePixel p : length (Listener.encodePixel p) = 12%nat.
Proof. reflexivity. Qed.

Lemma length_encoded rs :
  length (flat_map Listener.encodePixel rs) = (12 * length rs)%nat.
Proof.
  rewrite flat_map_constant_length with (c := 12%nat); [lia |].
  intros p _. apply length_encodePixel.
Qed.

Lemma decodeLoop_encoded rs : ∀ pre i,
  length pre = (i * 12)%nat → Forall Listener.wf_pixel rs →
  BackendApi.decodeLoop (pre ++ flat_map Listener.encodePixel rs) i (length rs)
  = Some ((λ p, BackendApi.mkBackendPixelData (px_x p) (px_y p) (px_color p) "" 0) <$> rs).
Proof.
  induction rs as [| p rs IH]; intros pre i Hpre Hwf; [reflexivity |].
  apply Forall_cons in Hwf as [(Hx & Hy & Hc) Hwf].
  set (buffer := pre ++ flat_map Listener.encodePixel (p :: rs)).
  set (tail := flat_map Listener.encodePixel rs).
  assert (Hbuf : buffer
                 = pre ++ Listener.writeUInt32LE (px_x p) ++ Listener.writeUInt32LE (px_y p)
                       ++ Listener.writeUInt32LE (px_color p) ++ tail).
  { subst buffer tail. cbn [flat_map]. unfold Listener.encodePixel at 1.
    rewrite <- !app_assoc. reflexivity. }
  assert (R1 : BackendApi.getUint32 buffer (i * 12) = Some (px_x p)).
  { rewrite Hbuf. apply getUint32_written; [exact Hx | lia]. }
  assert (R2 : BackendApi.getUint32 buffer (i * 12 + 4) = Some (px_y p)).
  { rewrite Hbuf, (app_assoc pre). apply getUint32_written; [exact Hy |].
    rewrite length_app. cbn [Listener.writeUInt32LE length]. lia. }
  assert (R3 : BackendApi.getUint32 buffer (i * 12 + 8) = Some (px_color p)).
  { rewrite Hbuf, (app_assoc pre), (app_assoc (pre ++ _)).
    apply getUint32_written; [exact Hc |].
    rewrite !length_app. cbn [Listener.writeUInt32LE length]. lia. }
  assert (Rrest : BackendApi.decodeLoop buffer (S i) (length rs)
                  = Some ((λ p, BackendApi.mkBackendPixelData (px_x p) (px_y p) (px_color p) "" 0)
                            <$> rs)).
  { rewrite Hbuf, (app_assoc pre), (app_assoc (pre ++ _)), (app_assoc ((pre ++ _) ++ _)).
    apply IH; [| exact Hwf].
    rewrite !length_app. cbn [Listener.writeUInt32LE length]. lia. }
  cbn [length BackendApi.decodeLoop fmap list_fmap].
  rewrite R1. cbn [mbind option_bind]. rewrite R2. cbn [mbind option_bind].
  rewrite R3. cbn [mbind option_bind]. rewrite Rrest. reflexivity.
Qed.

Lemma decodePixels_binaryDump rs :
  Forall Listener.wf_pixel rs →
  BackendApi.decodePixels (flat_map Listener.encodePixel rs)
  = Some ((λ p, BackendApi.mkBackendPixelData (px_x p) (px_y p) (px_color p) "" 0) <$> rs).
Proof.
  intros Hwf. unfold BackendApi.decodePixels. rewrite length_encoded.
  replace ((12 * length rs + 11) `div` 12)%nat with (length rs).
  - apply (decodeLoop_encoded rs [] 0%nat); [reflexivity | exact Hwf].
  - apply Nat.div_unique with (r := 11%nat); lia.
Qed.

End Binary.

(** C4. When the two dumps are taken from one storage whose records have
    u32 fields, the body of the binary route is the concatenation of one
    12-byte record per stored record ([x], [y], [color], each a
    little-endian u32), its X-Pixel-Count header is the body length
    divided by 12 and equals the number of records, and the frontend's
    decoder reads back records whose [(x, y, color)] triples are those of
    the descriptive dump (the pixels of the JSON route). *)
Theorem binary_dump_matches_descriptive_dump
    (st : Listener.storage) (el : EventListener)
    (Hserves : Listener.serves el st)
    (Hwf : Forall Listener.wf_pixel (Listener.values st)) :
  let records := Listener.descriptiveDump st in
  ∃ (bytes : list Z) (decoded : list BackendApi.BackendPixelData),
    payload (App.get_pixels_binary el) = Octets bytes
    ∧ bytes = flat_map Listener.encodePixel records
    ∧ (∀ p, Listener.encodePixel p
            = Listener.writeUInt32LE (px_x p) ++ Listener.writeUInt32LE (px_y p)
                ++ Listener.writeUInt32LE (px_color p)
            ∧ length (Listener.encodePixel p) = 12%nat)
    ∧ (∀ v, Listener.u32 v →
            BackendApi.getUint32 (Listener.writeUInt32LE v) 0 = Some v)
    ∧ header "X-Pixel-Count" (App.get_pixels_binary el)
        = Some (HNumber (array_length bytes # 12))
    ∧ (array_length bytes # 12 == inject_Z (array_length records))%Q
    ∧ body_field "pixels" (App.get_pixels el None None)
        = Some (JArr (pixel_json <$> records))
    ∧ BackendApi.decodePixels bytes = Some decoded
    ∧ decoded_triple <$> decoded = record_triple <$> records
    ∧ (∀ t, t ∈ decoded_triple <$> decoded ↔ t ∈ record_triple <$> records).
Proof.
  intros records. destruct Hserves as [Hbin Harr].
  exists (flat_map Listener.encodePixel records),
         ((λ p, BackendApi.mkBackendPixelData (px_x p) (px_y p) (px_color p) "" 0)
            <$> records).
  assert (Htriples :
            decoded_triple <$>
              ((λ p, BackendApi.mkBackendPixelData (px_x p) (px_y p) (px_color p) "" 0)
                 <$> records)
            = record_triple <$> records).
  { rewrite <- list_fmap_compose. apply list_fmap_ext. intros i p _. reflexivity. }
  split; [unfold App.get_pixels_binary; cbn [payload]; rewrite Hbin; reflexivity |].
  split; [reflexivity |].
  split; [intros p; split; [reflexivity | apply length_encodePixel] |].
  split.
  { intros v Hv. rewrite <- (app_nil_r (Listener.writeUInt32LE v)).
    apply (getUint32_written [] v [] 0%nat Hv eq_refl). }
  split; [unfold header, App.get_pixels_binary; cbn [headers]; rewrite Hbin; reflexivity |].
  split.
  { unfold array_length. rewrite length_encoded.
    unfold Qeq. cbn [Qnum Qden inject_Z]. lia. }
  split; [unfold App.get_pixels; cbn; rewrite Harr; reflexivity |].
  split; [apply decodePixels_binaryDump; exact Hwf |].
  split; [exact Htriples |].
  intros t. rewrite Htriples. tauto.
Qed.

Lemma binary_dump_matches_descriptive_dump_witness :
  let p := mkPixelData 100 200 16711680 "0x1234" 1700000000 in
  let st := Listener.mkStorage {[ "100,200" := p ]} "4250000" 1 in
  ∃ bytes decoded,
    payload (App.get_pixels_binary (listener_of st)) = Octets bytes
    ∧ BackendApi.decodePixels bytes = Some decoded
    ∧ decoded_triple <$> decoded = [(100, 200, 16711680)].
Proof.
  intros p st.
  assert (Hvalues : Listener.values st = [p]).
  { unfold Listener.values, st. cbn [Listener.pixels].
    rewrite map_to_list_singleton. reflexivity. }
  assert (Hserves : Listener.serves (listener_of st) st) by (split; reflexivity).
  assert (Hwf : Forall Listener.wf_pixel (Listener.values st)).
  { rewrite Hvalues. constructor; [| constructor].
    unfold Listener.wf_pixel, Listener.u32. cbn. lia. }
  destruct (binary_dump_matches_descriptive_dump st (listener_of st) Hserves Hwf)
    as (bytes & decoded & Hpay & _ & _ & _ & _ & _ & _ & Hdec & Htr & _).
  exists bytes, decoded.
  split; [exact Hpay |]. split; [exact Hdec |].
  rewrite Htr. unfold Listener.descriptiveDump. rewrite Hvalues. reflexivity.
Defined.

Section RecordCache.

Import Cache.

Lemma put_other (e : entry) (c : gmap Z entry) (k : Z) :
  k ≠ key e → put e c !! k = c !! k.
Proof.
  intros Hk. unfold put.
  destruct (c !! key e) as [s |] eqn:Hs.
  - destruct (position s <? position e); [apply lookup_insert_ne; congruence | reflexivity].
  - apply lookup_insert_ne. congruence.
Qed.

Lemma put_newer (e s : entry) (c : gmap Z entry) :
  c !! key e = Some s → position s < position e → put e c !! key e = Some e.
Proof.
  intros Hs Hlt. unfold put. rewrite Hs.
  replace (position s <? position e) with true by (symmetry; apply Z.ltb_lt; exact Hlt).
  apply lookup_insert_eq.
Qed.

Lemma put_not_newer (e s : entry) (c : gmap Z entry) :
  c !! key e = Some s → position e ≤ position s → put e c = c.
Proof.
  intros Hs Hle. unfold put. rewrite Hs.
  replace (position s <? position e) with false by (symmetry; apply Z.ltb_ge; exact Hle).
  reflexivity.
Qed.

Lemma put_absent (e : entry) (c : gmap Z entry) :
  c !! key e = None → put e c !! key e = Some e.
Proof. intros Hs. unfold put. rewrite Hs. apply lookup_insert_eq. Qed.

Lemma put_changes_iff (e s : entry) (c : gmap Z entry) :
  c !! key e = Some s → (put e c ≠ c ↔ position s < position e).
Proof.
  intros Hs. split.
  - intros Hne. destruct (Z_lt_le_dec (position s) (position e)) as [? | Hle]; [assumption |].
    exfalso. apply Hne. apply (put_not_newer e s c Hs Hle).
  - intros Hlt Heq. pose proof (put_newer e s c Hs Hlt) as Hnew.
    rewrite Heq, Hs in Hnew. injection Hnew as ->. lia.
Qed.

(** After [put e], the key of [e] holds an entry at least as recent. *)
Lemma put_stored (e : entry) (c : gmap Z entry) :
  ∃ s, put e c !! key e = Some s ∧ position e ≤ position s.
Proof.
  destruct (c !! key e) as [s |] eqn:Hs.
  - destruct (Z_lt_le_dec (position s) (position e)) as [Hlt | Hle].
    + exists e. split; [apply (put_newer e s c Hs Hlt) | lia].
    + exists s. rewrite (put_not_newer e s c Hs Hle). split; [exact Hs | exact Hle].
  - exists e. split; [apply (put_absent e c Hs) | lia].
Qed.

Lemma put_idempotent (e : entry) (c : gmap Z entry) : put e (put e c) = put e c.
Proof.
  destruct (put_stored e c) as (s & Hs & Hle).
  apply (put_not_newer e s _ Hs Hle).
Qed.

(** Stored positions never go back. *)
Lemma put_monotone (e s : entry) (c : gmap Z entry) (k : Z) :
  c !! k = Some s → ∃ s', put e c !! k = Some s' ∧ position s ≤ position s'.
Proof.
  intros Hs. destruct (decide (k = key e)) as [-> | Hk].
  - destruct (Z_lt_le_dec (position s) (position e)) as [Hlt | Hle].
    + exists e. split; [apply (put_newer e s c Hs Hlt) | lia].
    + exists s. rewrite (put_not_newer e s c Hs Hle). split; [exact Hs | lia].
  - exists s. rewrite put_other by exact Hk. split; [exact Hs | lia].
Qed.

Lemma apply_all_monotone (l : list entry) : ∀ (c : gmap Z entry) (s : entry) (k : Z),
  c !! k = Some s → ∃ s', apply_all l c !! k = Some s' ∧ position s ≤ position s'.
Proof.
  induction l as [| e l IH]; intros c s k Hs.
  - exists s. split; [exact Hs | lia].
  - destruct (put_monotone e s c k Hs) as (s1 & Hs1 & Hle1).
    destruct (IH (put e c) s1 k Hs1) as (s2 & Hs2 & Hle2).
    exists s2. split; [exact Hs2 | lia].
Qed.

Lemma duplicate_is_noop (e : entry) (l : list entry) (c : gmap Z entry) :
  put e (apply_all l (put e c)) = apply_all l (put e c).
Proof.
  destruct (put_stored e c) as (s & Hs & Hle).
  destruct (apply_all_monotone l (put e c) s (key e) Hs) as (s' & Hs' & Hle').
  apply (put_not_newer e s' _ Hs'). lia.
Qed.

Lemma apply_all_keeps_top (top : entry) (l : list entry) : ∀ c : gmap Z entry,
  newest_in top (key top) l → c !! key top = Some top →
  apply_all l c !! key top = Some top.
Proof.
  induction l as [| e l IH]; intros c Hnew Hc; [exact Hc |].
  cbn [apply_all foldl]. apply IH.
  - intros e' He'. apply Hnew. right. exact He'.
  - destruct (decide (key top = key e)) as [Hk | Hk].
    + destruct (Hnew e (ltac:(left)) (eq_sym Hk)) as [Hle _].
      rewrite Hk in Hc. rewrite (put_not_newer e top c Hc Hle). rewrite <- Hk in Hc. exact Hc.
    + rewrite put_other by exact Hk. exact Hc.
Qed.

Lemma apply_all_reaches_top (top : entry) (l : list entry) : ∀ c : gmap Z entry,
  newest_in top (key top) l → top ∈ l →
  (∀ s, c !! key top = Some s → position s < position top) →
  apply_all l c !! key top = Some top.
Proof.
  induction l as [| e l IH]; intros c Hnew Hin Hc; [inversion Hin |].
  assert (Hnew' : newest_in top (key top) l).
  { intros e' He'. apply Hnew. right. exact He'. }
  cbn [apply_all foldl].
  destruct (decide (e = top)) as [-> | Hne].
  - apply apply_all_keeps_top; [exact Hnew' |].
    destruct (c !! key top) as [s |] eqn:Hs.
    + apply (put_newer top s c Hs). apply Hc. reflexivity.
    + apply (put_absent top c Hs).
  - apply elem_of_cons in Hin as [Heq | Hin]; [congruence |].
    apply IH; [exact Hnew' | exact Hin |].
    intros s Hs. destruct (decide (key top = key e)) as [Hk | Hk].
    + destruct (Hnew e (ltac:(left)) (eq_sym Hk)) as [Hle Huniq].
      assert (position e < position top).
      { destruct (Z.eq_dec (position e) (position top)) as [Heq | ?]; [| lia].
        exfalso. apply Hne. apply Huniq. exact Heq. }
      rewrite Hk in Hs, Hc. unfold put in Hs.
      destruct (c !! key e) as [s0 |] eqn:Hs0.
      * destruct (position s0 <? position e).
        -- rewrite lookup_insert_eq in Hs. injection Hs as <-. assumption.
        -- rewrite Hs0 in Hs. injection Hs as <-. apply Hc. reflexivity.
      * rewrite lookup_insert_eq in Hs. injection Hs as <-. assumption.
    + rewrite put_other in Hs by exact Hk. apply Hc. exact Hs.
Qed.

End RecordCache.

(** C1. [put] changes the record stored for the entry's key exactly when
    the entry's position is strictly greater than the stored one (a key
    without a record takes the entry, other keys are untouched); applying
    an entry again, at once or after any later entries, changes nothing;
    and when the entries of one key are three entries at positions
    [p1 < p2 < p3], in whatever order they arrive and interleaved with
    entries of other keys, the cache ends with the record of [p3]. *)
Theorem put_is_last_write_wins_by_position
    (c : gmap Z Cache.entry) (e1 e2 e3 : Cache.entry) (l : list Cache.entry)
    (Hk1 : Cache.key e1 = Cache.key e3) (Hk2 : Cache.key e2 = Cache.key e3)
    (Hp12 : Cache.position e1 < Cache.position e2)
    (Hp23 : Cache.position e2 < Cache.position e3)
    (Hlog : filter (λ e, Cache.key e = Cache.key e3) l ≡ₚ [e1; e2; e3])
    (Hold : ∀ s, c !! Cache.key e3 = Some s → Cache.position s < Cache.position e3) :
  (∀ e s (c' : gmap Z Cache.entry), c' !! Cache.key e = Some s →
     (Cache.put e c' ≠ c' ↔ Cache.position s < Cache.position e))
  ∧ (∀ e (c' : gmap Z Cache.entry), c' !! Cache.key e = None →
       Cache.put e c' !! Cache.key e = Some e)
  ∧ (∀ e (c' : gmap Z Cache.entry) k, k ≠ Cache.key e → Cache.put e c' !! k = c' !! k)
  ∧ (∀ e (c' : gmap Z Cache.entry), Cache.put e (Cache.put e c') = Cache.put e c')
  ∧ (∀ e l' (c' : gmap Z Cache.entry),
       Cache.put e (Cache.apply_all l' (Cache.put e c'))
       = Cache.apply_all l' (Cache.put e c'))
  ∧ Cache.apply_all l c !! Cache.key e3 = Some e3
  ∧ Cache.get (Cache.key e3) (Cache.apply_all l c) = Some (Cache.normalize e3).
Proof.
  split; [intros e s c'; apply put_changes_iff |].
  split; [intros e c'; apply put_absent |].
  split; [intros e c' k; apply put_other |].
  split; [intros e c'; apply put_idempotent |].
  split; [intros e l' c'; apply duplicate_is_noop |].
  assert (Hfinal : Cache.apply_all l c !! Cache.key e3 = Some e3).
  { apply apply_all_reaches_top; [| | exact Hold].
    - intros e He Hk.
      assert (Hin : e ∈ [e1; e2; e3]).
      { rewrite <- Hlog. apply list_elem_of_filter. split; [exact Hk | exact He]. }
      rewrite !elem_of_cons in Hin.
      destruct Hin as [-> | [-> | [-> | Hnil]]]; [| | | inversion Hnil].
      + split; [lia | intros; lia].
      + split; [lia | intros; lia].
      + split; [lia | reflexivity].
    - assert (Hin : e3 ∈ filter (λ e, Cache.key e = Cache.key e3) l).
      { rewrite Hlog. rewrite !elem_of_cons. auto. }
      apply list_elem_of_filter in Hin as [_ Hin]. exact Hin. }
  split; [exact Hfinal |].
  unfold Cache.get. rewrite Hfinal. reflexivity.
Qed.

Lemma put_is_last_write_wins_by_position_witness :
  let e1 := Cache.mkEntry "0xa" 0 0 16711680 100 10 in
  let e2 := Cache.mkEntry "0xb" 0 0 65280 101 11 in
  let e3 := Cache.mkEntry "0xc" 0 0 255 102 12 in
  let other := Cache.mkEntry "0xd" 5 5 1 103 13 in
  Cache.get 0 (Cache.apply_all [e3; other; e1; e2] ∅)
    = Some (mkPixelData 0 0 255 "0xc" 102).
Proof.
  intros e1 e2 e3 other.
  assert (Hlog : filter (λ e, Cache.key e = Cache.key e3) [e3; other; e1; e2]
                 ≡ₚ [e1; e2; e3]).
  { change (filter (λ e, Cache.key e = Cache.key e3) [e3; other; e1; e2])
      with [e3; e1; e2].
    rewrite (Permutation_cons_append [e1; e2] e3). reflexivity. }
  destruct (put_is_last_write_wins_by_position ∅ e1 e2 e3 [e3; other; e1; e2]
              eq_refl eq_refl ltac:(cbn; lia) ltac:(cbn; lia) Hlog
              ltac:(intros s Hs; rewrite lookup_empty in Hs; discriminate))
    as (_ & _ & _ & _ & _ & _ & Hget).
  exact Hget.
Defined.

Section PushStream.

Import Stream.

Lemma write_lookup c c' m (out : gmap nat (list sse)) :
  write c m out !! c'
  = if decide (c = c') then Some (default [] (out !! c) ++ [m]) else out !! c'.
Proof. unfold write. apply lookup_insert. Qed.

Lemma publish_written m (cbs : list nat) : ∀ (out : gmap nat (list sse)) (c : nat),
  NoDup cbs →
  foldl (λ out c', write c' m out) out cbs !! c
  = if decide (c ∈ cbs) then Some (default [] (out !! c) ++ [m]) else out !! c.
Proof.
  induction cbs as [| c0 cbs IH]; intros out c Hnd.
  - cbn [foldl]. destruct (decide (c ∈ [])) as [Hin | _]; [inversion Hin | reflexivity].
  - apply NoDup_cons in Hnd as [Hc0 Hnd]. cbn [foldl]. rewrite IH by exact Hnd.
    rewrite write_lookup.
    destruct (decide (c ∈ cbs)) as [Hin | Hnin].
    + destruct (decide (c0 = c)) as [-> | _]; [contradiction |].
      destruct (decide (c ∈ c0 :: cbs)) as [_ | Hn]; [reflexivity |].
      exfalso. apply Hn. right. exact Hin.
    + destruct (decide (c0 = c)) as [-> | Hne].
      * destruct (decide (c ∈ c :: cbs)) as [_ | Hn]; [reflexivity |].
        exfalso. apply Hn. left.
      * destruct (decide (c ∈ c0 :: cbs)) as [Hin | _]; [| reflexivity].
        apply elem_of_cons in Hin as [-> | Hin]; contradiction.
Qed.

Lemma stream_inv_init : stream_inv init.
Proof.
  repeat split.
  - constructor.
  - intros c Hc. inversion Hc.
  - intros c Hc. inversion Hc.
Qed.

Lemma stream_inv_step (s : server) (a : action) : stream_inv s → stream_inv (step s a).
Proof.
  intros (Hnd & Hcb & Hiv & Hfresh).
  destruct a as [| p | c now | c]; cbn [step].
  - unfold connect. repeat split; cbn [callbacks intervals written connections].
    + apply NoDup_app. split; [exact Hnd |]. split; [| apply NoDup_singleton].
      intros c Hc Hc'. apply list_elem_of_singleton in Hc'. subst c.
      apply Hcb in Hc. lia.
    + intros c Hc. apply elem_of_app in Hc as [Hc | Hc].
      * apply Hcb in Hc. lia.
      * apply list_elem_of_singleton in Hc. lia.
    + intros c Hc. apply elem_of_app in Hc as [Hc | Hc].
      * apply Hiv in Hc. lia.
      * apply list_elem_of_singleton in Hc. lia.
    + intros c Hc. rewrite write_lookup.
      destruct (decide (connections s = c)); [lia | apply Hfresh; lia].
  - unfold publish. repeat split; cbn [callbacks intervals written connections];
      [exact Hnd | exact Hcb | exact Hiv |].
    intros c Hc. rewrite publish_written by exact Hnd.
    destruct (decide (c ∈ callbacks s)) as [Hin | _]; [| apply Hfresh; exact Hc].
    apply Hcb in Hin. lia.
  - unfold tick. destruct (bool_decide (c ∈ intervals s)) eqn:Hin;
      [| repeat split; assumption].
    apply bool_decide_eq_true in Hin.
    repeat split; cbn [callbacks intervals written connections];
      [exact Hnd | exact Hcb | exact Hiv |].
    intros c' Hc'. rewrite write_lookup.
    destruct (decide (c = c')) as [-> | _]; [| apply Hfresh; exact Hc'].
    apply Hiv in Hin. lia.
  - unfold close. repeat split; cbn [callbacks intervals written connections].
    + apply NoDup_filter. exact Hnd.
    + intros c' Hc'. apply list_elem_of_filter in Hc' as [_ Hc']. apply Hcb. exact Hc'.
    + intros c' Hc'. apply list_elem_of_filter in Hc' as [_ Hc']. apply Hiv. exact Hc'.
    + exact Hfresh.
Qed.

Lemma stream_inv_run (tr : list action) : ∀ s, stream_inv s → stream_inv (run tr s).
Proof.
  induction tr as [| a tr IH]; intros s Hs; [exact Hs |].
  cbn [run foldl]. apply IH, stream_inv_step, Hs.
Qed.

(** A connection that is neither registered nor ticking is written no
    more. *)
Lemma run_closed (c : nat) (tr : list action) : ∀ s,
  stream_inv s → (c < connections s)%nat →
  c ∉ callbacks s → c ∉ intervals s →
  written (run tr s) !! c = written s !! c.
Proof.
  induction tr as [| a tr IH]; intros s Hinv Hlt Hcb Hiv; [reflexivity |].
  change (run (a :: tr) s) with (run tr (step s a)).
  assert (Hstep : (written (step s a) !! c = written s !! c)
                  ∧ (c < connections (step s a))%nat
                  ∧ (c ∉ callbacks (step s a)) ∧ (c ∉ intervals (step s a))).
  { destruct a as [| p | c' now | c']; cbn [step].
    - unfold connect. cbn [callbacks intervals written connections].
      rewrite write_lookup. destruct (decide (connections s = c)); [lia |].
      repeat split; [lia | |]; intros Hin; apply elem_of_app in Hin as [Hin | Hin];
        try contradiction; apply list_elem_of_singleton in Hin; lia.
    - unfold publish. cbn [callbacks intervals written connections].
      destruct Hinv as (Hnd & _). rewrite publish_written by exact Hnd.
      destruct (decide (c ∈ callbacks s)); [contradiction |]. repeat split; assumption.
    - unfold tick. destruct (bool_decide (c' ∈ intervals s)) eqn:Hin;
        [| repeat split; assumption].
      apply bool_decide_eq_true in Hin. cbn [callbacks intervals written connections].
      rewrite write_lookup. destruct (decide (c' = c)) as [-> | _]; [contradiction |].
      repeat split; assumption.
    - unfold close. cbn [callbacks intervals written connections].
      repeat split; [exact Hlt | |]; intros Hin;
        apply list_elem_of_filter in Hin as [_ Hin]; contradiction. }
  destruct Hstep as (Hw & Hlt' & Hcb' & Hiv').
  rewrite (IH (step s a) (stream_inv_step s a Hinv) Hlt' Hcb' Hiv'). exact Hw.
Qed.

(** A connection that is registered and ticking receives the deliveries
    of what follows. *)
Lemma run_open (c : nat) (tr : list action) : ∀ s,
  stream_inv s → c ∈ callbacks s → c ∈ intervals s →
  received c (run tr s) = received c s ++ deliveries c tr.
Proof.
  induction tr as [| a tr IH]; intros s Hinv Hcb Hiv.
  - cbn [run foldl deliveries]. rewrite app_nil_r. reflexivity.
  - change (run (a :: tr) s) with (run tr (step s a)).
    pose proof (stream_inv_step s a Hinv) as Hinv'.
    pose proof Hinv as (Hnd & Hlt & _ & _).
    destruct a as [| p | c' now | c']; cbn [step deliveries] in *.
    + rewrite IH; [| exact Hinv' | |].
      * unfold received, connect. cbn [written]. rewrite write_lookup.
        destruct (decide (connections s = c)) as [<- | _]; [| reflexivity].
        apply Hlt in Hcb. lia.
      * apply elem_of_app. left. exact Hcb.
      * apply elem_of_app. left. exact Hiv.
    + rewrite IH; [| exact Hinv' | exact Hcb | exact Hiv].
      unfold received at 1. unfold publish. cbn [written].
      rewrite publish_written by exact Hnd.
      destruct (decide (c ∈ callbacks s)); [| contradiction].
      unfold received, default. cbn [from_option id]. rewrite <- app_assoc. reflexivity.
    + unfold tick in *. destruct (bool_decide (c' ∈ intervals s)) eqn:Hin.
      * rewrite IH; [| exact Hinv' | exact Hcb | exact Hiv].
        unfold received at 1. cbn [written]. rewrite write_lookup.
        destruct (decide (c' = c)) as [-> | _].
        -- unfold received, default. cbn [from_option id]. rewrite <- app_assoc. reflexivity.
        -- reflexivity.
      * rewrite IH; [| exact Hinv' | exact Hcb | exact Hiv].
        destruct (decide (c' = c)) as [-> | _]; [| reflexivity].
        apply bool_decide_eq_false in Hin. contradiction.
    + destruct (decide (c' = c)) as [-> | Hne].
      * unfold received. rewrite run_closed; [rewrite app_nil_r; reflexivity | exact Hinv' | | |].
        -- apply Hlt in Hcb. exact Hcb.
        -- unfold close. cbn [callbacks]. intros Hin.
           apply list_elem_of_filter in Hin as [Hin _]. congruence.
        -- unfold close. cbn [intervals]. intros Hin.
           apply list_elem_of_filter in Hin as [Hin _]. congruence.
      * rewrite IH; [reflexivity | exact Hinv' | |].
        -- unfold close. cbn [callbacks]. apply list_elem_of_filter. split; [congruence | exact Hcb].
        -- unfold close. cbn [intervals]. apply list_elem_of_filter. split; [congruence | exact Hiv].
Qed.

Lemma pixel_json_inj (p q : PixelData) : pixel_json p = pixel_json q → p = q.
Proof.
  destruct p, q. unfold pixel_json. cbn [px_x px_y px_color px_placedBy px_timestamp].
  intros H. injection H as -> -> -> -> ->. reflexivity.
Qed.

Lemma deliveries_from_trace (c : nat) (tr : list action) (m : sse) :
  m ∈ deliveries c tr →
  (∃ p, m = pixel p ∧ Publish p ∈ tr) ∨ (∃ now, m = heartbeat now ∧ Tick c now ∈ tr).
Proof.
  induction tr as [| a tr IH]; cbn [deliveries]; intros Hm; [inversion Hm |].
  assert (Hrest : m ∈ deliveries c tr →
                  (∃ p, m = pixel p ∧ Publish p ∈ a :: tr)
                  ∨ (∃ now, m = heartbeat now ∧ Tick c now ∈ a :: tr)).
  { intros H. destruct (IH H) as [(p & ? & ?) | (now & ? & ?)].
    - left. exists p. split; [assumption | right; assumption].
    - right. exists now. split; [assumption | right; assumption]. }
  destruct a as [| p | c' now | c'].
  - apply Hrest, Hm.
  - apply elem_of_cons in Hm as [-> | Hm]; [| apply Hrest, Hm].
    left. exists p. split; [reflexivity | left].
  - destruct (decide (c' = c)) as [-> | _]; [| apply Hrest, Hm].
    apply elem_of_cons in Hm as [-> | Hm]; [| apply Hrest, Hm].
    right. exists now. split; [reflexivity | left].
  - destruct (decide (c' = c)); [inversion Hm | apply Hrest, Hm].
Qed.

End PushStream.

(** C8. A connection to the push stream is written, first and once, the
    "connected" acknowledgment; after it, one record event (named
    [pixel] on the wire, its data the JSON of the record) for every
    record published while the connection is open, and one heartbeat for
    every firing of its 30 s interval, in their order and up to its
    close.  Nothing published before the connection was made reaches it. *)
Theorem stream_acknowledges_then_relays_published (before after : list Stream.action) :
  let c := Stream.connections (Stream.run before Stream.init) in
  let s := Stream.run (before ++ Stream.Connect :: after) Stream.init in
  received c (Stream.run before Stream.init) = []
  ∧ received c s = Stream.connected :: Stream.deliveries c after
  ∧ (Stream.connected ∉ Stream.deliveries c after)
  ∧ (∀ p, Stream.pixel p ∈ received c s → Stream.Publish p ∈ after)
  ∧ (∀ p rest, after = Stream.Publish p :: rest →
       ∃ more, received c s
               = [Stream.connected; Stream.mkSse "pixel" (pixel_json p)] ++ more).
Proof.
  intros c s.
  pose proof (stream_inv_run before Stream.init stream_inv_init) as Hinv0.
  set (s0 := Stream.run before Stream.init) in *.
  assert (Hfresh : Stream.written s0 !! c = None).
  { destruct Hinv0 as (_ & _ & _ & Hfresh). apply Hfresh. subst c. lia. }
  assert (Hs : s = Stream.run after (Stream.connect s0)).
  { subst s s0. unfold Stream.run. rewrite foldl_app. reflexivity. }
  assert (Hrecv : received c s = Stream.connected :: Stream.deliveries c after).
  { rewrite Hs, run_open.
    - unfold received, Stream.connect. cbn [Stream.written].
      rewrite write_lookup. fold c. destruct (decide (c = c)); [| contradiction].
      rewrite Hfresh. reflexivity.
    - apply (stream_inv_step s0 Stream.Connect Hinv0).
    - unfold Stream.connect. cbn [Stream.callbacks]. apply elem_of_app. right. left.
    - unfold Stream.connect. cbn [Stream.intervals]. apply elem_of_app. right. left. }
  split; [unfold received; rewrite Hfresh; reflexivity |].
  split; [exact Hrecv |].
  split.
  { intros Hin. apply deliveries_from_trace in Hin as [(p & Hp & _) | (now & Hn & _)];
      discriminate. }
  split.
  - intros p Hin. rewrite Hrecv in Hin.
    apply elem_of_cons in Hin as [Heq | Hin]; [discriminate |].
    apply deliveries_from_trace in Hin as [(p' & Hp & Hin) | (now & Hn & _)];
      [| discriminate].
    assert (p = p') as ->; [| exact Hin].
    apply pixel_json_inj. unfold Stream.pixel in Hp. congruence.
  - intros p rest ->. rewrite Hrecv. cbn [Stream.deliveries].
    exists (Stream.deliveries c rest). reflexivity.
Qed.

(** * Concrete runs of the embedded code *)
Section Runs.

Example point_lookup_last_valid :
  status (App.get_pixel stored (Int 1048575) (Int 0)) = 404.
Proof. vm_compute. reflexivity. Qed.

Example point_lookup_first_invalid :
  status (App.get_pixel stored (Int 1048576) (Int 0)) = 400
  ∧ status (App.get_pixel stored NaN (Int 0)) = 400
  ∧ status (App.get_pixel stored (Int (-1)) (Int 0)) = 400.
Proof. vm_compute. repeat split. Qed.

Example parseInt_reads_the_head :
  parseInt (codeUnits "12abc") = Int 12
  ∧ parseInt (codeUnits "1.5") = Int 1
  ∧ parseInt (codeUnits "  -7") = Int (-7)
  ∧ parseInt (codeUnits "0x1F") = Int 31
  ∧ parseInt (codeUnits "abc") = NaN
  ∧ parseInt (codeUnits "9007199254740993") = Int 9007199254740992.
Proof. vm_compute. repeat split. Qed.

Example point_lookup_by_request :
  status (App.pixel_route stored (codeUnits "1048575") (codeUnits "0")) = 404
  ∧ status (App.pixel_route stored (codeUnits "1048576") (codeUnits "0")) = 400
  ∧ status (App.pixel_route stored (codeUnits "x") (codeUnits "0")) = 400
  ∧ status (App.pixel_route stored (codeUnits "0x0") (codeUnits "0")) = 200.
Proof. vm_compute. repeat split. Qed.

Example point_lookup_found :
  body_field "pixel" (App.get_pixel stored (Int 0) (Int 0)) = Some (pixel_json red).
Proof. vm_compute. reflexivity. Qed.

Example region_area_limit :
  status (App.get_region stored (Int 0) (Int 0) (Int 100) (Int 100)) = 200
  ∧ status (App.get_region stored (Int 0) (Int 0) (Int 101) (Int 100)) = 400
  ∧ status (App.get_region stored (Int 0) (Int 0) (Int 1001) (Int 1)) = 400
  ∧ status (App.get_region stored (Int 0) (Int 0) (Int 0) (Int 1)) = 400.
Proof. vm_compute. repeat split. Qed.

Example legacy_region_stored_only :
  body_field "pixels" (Legacy.get_region stored (Int 0) (Int 0) (Int 2) (Int 2))
  = Some (JArr [pixel_json red]).
Proof. vm_compute. reflexivity. Qed.

Example ledger_keeps_other_colors :
  ∃ st', Contract.placePixel (Contract.mkState 1 ∅ ∅ ∅) (Contract.mkEnv 7 100) 3 4 65280
         = Contract.Ok (st', [Contract.PixelPlaced 7 3 4 65280 100]).
Proof. eexists. vm_compute. reflexivity. Qed.

Example ledger_rate_limit :
  Contract.placePixel (Contract.mkState 1 ∅ {[ 7 := 95 ]} ∅) (Contract.mkEnv 7 100) 3 4 65280
  = Contract.Revert "Megaplace: rate limit exceeded".
Proof. vm_compute. reflexivity. Qed.

Example ledger_region_out_of_bounds :
  Contract.getRegion (Contract.mkState 1 ∅ ∅ ∅) 1048575 0 2 1
  = Contract.Revert "Megaplace: region out of bounds".
Proof. vm_compute. reflexivity. Qed.

Example cache_scenario_backfill :
  Cache.get 0
    (Cache.apply_all [Cache.mkEntry "0xa" 0 0 16711680 1 10;
                      Cache.mkEntry "0xb" 0 0 65280 2 11] ∅)
  = Some (mkPixelData 0 0 65280 "0xb" 2).
Proof. vm_compute. reflexivity. Qed.

Example stream_scenario_late_subscriber :
  let p := mkPixelData 5 5 255 "0xa" 1 in
  let s := Stream.run [Stream.Connect; Stream.Publish p; Stream.Connect] Stream.init in
  received 0 s = [Stream.connected; Stream.pixel p]
  ∧ received 1 s = [Stream.connected].
Proof. vm_compute. split; reflexivity. Qed.

Example decoder_rejects_truncated_body :
  BackendApi.decodePixels [1; 0; 0; 0; 2; 0; 0; 0; 3; 0; 0; 0; 9] = None.
Proof. vm_compute. reflexivity. Qed.

End Runs.

(** * Further properties of the ledger *)
Section LedgerMore.

Import Contract.

Lemma require_Ok (cond : bool) (reason : string) (u : unit) :
  require cond reason = Ok u → cond = true.
Proof. unfold require. destruct cond; [reflexivity | discriminate]. Qed.

Lemma valid_coords_iff (px py : Z) :
  (px <? CANVAS_RES) && (py <? CANVAS_RES) = true ↔ px < CANVAS_RES ∧ py < CANVAS_RES.
Proof. rewrite andb_true_iff, !Z.ltb_lt. reflexivity. Qed.

Lemma canvasIndex_small (px py : Z) :
  0 ≤ px < CANVAS_RES → 0 ≤ py < CANVAS_RES → canvasIndex px py = px + py * CANVAS_RES.
Proof.
  intros Hx Hy. unfold canvasIndex, uint256, CANVAS_RES in *.
  apply Z.mod_small. split; [lia |].
  assert (1048576 * 1048577 < 2 ^ 256) by (vm_compute; reflexivity). lia.
Qed.

Lemma canvasIndex_eq_inv (px py qx qy : Z) :
  0 ≤ px < CANVAS_RES → 0 ≤ py < CANVAS_RES →
  0 ≤ qx < CANVAS_RES → 0 ≤ qy < CANVAS_RES →
  canvasIndex px py = canvasIndex qx qy → px = qx ∧ py = qy.
Proof.
  intros Hpx Hpy Hqx Hqy Hsame.
  rewrite !canvasIndex_small in Hsame by assumption.
  unfold CANVAS_RES in *. lia.
Qed.

(** X1. Two coordinate pairs of the canvas have the same storage index
    only if they are the same pair, and the index of a pair is below
    2^40, so the unchecked [px + py * CANVAS_RES] never wraps. *)
Theorem canvasIndex_injective (px py qx qy : Z)
    (Hpx : 0 ≤ px < CANVAS_RES) (Hpy : 0 ≤ py < CANVAS_RES)
    (Hqx : 0 ≤ qx < CANVAS_RES) (Hqy : 0 ≤ qy < CANVAS_RES) :
  (canvasIndex px py = canvasIndex qx qy ↔ px = qx ∧ py = qy)
  ∧ canvasIndex px py = px + py * CANVAS_RES
  ∧ 0 ≤ canvasIndex px py < 2 ^ 40.
Proof.
  split; [split |].
  - apply canvasIndex_eq_inv; assumption.
  - intros [-> ->]. reflexivity.
  - rewrite canvasIndex_small by assumption. unfold CANVAS_RES in *. split; [reflexivity | lia].
Qed.

Lemma canvasIndex_injective_witness :
  canvasIndex 1048575 1048575 = 1099511627775 ∧ canvasIndex 3 4 ≠ canvasIndex 4 3.
Proof.
  assert (Hmax : 0 ≤ 1048575 < CANVAS_RES) by (unfold CANVAS_RES; lia).
  assert (H0 : 0 ≤ 0 < CANVAS_RES) by (unfold CANVAS_RES; lia).
  assert (H3 : 0 ≤ 3 < CANVAS_RES) by (unfold CANVAS_RES; lia).
  assert (H4 : 0 ≤ 4 < CANVAS_RES) by (unfold CANVAS_RES; lia).
  split.
  - destruct (canvasIndex_injective 1048575 1048575 0 0 Hmax Hmax H0 H0) as (_ & Hval & _).
    rewrite Hval. reflexivity.
  - destruct (canvasIndex_injective 3 4 4 3 H3 H4 H4 H3) as (Hiff & _).
    intros Heq. apply Hiff in Heq. lia.
Defined.

Lemma placePixel_Ok_inv st e px py c st' evs :
  placePixel st e px py c = Ok (st', evs) →
  (px < CANVAS_RES ∧ py < CANVAS_RES)
  ∧ rateLimit st e (uint64 (block_timestamp e)) = Ok tt
  ∧ st' = mkState (owner st)
            (<[canvasIndex px py :=
                 mkPixel (if c =? 0 then 65793 else c) (msg_sender e)
                         (uint64 (block_timestamp e))]> (canvas st))
            (<[msg_sender e := uint64 (block_timestamp e)]> (lastPlaced st))
            (premiumAccess st)
  ∧ evs = [PixelPlaced (msg_sender e) px py (if c =? 0 then 65793 else c)
             (uint64 (block_timestamp e))].
Proof.
  unfold placePixel. intros H.
  apply bind_Ok_inv in H as ([] & Hreq & H).
  apply bind_Ok_inv in H as ([] & Hrate & H).
  apply require_Ok, valid_coords_iff in Hreq.
  destruct Hreq. injection H as <- <-. repeat split; assumption.
Qed.

Lemma placePixel_accepts st e px py c :
  px < CANVAS_RES → py < CANVAS_RES →
  rateLimit st e (uint64 (block_timestamp e)) = Ok tt →
  ∃ st' evs, placePixel st e px py c = Ok (st', evs).
Proof.
  intros Hx Hy Hrate. unfold placePixel.
  rewrite (proj2 (valid_coords_iff px py) (conj Hx Hy)).
  cbn [require mbind result_bind]. rewrite Hrate. cbn [mbind result_bind].
  eexists _, _. reflexivity.
Qed.

(** X2. After an accepted placePixel, getPixel at the same coordinates
    returns the stored color (0x010101 for color 0), the sender and the
    block time, and getPixel at every other coordinate of the canvas
    returns what it returned before. *)
Theorem placePixel_then_getPixel
    (st st' : state) (e : env) (px py c : Z) (evs : list event)
    (Hx : 0 ≤ px) (Hy : 0 ≤ py)
    (Haccepted : placePixel st e px py c = Ok (st', evs)) :
  getPixel st' px py
    = Ok (if c =? 0 then 65793 else c, msg_sender e, uint64 (block_timestamp e))
  ∧ (∀ qx qy, 0 ≤ qx < CANVAS_RES → 0 ≤ qy < CANVAS_RES →
       (qx, qy) ≠ (px, py) → getPixel st' qx qy = getPixel st qx qy).
Proof.
  apply placePixel_Ok_inv in Haccepted as ((Hx' & Hy') & _ & -> & _).
  split.
  - unfold getPixel. rewrite (proj2 (valid_coords_iff px py) (conj Hx' Hy')).
    cbn [require mbind result_bind]. unfold canvas_at. cbn [canvas].
    rewrite lookup_insert_eq. reflexivity.
  - intros qx qy Hqx Hqy Hne. unfold getPixel.
    destruct ((qx <? CANVAS_RES) && (qy <? CANVAS_RES)); [| reflexivity].
    cbn [require mbind result_bind]. unfold canvas_at. cbn [canvas].
    rewrite lookup_insert_ne; [reflexivity |].
    intros Hidx. apply Hne.
    destruct (canvasIndex_eq_inv px py qx qy) as [-> ->]; auto; lia.
Qed.

Lemma placePixel_then_getPixel_witness :
  match placePixel (mkState 1 ∅ ∅ ∅) (mkEnv 7 100) 3 4 0 with
  | Ok (st', _) => getPixel st' 3 4 = Ok (65793, 7, 100) ∧ getPixel st' 4 3 = Ok (0, 0, 0)
  | _ => False
  end.
Proof.
  destruct (placePixel (mkState 1 ∅ ∅ ∅) (mkEnv 7 100) 3 4 0) as [[st' evs] | m | c] eqn:Hrun;
    [| vm_compute in Hrun; discriminate | vm_compute in Hrun; discriminate].
  destruct (placePixel_then_getPixel _ st' _ 3 4 0 evs ltac:(lia) ltac:(lia) Hrun)
    as [Hsame Hother].
  split; [exact Hsame |].
  rewrite (Hother 4 3); [reflexivity | unfold CANVAS_RES; lia | unfold CANVAS_RES; lia |].
  intros Heq. discriminate Heq.
Defined.

(** X3. placePixel and getPixel revert with "Megaplace: invalid
    coordinates" exactly when [px] or [py] is not below CANVAS_RES,
    whatever the state, the caller and the time. *)
Theorem invalid_coordinates_revert_iff (st : state) (e : env) (px py c : Z) :
  (placePixel st e px py c = Revert "Megaplace: invalid coordinates"
     ↔ ¬ (px < CANVAS_RES ∧ py < CANVAS_RES))
  ∧ (getPixel st px py = Revert "Megaplace: invalid coordinates"
       ↔ ¬ (px < CANVAS_RES ∧ py < CANVAS_RES)).
Proof.
  unfold placePixel, getPixel.
  destruct ((px <? CANVAS_RES) && (py <? CANVAS_RES)) eqn:Hv;
    cbn [require mbind result_bind].
  - apply valid_coords_iff in Hv. split; (split; [| tauto]).
    + unfold rateLimit, checked_add, require.
      destruct (premiumAccess_at st (msg_sender e) <? uint64 (block_timestamp e));
        cbn [mbind result_bind]; [| discriminate].
      destruct (lastPlaced_at st (msg_sender e) + 15 <? 2 ^ 64);
        cbn [mbind result_bind]; [| discriminate].
      destruct (lastPlaced_at st (msg_sender e) + 15 <=? uint64 (block_timestamp e));
        cbn [mbind result_bind]; discriminate.
    + discriminate.
  - assert (¬ (px < CANVAS_RES ∧ py < CANVAS_RES)).
    { rewrite <- valid_coords_iff. congruence. }
    split; (split; [intros _; assumption | reflexivity]).
Qed.

End LedgerMore.

Section LedgerLimits.

Import Contract.

Lemma rateLimit_Ok_iff st e t :
  rateLimit st e t = Ok tt
  ↔ t ≤ premiumAccess_at st (msg_sender e)
    ∨ (lastPlaced_at st (msg_sender e) + 15 < 2 ^ 64
       ∧ lastPlaced_at st (msg_sender e) + 15 ≤ t).
Proof.
  unfold rateLimit, checked_add, require.
  destruct (Z.ltb_spec (premiumAccess_at st (msg_sender e)) t) as [Hp | Hp].
  - destruct (Z.ltb_spec (lastPlaced_at st (msg_sender e) + 15) (2 ^ 64)) as [Ho | Ho];
      cbn [mbind result_bind].
    + destruct (Z.leb_spec (lastPlaced_at st (msg_sender e) + 15) t) as [Hl | Hl].
      * split; [intros _; right; split; assumption | reflexivity].
      * split; [discriminate | intros [? | [_ ?]]; lia].
    + split; [discriminate | intros [? | [? _]]; lia].
  - split; [intros _; left; exact Hp | reflexivity].
Qed.

Lemma rateLimit_Revert_iff st e t :
  rateLimit st e t = Revert "Megaplace: rate limit exceeded"
  ↔ premiumAccess_at st (msg_sender e) < t
    ∧ lastPlaced_at st (msg_sender e) + 15 < 2 ^ 64
    ∧ t < lastPlaced_at st (msg_sender e) + 15.
Proof.
  unfold rateLimit, checked_add, require.
  destruct (Z.ltb_spec (premiumAccess_at st (msg_sender e)) t) as [Hp | Hp].
  - destruct (Z.ltb_spec (lastPlaced_at st (msg_sender e) + 15) (2 ^ 64)) as [Ho | Ho];
      cbn [mbind result_bind].
    + destruct (Z.leb_spec (lastPlaced_at st (msg_sender e) + 15) t) as [Hl | Hl].
      * split; [discriminate | intros (_ & _ & ?); lia].
      * split; [intros _; repeat split; assumption | reflexivity].
    + split; [discriminate | intros (_ & ? & _); lia].
  - split; [discriminate | intros (? & _); lia].
Qed.

Lemma placePixel_rate_limited st e px py c :
  px < CANVAS_RES → py < CANVAS_RES →
  rateLimit st e (uint64 (block_timestamp e)) = Revert "Megaplace: rate limit exceeded" →
  placePixel st e px py c = Revert "Megaplace: rate limit exceeded".
Proof.
  intros Hx Hy Hrate. unfold placePixel.
  rewrite (proj2 (valid_coords_iff px py) (conj Hx Hy)).
  cbn [require mbind result_bind]. rewrite Hrate. reflexivity.
Qed.

(** X4. After an accepted placePixel at time [t], the same sender, when
    not premium, is refused with "Megaplace: rate limit exceeded" at
    every time before [t + 15] and accepted (at valid coordinates) from
    [t + 15] on. *)
Theorem rate_limit_is_fifteen_seconds
    (st st' : state) (e e2 : env) (px py c qx qy c2 : Z) (evs : list event)
    (Haccepted : placePixel st e px py c = Ok (st', evs))
    (Hsame : msg_sender e2 = msg_sender e)
    (Hnot_premium : premiumAccess_at st (msg_sender e) < uint64 (block_timestamp e2))
    (Hroom : uint64 (block_timestamp e) + 15 < 2 ^ 64)
    (Hqx : qx < CANVAS_RES) (Hqy : qy < CANVAS_RES) :
  (uint64 (block_timestamp e2) < uint64 (block_timestamp e) + 15 →
     placePixel st' e2 qx qy c2 = Revert "Megaplace: rate limit exceeded")
  ∧ (uint64 (block_timestamp e) + 15 ≤ uint64 (block_timestamp e2) →
       ∃ st'' evs2, placePixel st' e2 qx qy c2 = Ok (st'', evs2)).
Proof.
  apply placePixel_Ok_inv in Haccepted as (_ & _ & -> & _).
  set (st1 := mkState _ _ _ _).
  assert (Hlast : lastPlaced_at st1 (msg_sender e2) = uint64 (block_timestamp e)).
  { unfold lastPlaced_at, st1. cbn [lastPlaced]. rewrite Hsame, lookup_insert_eq. reflexivity. }
  assert (Hprem : premiumAccess_at st1 (msg_sender e2) = premiumAccess_at st (msg_sender e)).
  { rewrite Hsame. reflexivity. }
  split; intros Ht.
  - apply placePixel_rate_limited; [exact Hqx | exact Hqy |].
    apply rateLimit_Revert_iff. rewrite Hlast, Hprem. repeat split; assumption.
  - apply placePixel_accepts; [exact Hqx | exact Hqy |].
    apply rateLimit_Ok_iff. rewrite Hlast. right. split; assumption.
Qed.

Lemma rate_limit_is_fifteen_seconds_witness :
  match placePixel (mkState 1 ∅ ∅ ∅) (mkEnv 7 100) 3 4 255 with
  | Ok (st', _) =>
      placePixel st' (mkEnv 7 114) 5 6 255 = Revert "Megaplace: rate limit exceeded"
      ∧ ∃ st'' evs2, placePixel st' (mkEnv 7 115) 5 6 255 = Ok (st'', evs2)
  | _ => False
  end.
Proof.
  destruct (placePixel (mkState 1 ∅ ∅ ∅) (mkEnv 7 100) 3 4 255) as [[st' evs] | m | c] eqn:Hrun;
    [| vm_compute in Hrun; discriminate | vm_compute in Hrun; discriminate].
  split.
  - refine (proj1 (rate_limit_is_fifteen_seconds _ st' _ (mkEnv 7 114) 3 4 255 5 6 255 evs
                     Hrun eq_refl _ _ _ _) _);
      vm_compute; reflexivity.
  - refine (proj2 (rate_limit_is_fifteen_seconds _ st' _ (mkEnv 7 115) 3 4 255 5 6 255 evs
                     Hrun eq_refl _ _ _ _) _);
      vm_compute; congruence.
Defined.

(** X5. A sender whose premium access has not expired is never rate
    limited: placePixel at valid coordinates is accepted whatever the
    time of its last placement. *)
Theorem premium_bypasses_rate_limit
    (st : state) (e : env) (px py c : Z)
    (Hpremium : uint64 (block_timestamp e) ≤ premiumAccess_at st (msg_sender e))
    (Hx : px < CANVAS_RES) (Hy : py < CANVAS_RES) :
  ∃ st' evs, placePixel st e px py c = Ok (st', evs).
Proof.
  apply placePixel_accepts; [exact Hx | exact Hy |].
  apply rateLimit_Ok_iff. left. exact Hpremium.
Qed.

Lemma premium_bypasses_rate_limit_witness :
  ∃ st' evs,
    placePixel (mkState 1 ∅ {[ 7 := 100 ]} {[ 7 := 7300 ]}) (mkEnv 7 101) 3 4 255
    = Ok (st', evs).
Proof.
  apply premium_bypasses_rate_limit; vm_compute; congruence.
Defined.

(** X6. getCooldown answers what placePixel's rate limit will do for the
    same user at the same time: [(true, 0)] exactly when the rate limit
    lets the user through, and [(false, r)] exactly when it reverts, [r]
    being the seconds left until [lastPlaced + 15]; when the one panics
    on [lastPlaced + 15], so does the other. *)
Theorem getCooldown_agrees_with_rate_limit (st : state) (e : env) :
  match getCooldown st e (msg_sender e) with
  | Ok (true, r) => r = 0 ∧ rateLimit st e (uint64 (block_timestamp e)) = Ok tt
  | Ok (false, r) =>
      rateLimit st e (uint64 (block_timestamp e)) = Revert "Megaplace: rate limit exceeded"
      ∧ 0 < r
      ∧ r = lastPlaced_at st (msg_sender e) + 15 - uint64 (block_timestamp e)
  | Panic code => rateLimit st e (uint64 (block_timestamp e)) = Panic code
  | Revert _ => False
  end.
Proof.
  unfold getCooldown, rateLimit, checked_add, require.
  destruct (Z.leb_spec (uint64 (block_timestamp e)) (premiumAccess_at st (msg_sender e)))
    as [Hp | Hp].
  - replace (premiumAccess_at st (msg_sender e) <? uint64 (block_timestamp e)) with false
      by (symmetry; apply Z.ltb_ge; exact Hp).
    split; reflexivity.
  - replace (premiumAccess_at st (msg_sender e) <? uint64 (block_timestamp e)) with true
      by (symmetry; apply Z.ltb_lt; exact Hp).
    destruct (lastPlaced_at st (msg_sender e) + 15 <? 2 ^ 64); cbn [mbind result_bind];
      [| reflexivity].
    destruct (Z.leb_spec (lastPlaced_at st (msg_sender e) + 15) (uint64 (block_timestamp e)));
      cbn [mbind result_bind].
    + split; reflexivity.
    + repeat split; lia.
Qed.

(** X7. grantPremiumAccess reverts unless exactly 0.01 ether is sent.
    With it, and for two hours from the block time, hasPremiumAccess is
    true for the payer with the expiry [time + 7200] and every placePixel
    of the payer at valid coordinates is accepted; after that
    hasPremiumAccess is false. *)
Theorem paid_premium_lasts_two_hours
    (st : state) (e : env) (value : Z)
    (Hts : 0 ≤ block_timestamp e) (Hroom : block_timestamp e + 7200 < 2 ^ 64) :
  (value ≠ PREMIUM_PRICE →
     grantPremiumAccess st e value = Revert "Megaplace: incorrect payment amount")
  ∧ (value = PREMIUM_PRICE →
     ∃ st', grantPremiumAccess st e value = Ok st'
       ∧ ∀ e', msg_sender e' = msg_sender e →
           (block_timestamp e ≤ block_timestamp e' ≤ block_timestamp e + 7200 →
              hasPremiumAccess st' e' (msg_sender e) = (true, block_timestamp e + 7200)
              ∧ ∀ px py c, px < CANVAS_RES → py < CANVAS_RES →
                  ∃ st'' evs, placePixel st' e' px py c = Ok (st'', evs))
           ∧ (block_timestamp e + 7200 < block_timestamp e' →
                fst (hasPremiumAccess st' e' (msg_sender e)) = false)).
Proof.
  assert (Hexp : uint64 (uint256 (block_timestamp e + TWO_HOURS)) = block_timestamp e + 7200).
  { unfold uint64, uint256, TWO_HOURS.
    assert (2 ^ 64 < 2 ^ 256) by (vm_compute; reflexivity).
    rewrite (Z.mod_small (block_timestamp e + 7200) (2 ^ 256)) by lia.
    rewrite Z.mod_small by lia. reflexivity. }
  split.
  - intros Hne. unfold grantPremiumAccess, require.
    replace (value =? PREMIUM_PRICE) with false by (symmetry; apply Z.eqb_neq; exact Hne).
    reflexivity.
  - intros ->. unfold grantPremiumAccess, require. rewrite Z.eqb_refl, Hexp.
    cbn [mbind result_bind]. eexists. split; [reflexivity |].
    intros e' Hsender.
    assert (Hprem : premiumAccess_at (setPremium st (msg_sender e) (block_timestamp e + 7200))
                      (msg_sender e) = block_timestamp e + 7200).
    { unfold premiumAccess_at, setPremium. cbn [premiumAccess].
      rewrite lookup_insert_eq. reflexivity. }
    split.
    + intros Hwin. split.
      * unfold hasPremiumAccess. rewrite Hprem.
        replace (block_timestamp e' <=? block_timestamp e + 7200) with true
          by (symmetry; apply Z.leb_le; lia).
        reflexivity.
      * intros px py c Hx Hy. apply placePixel_accepts; [exact Hx | exact Hy |].
        apply rateLimit_Ok_iff. left.
        rewrite Hsender, Hprem. unfold uint64. rewrite Z.mod_small by lia. lia.
    + intros Hlate. unfold hasPremiumAccess. rewrite Hprem. cbn [fst].
      apply Z.leb_gt. exact Hlate.
Qed.

Lemma paid_premium_lasts_two_hours_witness :
  ∃ st', grantPremiumAccess (mkState 1 ∅ ∅ ∅) (mkEnv 7 1000) (10 ^ 16) = Ok st'
         ∧ hasPremiumAccess st' (mkEnv 7 8200) 7 = (true, 8200).
Proof.
  destruct (paid_premium_lasts_two_hours (mkState 1 ∅ ∅ ∅) (mkEnv 7 1000) (10 ^ 16)
              ltac:(vm_compute; congruence) ltac:(vm_compute; reflexivity))
    as [_ Hpaid].
  destruct (Hpaid eq_refl) as (st' & Hrun & Hwin).
  exists st'. split; [exact Hrun |].
  destruct (Hwin (mkEnv 7 8200) eq_refl) as [Hin _].
  apply Hin. cbn. lia.
Defined.

Lemma foldl_setPremium_lookup (expiry : Z) (users : list Z) : ∀ (st : state) (u : Z),
  premiumAccess_at (foldl (λ s user, setPremium s user expiry) st users) u
  = if decide (u ∈ users) then expiry else premiumAccess_at st u.
Proof.
  induction users as [| v users IH]; intros st u; cbn [foldl].
  - destruct (decide (u ∈ [])) as [Hin | _]; [inversion Hin | reflexivity].
  - rewrite IH. destruct (decide (u ∈ users)) as [Hin | Hnin].
    + destruct (decide (u ∈ v :: users)) as [_ | Hn]; [reflexivity |].
      exfalso. apply Hn. right. exact Hin.
    + unfold premiumAccess_at, setPremium. cbn [premiumAccess].
      destruct (decide (u = v)) as [-> | Hne].
      * rewrite lookup_insert_eq.
        destruct (decide (v ∈ v :: users)) as [_ | Hn]; [reflexivity |].
        exfalso. apply Hn. left.
      * rewrite lookup_insert_ne by congruence.
        destruct (decide (u ∈ v :: users)) as [Hin | _]; [| reflexivity].
        apply elem_of_cons in Hin as [? | ?]; contradiction.
Qed.

Lemma foldl_setPremium_frame (expiry : Z) (users : list Z) : ∀ st : state,
  canvas (foldl (λ s user, setPremium s user expiry) st users) = canvas st
  ∧ lastPlaced (foldl (λ s user, setPremium s user expiry) st users) = lastPlaced st
  ∧ owner (foldl (λ s user, setPremium s user expiry) st users) = owner st.
Proof.
  induction users as [| v users IH]; intros st; cbn [foldl]; [repeat split |].
  destruct (IH (setPremium st v expiry)) as (-> & -> & ->). repeat split.
Qed.

(** X8. The two admin grants are for the owner only: any other caller is
    refused with "Ownable: caller is not the owner".  Called by the
    owner, the batch grant gives every listed user the expiry
    [time + 7200] and leaves every other user's expiry, the canvas, the
    rate-limit times and the owner as they were. *)
Theorem admin_grants_are_owner_only
    (st : state) (e : env) (user : Z) (users : list Z)
    (Hts : 0 ≤ block_timestamp e) (Hroom : block_timestamp e + 7200 < 2 ^ 64) :
  (msg_sender e ≠ owner st →
     adminGrantPremiumAccess st e user = Revert "Ownable: caller is not the owner"
     ∧ adminGrantPremiumAccessBatch st e users = Revert "Ownable: caller is not the owner")
  ∧ (msg_sender e = owner st →
     (∃ st1, adminGrantPremiumAccess st e user = Ok st1
             ∧ premiumAccess_at st1 user = block_timestamp e + 7200)
     ∧ ∃ st2, adminGrantPremiumAccessBatch st e users = Ok st2
         ∧ (∀ u, u ∈ users → premiumAccess_at st2 u = block_timestamp e + 7200)
         ∧ (∀ u, u ∉ users → premiumAccess_at st2 u = premiumAccess_at st u)
         ∧ canvas st2 = canvas st ∧ lastPlaced st2 = lastPlaced st ∧ owner st2 = owner st).
Proof.
  assert (H64 : 2 ^ 64 < 2 ^ 256) by (vm_compute; reflexivity).
  assert (Hexp : uint64 (uint256 (block_timestamp e + TWO_HOURS)) = block_timestamp e + 7200).
  { unfold uint64, uint256, TWO_HOURS.
    rewrite (Z.mod_small (block_timestamp e + 7200) (2 ^ 256)) by lia.
    rewrite Z.mod_small by lia. reflexivity. }
  split.
  - intros Hne. unfold adminGrantPremiumAccess, adminGrantPremiumAccessBatch, onlyOwner, require.
    replace (msg_sender e =? owner st) with false by (symmetry; apply Z.eqb_neq; exact Hne).
    split; reflexivity.
  - intros Hown. unfold adminGrantPremiumAccess, adminGrantPremiumAccessBatch, onlyOwner,
      require, checked_add.
    replace (msg_sender e =? owner st) with true by (symmetry; apply Z.eqb_eq; exact Hown).
    cbn [mbind result_bind]. rewrite Hexp.
    split.
    + eexists. split; [reflexivity |].
      unfold premiumAccess_at, setPremium. cbn [premiumAccess].
      rewrite lookup_insert_eq. reflexivity.
    + replace (block_timestamp e + TWO_HOURS <? 2 ^ 256) with true
        by (symmetry; apply Z.ltb_lt; unfold TWO_HOURS; lia).
      cbn [mbind result_bind].
      replace (uint64 (block_timestamp e + TWO_HOURS)) with (block_timestamp e + 7200)
        by (unfold uint64, TWO_HOURS; rewrite Z.mod_small by lia; reflexivity).
      eexists. split; [reflexivity |].
      split; [| split].
      * intros u Hu. rewrite foldl_setPremium_lookup.
        destruct (decide (u ∈ users)); [reflexivity | contradiction].
      * intros u Hu. rewrite foldl_setPremium_lookup.
        destruct (decide (u ∈ users)); [contradiction | reflexivity].
      * apply foldl_setPremium_frame.
Qed.

Lemma admin_grants_are_owner_only_witness :
  adminGrantPremiumAccess (mkState 1 ∅ ∅ ∅) (mkEnv 7 1000) 9
    = Revert "Ownable: caller is not the owner"
  ∧ ∃ st2, adminGrantPremiumAccessBatch (mkState 1 ∅ ∅ ∅) (mkEnv 1 1000) [8; 9] = Ok st2
           ∧ premiumAccess_at st2 9 = 8200.
Proof.
  split.
  - refine (proj1 (proj1 (admin_grants_are_owner_only (mkState 1 ∅ ∅ ∅) (mkEnv 7 1000) 9 [] _ _) _));
      vm_compute; congruence.
  - destruct (admin_grants_are_owner_only (mkState 1 ∅ ∅ ∅) (mkEnv 1 1000) 9 [8; 9]
                ltac:(vm_compute; congruence) ltac:(vm_compute; reflexivity))
      as [_ Hown].
    destruct (Hown eq_refl) as (_ & st2 & Hrun & Hin & _).
    exists st2. split; [exact Hrun |].
    apply Hin. right. left.
Defined.

End LedgerLimits.

Section LedgerBatch.

Import Contract.

Lemma placeBatchLoop_accepts sender t (xs : list Z) : ∀ ys cs cv emitted,
  Forall (λ x, x < CANVAS_RES) xs → Forall (λ y, y < CANVAS_RES) ys →
  ∃ r, placeBatchLoop sender t xs ys cs cv emitted = Ok r.
Proof.
  induction xs as [| x xs IH]; intros ys cs cv emitted Hxs Hys; [eexists; reflexivity |].
  destruct ys as [| y ys]; [eexists; reflexivity |].
  destruct cs as [| c cs]; [eexists; reflexivity |].
  apply Forall_cons in Hxs as [Hx Hxs]. apply Forall_cons in Hys as [Hy Hys].
  cbn [placeBatchLoop]. rewrite (proj2 (valid_coords_iff x y) (conj Hx Hy)).
  cbn [require mbind result_bind]. apply IH; assumption.
Qed.

Lemma placeBatchLoop_inv sender t (xs : list Z) : ∀ ys cs cv emitted cv' evs,
  length xs = length ys → length xs = length cs →
  placeBatchLoop sender t xs ys cs cv emitted = Ok (cv', evs) →
  Forall (λ x, x < CANVAS_RES) xs ∧ Forall (λ y, y < CANVAS_RES) ys
  ∧ ∃ tail, evs = emitted ++ tail ∧ length tail = length xs
      ∧ ∀ i x y c, xs !! i = Some x → ys !! i = Some y → cs !! i = Some c →
          tail !! i = Some (PixelPlaced sender x y (if c =? 0 then 65793 else c) t).
Proof.
  induction xs as [| x xs IH]; intros ys cs cv emitted cv' evs Hly Hlc Hrun.
  - destruct ys; [| discriminate]. cbn in Hrun. injection Hrun as <- <-.
    split; [constructor |]. split; [constructor |].
    exists []. rewrite app_nil_r. repeat split. intros i x y c Hx. discriminate Hx.
  - destruct ys as [| y ys]; [discriminate |]. destruct cs as [| c cs]; [discriminate |].
    cbn [placeBatchLoop] in Hrun.
    apply bind_Ok_inv in Hrun as ([] & Hreq & Hrun).
    apply require_Ok, valid_coords_iff in Hreq as [Hx Hy].
    apply IH in Hrun as (Hxs & Hys & tail & -> & Hlen & Hnth);
      [| cbn in Hly; lia | cbn in Hlc; lia].
    split; [constructor; assumption |]. split; [constructor; assumption |].
    exists (PixelPlaced sender x y (if c =? 0 then 65793 else c) t :: tail).
    split; [rewrite <- app_assoc; reflexivity |].
    split; [cbn; lia |].
    intros [| i] x' y' c' Hx' Hy' Hc'.
    + cbn in Hx', Hy', Hc'. injection Hx' as <-. injection Hy' as <-. injection Hc' as <-.
      reflexivity.
    + cbn. apply Hnth; assumption.
Qed.

Lemma placeBatchLoop_untouched sender t (xs : list Z) : ∀ ys cs cv emitted cv' evs idx,
  placeBatchLoop sender t xs ys cs cv emitted = Ok (cv', evs) →
  (∀ i x y, xs !! i = Some x → ys !! i = Some y → canvasIndex x y ≠ idx) →
  cv' !! idx = cv !! idx.
Proof.
  induction xs as [| x xs IH]; intros ys cs cv emitted cv' evs idx Hrun Hne.
  - cbn in Hrun. injection Hrun as <- _. reflexivity.
  - destruct ys as [| y ys]; [cbn in Hrun; injection Hrun as <- _; reflexivity |].
    destruct cs as [| c cs]; [cbn in Hrun; injection Hrun as <- _; reflexivity |].
    cbn [placeBatchLoop] in Hrun.
    apply bind_Ok_inv in Hrun as ([] & _ & Hrun).
    rewrite (IH _ _ _ _ _ _ idx Hrun).
    + apply lookup_insert_ne. apply (Hne 0%nat x y); reflexivity.
    + intros i x' y' Hx' Hy'. apply (Hne (S i) x' y'); assumption.
Qed.

Lemma placeBatchLoop_last_wins sender t (xs : list Z) : ∀ ys cs cv emitted cv' evs i x y c,
  placeBatchLoop sender t xs ys cs cv emitted = Ok (cv', evs) →
  xs !! i = Some x → ys !! i = Some y → cs !! i = Some c →
  (∀ j xj yj, (i < j)%nat → xs !! j = Some xj → ys !! j = Some yj →
     canvasIndex xj yj ≠ canvasIndex x y) →
  cv' !! canvasIndex x y = Some (mkPixel (if c =? 0 then 65793 else c) sender t).
Proof.
  induction xs as [| x0 xs IH]; intros ys cs cv emitted cv' evs i x y c Hrun Hx Hy Hc Hlater;
    [discriminate Hx |].
  destruct ys as [| y0 ys]; [discriminate Hy |].
  destruct cs as [| c0 cs]; [discriminate Hc |].
  cbn [placeBatchLoop] in Hrun.
  apply bind_Ok_inv in Hrun as ([] & _ & Hrun).
  destruct i as [| i].
  - cbn in Hx, Hy, Hc. injection Hx as ->. injection Hy as ->. injection Hc as ->.
    rewrite (placeBatchLoop_untouched _ _ _ _ _ _ _ _ _ (canvasIndex x y) Hrun).
    + apply lookup_insert_eq.
    + intros j xj yj Hxj Hyj. apply (Hlater (S j) xj yj); [lia | assumption | assumption].
  - apply (IH _ _ _ _ _ _ i x y c Hrun); try assumption.
    intros j xj yj Hij Hxj Hyj. apply (Hlater (S j) xj yj); [lia | assumption | assumption].
Qed.

Lemma placeBatchLoop_keeps_nonzero sender t (xs : list Z) : ∀ ys cs cv emitted cv' evs idx,
  placeBatchLoop sender t xs ys cs cv emitted = Ok (cv', evs) →
  (∃ p, cv !! idx = Some p ∧ color p ≠ 0) →
  ∃ p, cv' !! idx = Some p ∧ color p ≠ 0.
Proof.
  induction xs as [| x xs IH]; intros ys cs cv emitted cv' evs idx Hrun Hcv.
  - cbn in Hrun. injection Hrun as <- _. exact Hcv.
  - destruct ys as [| y ys]; [cbn in Hrun; injection Hrun as <- _; exact Hcv |].
    destruct cs as [| c cs]; [cbn in Hrun; injection Hrun as <- _; exact Hcv |].
    cbn [placeBatchLoop] in Hrun.
    apply bind_Ok_inv in Hrun as ([] & _ & Hrun).
    apply (IH _ _ _ _ _ _ idx Hrun).
    destruct (decide (canvasIndex x y = idx)) as [<- | Hne].
    + eexists. rewrite lookup_insert_eq. split; [reflexivity |].
      cbn [color]. apply stored_color_nonzero.
    + rewrite lookup_insert_ne by exact Hne. exact Hcv.
Qed.

Lemma placeBatchLoop_written_nonzero sender t (xs : list Z) :
  ∀ ys cs cv emitted cv' evs i x y c,
  placeBatchLoop sender t xs ys cs cv emitted = Ok (cv', evs) →
  xs !! i = Some x → ys !! i = Some y → cs !! i = Some c →
  ∃ p, cv' !! canvasIndex x y = Some p ∧ color p ≠ 0.
Proof.
  induction xs as [| x0 xs IH]; intros ys cs cv emitted cv' evs i x y c Hrun Hx Hy Hc;
    [discriminate Hx |].
  destruct ys as [| y0 ys]; [discriminate Hy |].
  destruct cs as [| c0 cs]; [discriminate Hc |].
  cbn [placeBatchLoop] in Hrun.
  apply bind_Ok_inv in Hrun as ([] & _ & Hrun).
  destruct i as [| i].
  - cbn in Hx, Hy. injection Hx as ->. injection Hy as ->.
    apply (placeBatchLoop_keeps_nonzero _ _ _ _ _ _ _ _ _ _ Hrun).
    eexists. rewrite lookup_insert_eq. split; [reflexivity |].
    cbn [color]. apply stored_color_nonzero.
  - apply (IH _ _ _ _ _ _ i x y c Hrun); assumption.
Qed.

Lemma placePixelBatch_Ok_inv st e xs ys cs st' evs :
  placePixelBatch st e xs ys cs = Ok (st', evs) →
  length xs = length ys ∧ length xs = length cs ∧ (1 ≤ length xs ≤ 100)%nat
  ∧ rateLimit st e (uint64 (block_timestamp e)) = Ok tt
  ∧ ∃ cv' looped,
      placeBatchLoop (msg_sender e) (uint64 (block_timestamp e)) xs ys cs (canvas st) []
        = Ok (cv', looped)
      ∧ st' = mkState (owner st) cv'
                (<[msg_sender e := uint64 (block_timestamp e)]> (lastPlaced st))
                (premiumAccess st)
      ∧ evs = looped ++ [PixelsBatchPlaced (msg_sender e) (Z.of_nat (length xs))
                           (uint64 (block_timestamp e))].
Proof.
  unfold placePixelBatch. intros H.
  apply bind_Ok_inv in H as ([] & Hlen & H).
  apply bind_Ok_inv in H as ([] & Hsize & H).
  apply bind_Ok_inv in H as ([] & Hrate & H).
  apply bind_Ok_inv in H as ([cv' looped] & Hloop & H).
  apply require_Ok, andb_true_iff in Hlen as [H1 H2]. apply Z.eqb_eq in H1, H2.
  apply require_Ok, andb_true_iff in Hsize as [H3 H4].
  apply Z.ltb_lt in H3. apply Z.leb_le in H4.
  injection H as <- <-.
  split; [lia |]. split; [lia |]. split; [lia |]. split; [exact Hrate |].
  exists cv', looped. repeat split. exact Hloop.
Qed.

(** X9. placePixelBatch is accepted exactly when the three arrays have
    one length between 1 and 100, the sender passes the rate limit and
    every coordinate is below CANVAS_RES; one bad coordinate refuses the
    whole batch. *)
Theorem placePixelBatch_accepted_iff (st : state) (e : env) (xs ys cs : list Z) :
  (∃ st' evs, placePixelBatch st e xs ys cs = Ok (st', evs))
  ↔ length xs = length ys ∧ length xs = length cs ∧ (1 ≤ length xs ≤ 100)%nat
    ∧ rateLimit st e (uint64 (block_timestamp e)) = Ok tt
    ∧ Forall (λ x, x < CANVAS_RES) xs ∧ Forall (λ y, y < CANVAS_RES) ys.
Proof.
  split.
  - intros (st' & evs & Hrun).
    apply placePixelBatch_Ok_inv in Hrun
      as (Hly & Hlc & Hsize & Hrate & cv' & looped & Hloop & _ & _).
    apply placeBatchLoop_inv in Hloop as (Hxs & Hys & _); [| exact Hly | exact Hlc].
    repeat split; try assumption; lia.
  - intros (Hly & Hlc & Hsize & Hrate & Hxs & Hys).
    unfold placePixelBatch, require.
    replace ((Z.of_nat (length xs) =? Z.of_nat (length ys))
             && (Z.of_nat (length xs) =? Z.of_nat (length cs))) with true
      by (symmetry; apply andb_true_iff; split; apply Z.eqb_eq; lia).
    cbn [mbind result_bind].
    replace ((0 <? Z.of_nat (length xs)) && (Z.of_nat (length xs) <=? 100)) with true
      by (symmetry; apply andb_true_iff; split; [apply Z.ltb_lt | apply Z.leb_le]; lia).
    cbn [mbind result_bind]. rewrite Hrate. cbn [mbind result_bind].
    destruct (placeBatchLoop_accepts (msg_sender e) (uint64 (block_timestamp e))
                xs ys cs (canvas st) [] Hxs Hys) as [[cv' looped] ->].
    cbn [mbind result_bind]. eexists _, _. reflexivity.
Qed.

(** X10. An accepted placePixelBatch emits one PixelPlaced event per
    element, in array order and with the stored color, followed by one
    PixelsBatchPlaced event with the element count; afterwards getPixel
    at the coordinates of an element that no later element repeats
    returns that element's stored color, the sender and the block time. *)
Theorem placePixelBatch_events_and_pixels
    (st st' : state) (e : env) (xs ys cs : list Z) (evs : list event)
    (Hxs : Forall (λ x, 0 ≤ x) xs) (Hys : Forall (λ y, 0 ≤ y) ys)
    (Haccepted : placePixelBatch st e xs ys cs = Ok (st', evs)) :
  length evs = S (length xs)
  ∧ evs !! length xs
    = Some (PixelsBatchPlaced (msg_sender e) (Z.of_nat (length xs))
              (uint64 (block_timestamp e)))
  ∧ ∀ i x y c, xs !! i = Some x → ys !! i = Some y → cs !! i = Some c →
      evs !! i = Some (PixelPlaced (msg_sender e) x y (if c =? 0 then 65793 else c)
                         (uint64 (block_timestamp e)))
      ∧ ((∀ j xj yj, (i < j)%nat → xs !! j = Some xj → ys !! j = Some yj →
            (xj, yj) ≠ (x, y)) →
         getPixel st' x y
         = Ok (if c =? 0 then 65793 else c, msg_sender e, uint64 (block_timestamp e))).
Proof.
  apply placePixelBatch_Ok_inv in Haccepted
    as (Hly & Hlc & Hsize & Hrate & cv' & looped & Hloop & -> & ->).
  pose proof (placeBatchLoop_inv _ _ _ _ _ _ _ _ _ Hly Hlc Hloop)
    as (Hvx & Hvy & tail & Htail & Hlen & Hnth).
  cbn [app] in Htail. subst looped.
  split; [rewrite length_app; cbn; lia |].
  split.
  { rewrite lookup_app_r by lia. rewrite Hlen, Nat.sub_diag. reflexivity. }
  intros i x y c Hx Hy Hc. split.
  - rewrite lookup_app_l by (rewrite Hlen; apply (lookup_lt_Some _ _ _ Hx)).
    apply Hnth; assumption.
  - intros Hlater.
    assert (Vx : 0 ≤ x < CANVAS_RES).
    { split; [apply (proj1 (Forall_lookup _ _) Hxs i x Hx)
             | apply (proj1 (Forall_lookup _ _) Hvx i x Hx)]. }
    assert (Vy : 0 ≤ y < CANVAS_RES).
    { split; [apply (proj1 (Forall_lookup _ _) Hys i y Hy)
             | apply (proj1 (Forall_lookup _ _) Hvy i y Hy)]. }
    unfold getPixel. rewrite (proj2 (valid_coords_iff x y) (conj (proj2 Vx) (proj2 Vy))).
    cbn [require mbind result_bind]. unfold canvas_at. cbn [canvas].
    rewrite (placeBatchLoop_last_wins _ _ _ _ _ _ _ _ _ i x y c Hloop Hx Hy Hc);
      [reflexivity |].
    intros j xj yj Hij Hxj Hyj Hidx. apply (Hlater j xj yj Hij Hxj Hyj).
    assert (Vxj : 0 ≤ xj < CANVAS_RES).
    { split; [apply (proj1 (Forall_lookup _ _) Hxs j xj Hxj)
             | apply (proj1 (Forall_lookup _ _) Hvx j xj Hxj)]. }
    assert (Vyj : 0 ≤ yj < CANVAS_RES).
    { split; [apply (proj1 (Forall_lookup _ _) Hys j yj Hyj)
             | apply (proj1 (Forall_lookup _ _) Hvy j yj Hyj)]. }
    destruct (canvasIndex_eq_inv xj yj x y Vxj Vyj Vx Vy Hidx) as [-> ->].
    reflexivity.
Qed.

Lemma placePixelBatch_events_and_pixels_witness :
  match placePixelBatch (mkState 1 ∅ ∅ ∅) (mkEnv 7 100) [3; 3] [4; 4] [255; 0] with
  | Ok (st', evs) =>
      evs !! 1%nat = Some (PixelPlaced 7 3 4 65793 100)
      ∧ getPixel st' 3 4 = Ok (65793, 7, 100)
  | _ => False
  end.
Proof.
  destruct (placePixelBatch (mkState 1 ∅ ∅ ∅) (mkEnv 7 100) [3; 3] [4; 4] [255; 0])
    as [[st' evs] | m | c] eqn:Hrun;
    [| vm_compute in Hrun; discriminate | vm_compute in Hrun; discriminate].
  destruct (placePixelBatch_events_and_pixels _ st' _ [3; 3] [4; 4] [255; 0] evs
              ltac:(repeat constructor; lia) ltac:(repeat constructor; lia) Hrun)
    as (_ & _ & Hnth).
  destruct (Hnth 1%nat 3 4 0 eq_refl eq_refl eq_refl) as [Hev Hpix].
  split; [exact Hev |].
  apply Hpix. intros [| [| j]] xj yj Hij Hxj Hyj; [lia | lia | discriminate Hxj].
Defined.

End LedgerBatch.

(** C3. An accepted placePixel with color 0 stores the pixel with color
    0x010101 and emits its PixelPlaced event with color 0x010101, and no
    accepted placePixel, whatever its color, emits a PixelPlaced event of
    color 0.  An accepted placePixelBatch does the same element by
    element: its events are one PixelPlaced per element, in order, with
    color 0 replaced by 0x010101, then the PixelsBatchPlaced event; none
    has color 0; every pixel the batch wrote holds a non-zero color, and
    the pixel of an element whose index no later element writes holds
    that element's color, 0x010101 for color 0.  The indexer's
    normalisation keeps the color of an entry as it received it. *)
Theorem zero_color_stored_and_emitted_as_sentinel
    (st st' : Contract.state) (e : Contract.env) (px py : Z)
    (evs : list Contract.event)
    (Haccepted : Contract.placePixel st e px py 0 = Contract.Ok (st', evs)) :
  (px < Contract.CANVAS_RES ∧ py < Contract.CANVAS_RES)
  ∧ Contract.canvas_at st' (Contract.canvasIndex px py)
      = Contract.mkPixel 0x010101 (Contract.msg_sender e)
          (Contract.uint64 (Contract.block_timestamp e))
  ∧ evs = [Contract.PixelPlaced (Contract.msg_sender e) px py 0x010101
             (Contract.uint64 (Contract.block_timestamp e))]
  ∧ (∀ s x y c s' out,
       Contract.placePixel s e x y c = Contract.Ok (s', out) → no_zero_color out)
  ∧ (∀ s xs ys cs s' out,
       Contract.placePixelBatch s e xs ys cs = Contract.Ok (s', out) →
       no_zero_color out
       ∧ length out = S (length xs)
       ∧ out !! length xs
         = Some (Contract.PixelsBatchPlaced (Contract.msg_sender e)
                   (Z.of_nat (length xs)) (Contract.uint64 (Contract.block_timestamp e)))
       ∧ ∀ i x y c, xs !! i = Some x → ys !! i = Some y → cs !! i = Some c →
           out !! i
           = Some (Contract.PixelPlaced (Contract.msg_sender e) x y
                     (if c =? 0 then 0x010101 else c)
                     (Contract.uint64 (Contract.block_timestamp e)))
           ∧ Contract.color (Contract.canvas_at s' (Contract.canvasIndex x y)) ≠ 0
           ∧ ((∀ j xj yj, (i < j)%nat → xs !! j = Some xj → ys !! j = Some yj →
                 Contract.canvasIndex xj yj ≠ Contract.canvasIndex x y) →
              Contract.canvas_at s' (Contract.canvasIndex x y)
              = Contract.mkPixel (if c =? 0 then 0x010101 else c) (Contract.msg_sender e)
                  (Contract.uint64 (Contract.block_timestamp e))))
  ∧ (∀ entry, px_color (Cache.normalize entry) = Cache.color entry).
Proof.
  split; [| split; [| split; [| split; [| split]]]].
  - unfold Contract.placePixel in Haccepted.
    apply bind_Ok_inv in Haccepted as ([] & Hreq & _).
    unfold Contract.require in Hreq.
    destruct ((px <? Contract.CANVAS_RES) && (py <? Contract.CANVAS_RES)) eqn:Hc;
      [| discriminate].
    apply andb_true_iff in Hc as [H1 H2]. apply Z.ltb_lt in H1, H2. split; assumption.
  - unfold Contract.placePixel in Haccepted.
    apply bind_Ok_inv in Haccepted as ([] & _ & Haccepted).
    apply bind_Ok_inv in Haccepted as ([] & _ & Haccepted).
    injection Haccepted as <- _.
    unfold Contract.canvas_at. cbn [Contract.canvas].
    rewrite lookup_insert_eq. reflexivity.
  - unfold Contract.placePixel in Haccepted.
    apply bind_Ok_inv in Haccepted as ([] & _ & Haccepted).
    apply bind_Ok_inv in Haccepted as ([] & _ & Haccepted).
    injection Haccepted as _ <-. reflexivity.
  - intros s x y c s' out Hrun. unfold Contract.placePixel in Hrun.
    apply bind_Ok_inv in Hrun as ([] & _ & Hrun).
    apply bind_Ok_inv in Hrun as ([] & _ & Hrun).
    injection Hrun as _ <-.
    constructor; [| constructor]. cbn [event_color].
    intros [= H]. exact (stored_color_nonzero c H).
  - intros s xs ys cs s' out Hrun.
    apply placePixelBatch_Ok_inv in Hrun
      as (Hly & Hlc & _ & _ & cv' & looped & Hloop & -> & ->).
    pose proof (placeBatchLoop_inv _ _ _ _ _ _ _ _ _ Hly Hlc Hloop)
      as (_ & _ & tail & Htail & Hlen & Hnth).
    cbn [app] in Htail. subst looped.
    split; [| split; [| split]].
    + apply Forall_app. split.
      * apply (placeBatchLoop_no_zero _ _ _ _ _ _ _ _ _ Hloop). constructor.
      * constructor; [| constructor]. discriminate.
    + rewrite length_app. cbn. lia.
    + rewrite lookup_app_r by lia. rewrite Hlen, Nat.sub_diag. reflexivity.
    + intros i x y c Hx Hy Hc. split; [| split].
      * rewrite lookup_app_l by (rewrite Hlen; apply (lookup_lt_Some _ _ _ Hx)).
        apply Hnth; assumption.
      * destruct (placeBatchLoop_written_nonzero _ _ _ _ _ _ _ _ _ i x y c Hloop Hx Hy Hc)
          as (p & Hp & Hnz).
        unfold Contract.canvas_at. cbn [Contract.canvas]. rewrite Hp. exact Hnz.
      * intros Hlater. unfold Contract.canvas_at. cbn [Contract.canvas].
        rewrite (placeBatchLoop_last_wins _ _ _ _ _ _ _ _ _ i x y c Hloop Hx Hy Hc Hlater).
        reflexivity.
  - intros entry. reflexivity.
Qed.

Lemma zero_color_stored_and_emitted_as_sentinel_witness :
  let st := Contract.mkState 1 ∅ ∅ ∅ in
  let e := Contract.mkEnv 7 1700000000 in
  (∃ st', Contract.placePixel st e 10 10 0
            = Contract.Ok (st', [Contract.PixelPlaced 7 10 10 65793 1700000000])
          ∧ Contract.color (Contract.canvas_at st' (Contract.canvasIndex 10 10)) = 65793)
  ∧ match Contract.placePixelBatch st e [3; 5] [4; 6] [0; 255] with
    | Contract.Ok (s', out) =>
        out !! 0%nat = Some (Contract.PixelPlaced 7 3 4 65793 1700000000)
        ∧ Contract.color (Contract.canvas_at s' (Contract.canvasIndex 3 4)) = 65793
    | _ => False
    end.
Proof.
  intros st e.
  destruct (Contract.placePixel st e 10 10 0) as [[st' evs] | m | c] eqn:Hrun;
    [| vm_compute in Hrun; discriminate | vm_compute in Hrun; discriminate].
  destruct (zero_color_stored_and_emitted_as_sentinel st st' e 10 10 evs Hrun)
    as (_ & Hstored & Hevs & _ & Hbatch & _).
  split.
  - exists st'. split.
    + rewrite Hevs. reflexivity.
    + rewrite Hstored. reflexivity.
  - destruct (Contract.placePixelBatch st e [3; 5] [4; 6] [0; 255])
      as [[s' out] | m | c] eqn:Hb;
      [| vm_compute in Hb; discriminate | vm_compute in Hb; discriminate].
    destruct (Hbatch st [3; 5] [4; 6] [0; 255] s' out Hb) as (_ & _ & _ & Hnth).
    destruct (Hnth 0%nat 3 4 0 eq_refl eq_refl eq_refl) as (Hev & _ & Hpix).
    split; [exact Hev |].
    rewrite Hpix; [reflexivity |].
    intros [| [| j]] xj yj Hij Hxj Hyj; [lia | | discriminate Hxj].
    cbn in Hxj, Hyj. injection Hxj as <-. injection Hyj as <-.
    vm_compute. discriminate.
Defined.


Section LedgerReads.

Import Contract.

Lemma getPixelBatchLoop_accepts st (xs : list Z) : ∀ ys,
  Forall (λ x, x < CANVAS_RES) xs → Forall (λ y, y < CANVAS_RES) ys →
  ∃ r, getPixelBatchLoop st xs ys = Ok r.
Proof.
  induction xs as [| x xs IH]; intros ys Hxs Hys; [eexists; reflexivity |].
  destruct ys as [| y ys]; [eexists; reflexivity |].
  apply Forall_cons in Hxs as [Hx Hxs]. apply Forall_cons in Hys as [Hy Hys].
  cbn [getPixelBatchLoop]. rewrite (proj2 (valid_coords_iff x y) (conj Hx Hy)).
  cbn [require mbind result_bind].
  destruct (IH ys Hxs Hys) as [r ->]. cbn [mbind result_bind]. eexists. reflexivity.
Qed.

Lemma getPixelBatchLoop_inv st (xs : list Z) : ∀ ys colors owners times,
  length xs = length ys →
  getPixelBatchLoop st xs ys = Ok (colors, owners, times) →
  Forall (λ x, x < CANVAS_RES) xs ∧ Forall (λ y, y < CANVAS_RES) ys
  ∧ length colors = length xs ∧ length owners = length xs ∧ length times = length xs
  ∧ ∀ i x y, xs !! i = Some x → ys !! i = Some y →
      ∃ c a t, colors !! i = Some c ∧ owners !! i = Some a ∧ times !! i = Some t
               ∧ getPixel st x y = Ok (c, a, t).
Proof.
  induction xs as [| x xs IH]; intros ys colors owners times Hlen Hrun.
  - destruct ys; [| discriminate]. cbn in Hrun. injection Hrun as <- <- <-.
    repeat split; try constructor. intros i x y Hx. discriminate Hx.
  - destruct ys as [| y ys]; [discriminate |].
    cbn [getPixelBatchLoop] in Hrun.
    apply bind_Ok_inv in Hrun as ([] & Hreq & Hrun).
    apply bind_Ok_inv in Hrun as ([[cs' os'] ts'] & Hrest & Hrun).
    cbn [fst snd] in Hrun. injection Hrun as <- <- <-.
    pose proof Hreq as Hreq'.
    apply require_Ok, valid_coords_iff in Hreq as [Hx Hy].
    apply IH in Hrest as (Hxs & Hys & Hc & Ho & Ht & Hnth); [| cbn in Hlen; lia].
    split; [constructor; assumption |]. split; [constructor; assumption |].
    split; [cbn; lia |]. split; [cbn; lia |]. split; [cbn; lia |].
    intros [| i] x' y' Hx' Hy'.
    + cbn in Hx', Hy'. injection Hx' as <-. injection Hy' as <-.
      eexists _, _, _. repeat split. unfold getPixel.
      rewrite (proj2 (valid_coords_iff x y) (conj Hx Hy)). reflexivity.
    + cbn. apply Hnth; assumption.
Qed.

(** X11. getPixelBatch is accepted exactly when the two arrays have one
    length between 1 and 1000 and every coordinate is below CANVAS_RES;
    its three result arrays then have that length and hold, at each
    position, what getPixel returns for the coordinates at that position. *)
Theorem getPixelBatch_is_getPixel_pointwise (st : state) (xs ys : list Z) :
  ((∃ r, getPixelBatch st xs ys = Ok r)
     ↔ length xs = length ys ∧ (1 ≤ length xs ≤ 1000)%nat
       ∧ Forall (λ x, x < CANVAS_RES) xs ∧ Forall (λ y, y < CANVAS_RES) ys)
  ∧ (∀ colors owners times,
       getPixelBatch st xs ys = Ok (colors, owners, times) →
       length colors = length xs ∧ length owners = length xs ∧ length times = length xs
       ∧ ∀ i x y, xs !! i = Some x → ys !! i = Some y →
           ∃ c a t, colors !! i = Some c ∧ owners !! i = Some a ∧ times !! i = Some t
                    ∧ getPixel st x y = Ok (c, a, t)).
Proof.
  assert (Hinv : ∀ r, getPixelBatch st xs ys = Ok r →
                      length xs = length ys ∧ (1 ≤ length xs ≤ 1000)%nat
                      ∧ getPixelBatchLoop st xs ys = Ok r).
  { intros r Hrun. unfold getPixelBatch in Hrun.
    apply bind_Ok_inv in Hrun as ([] & Hlen & Hrun).
    apply bind_Ok_inv in Hrun as ([] & Hsize & Hrun).
    apply require_Ok, Z.eqb_eq in Hlen.
    apply require_Ok, andb_true_iff in Hsize as [H1 H2].
    apply Z.ltb_lt in H1. apply Z.leb_le in H2.
    split; [lia |]. split; [lia | exact Hrun]. }
  split; [split |].
  - intros [[[colors owners] times] Hrun].
    destruct (Hinv _ Hrun) as (Hlen & Hsize & Hloop).
    apply getPixelBatchLoop_inv in Hloop as (Hxs & Hys & _); [| exact Hlen].
    repeat split; try assumption; lia.
  - intros (Hlen & Hsize & Hxs & Hys). unfold getPixelBatch, require.
    replace (Z.of_nat (length xs) =? Z.of_nat (length ys)) with true
      by (symmetry; apply Z.eqb_eq; lia).
    cbn [mbind result_bind].
    replace ((0 <? Z.of_nat (length xs)) && (Z.of_nat (length xs) <=? 1000)) with true
      by (symmetry; apply andb_true_iff; split; [apply Z.ltb_lt | apply Z.leb_le]; lia).
    cbn [mbind result_bind]. apply getPixelBatchLoop_accepts; assumption.
  - intros colors owners times Hrun.
    destruct (Hinv _ Hrun) as (Hlen & _ & Hloop).
    apply getPixelBatchLoop_inv in Hloop as (_ & _ & Hrest); [exact Hrest | exact Hlen].
Qed.

Lemma getRegion_accepts st x y w h :
  in_bounds x y w h → getRegion st x y w h = Ok (regionRows st x y w 0 (Z.to_nat h)).
Proof.
  intros (Hx & Hy & Hw & Hh & Hr & Hb).
  assert (Hbig : CANVAS_RES < 2 ^ 256) by (vm_compute; reflexivity).
  assert (Hres : CANVAS_RES = 1048576) by reflexivity.
  unfold getRegion, require, checked_add, checked_mul.
  replace ((x <? CANVAS_RES) && (y <? CANVAS_RES)) with true
    by (symmetry; apply andb_true_iff; split; apply Z.ltb_lt; lia).
  cbn [mbind result_bind].
  replace (x + w <? 2 ^ 256) with true by (symmetry; apply Z.ltb_lt; lia).
  cbn [mbind result_bind].
  replace (x + w <=? CANVAS_RES) with true by (symmetry; apply Z.leb_le; lia).
  replace (y + h <? 2 ^ 256) with true by (symmetry; apply Z.ltb_lt; lia).
  cbn [mbind result_bind].
  replace (y + h <=? CANVAS_RES) with true by (symmetry; apply Z.leb_le; lia).
  cbn [mbind result_bind].
  replace ((0 <? w) && (0 <? h)) with true
    by (symmetry; apply andb_true_iff; split; apply Z.ltb_lt; lia).
  cbn [mbind result_bind].
  replace (w * h <? 2 ^ 256) with true; [reflexivity |].
  symmetry. apply Z.ltb_lt.
  assert (w * h ≤ 1048576 * 1048576) by nia.
  assert (1048576 * 1048576 < 2 ^ 256) by (vm_compute; reflexivity). lia.
Qed.

(** X12. For unsigned arguments, getRegion returns colors exactly when
    the rectangle is non-empty and lies on the canvas.  Otherwise it
    reverts: for a start coordinate off the canvas with "invalid start
    coordinates", for a rectangle that leaves the canvas with "region out
    of bounds", and for a zero width or height (checked last) with
    "invalid dimensions". *)
Theorem getRegion_accepted_iff_in_bounds
    (st : state) (x y w h : Z)
    (Hx : 0 ≤ x) (Hy : 0 ≤ y) (Hw : 0 ≤ w) (Hh : 0 ≤ h) :
  ((∃ colors, getRegion st x y w h = Ok colors) ↔ in_bounds x y w h)
  ∧ (CANVAS_RES ≤ x ∨ CANVAS_RES ≤ y →
       getRegion st x y w h = Revert "Megaplace: invalid start coordinates")
  ∧ (x < CANVAS_RES → y < CANVAS_RES → x + w < 2 ^ 256 → y + h < 2 ^ 256 →
       CANVAS_RES < x + w ∨ CANVAS_RES < y + h →
       getRegion st x y w h = Revert "Megaplace: region out of bounds")
  ∧ (x + w ≤ CANVAS_RES → y + h ≤ CANVAS_RES → x < CANVAS_RES → y < CANVAS_RES →
       w = 0 ∨ h = 0 →
       getRegion st x y w h = Revert "Megaplace: invalid dimensions").
Proof.
  assert (Hbig : CANVAS_RES < 2 ^ 256) by (vm_compute; reflexivity).
  split; [split | split; [| split]].
  - intros [colors Hrun]. unfold getRegion in Hrun.
    apply bind_Ok_inv in Hrun as ([] & Hstart & Hrun).
    apply bind_Ok_inv in Hrun as (right & Hadd & Hrun).
    apply bind_Ok_inv in Hrun as ([] & Hbounds & Hrun).
    apply bind_Ok_inv in Hrun as ([] & Hdims & Hrun).
    apply require_Ok, valid_coords_iff in Hstart as [Hx' Hy'].
    apply require_Ok, andb_true_iff in Hdims as [Hw' Hh'].
    apply Z.ltb_lt in Hw', Hh'.
    unfold checked_add in Hadd.
    destruct (x + w <? 2 ^ 256); [| discriminate]. injection Hadd as <-.
    destruct (Z.leb_spec (x + w) CANVAS_RES) as [Hr |]; [| discriminate].
    apply bind_Ok_inv in Hbounds as (bottom & Hadd2 & Hbounds).
    unfold checked_add in Hadd2.
    destruct (y + h <? 2 ^ 256); [| discriminate]. injection Hadd2 as <-.
    apply require_Ok, Z.leb_le in Hbounds.
    repeat split; assumption.
  - intros Hin. eexists. apply getRegion_accepts. exact Hin.
  - intros Hoff. unfold getRegion, require.
    replace ((x <? CANVAS_RES) && (y <? CANVAS_RES)) with false; [reflexivity |].
    symmetry. apply andb_false_iff.
    destruct Hoff; [left | right]; apply Z.ltb_ge; assumption.
  - intros Hx' Hy' Hrw Hbh Hout. unfold getRegion, require, checked_add.
    rewrite (proj2 (valid_coords_iff x y) (conj Hx' Hy')). cbn [mbind result_bind].
    replace (x + w <? 2 ^ 256) with true by (symmetry; apply Z.ltb_lt; exact Hrw).
    cbn [mbind result_bind].
    destruct (Z.leb_spec (x + w) CANVAS_RES) as [Hr | Hr]; [| reflexivity].
    replace (y + h <? 2 ^ 256) with true by (symmetry; apply Z.ltb_lt; exact Hbh).
    cbn [mbind result_bind].
    replace (y + h <=? CANVAS_RES) with false by (symmetry; apply Z.leb_gt; lia).
    reflexivity.
  - intros Hr Hb Hx' Hy' Hzero. unfold getRegion, require, checked_add.
    rewrite (proj2 (valid_coords_iff x y) (conj Hx' Hy')). cbn [mbind result_bind].
    replace (x + w <? 2 ^ 256) with true by (symmetry; apply Z.ltb_lt; lia).
    cbn [mbind result_bind].
    replace (x + w <=? CANVAS_RES) with true by (symmetry; apply Z.leb_le; exact Hr).
    replace (y + h <? 2 ^ 256) with true by (symmetry; apply Z.ltb_lt; lia).
    cbn [mbind result_bind].
    replace (y + h <=? CANVAS_RES) with true by (symmetry; apply Z.leb_le; exact Hb).
    cbn [mbind result_bind].
    replace ((0 <? w) && (0 <? h)) with false; [reflexivity |].
    symmetry. apply andb_false_iff.
    destruct Hzero as [-> | ->]; [left | right]; reflexivity.
Qed.

Lemma getRegion_accepted_iff_in_bounds_witness :
  getRegion (mkState 1 ∅ ∅ ∅) 1048575 0 2 1 = Revert "Megaplace: region out of bounds"
  ∧ getRegion (mkState 1 ∅ ∅ ∅) 0 0 0 1 = Revert "Megaplace: invalid dimensions".
Proof.
  split.
  - destruct (getRegion_accepted_iff_in_bounds (mkState 1 ∅ ∅ ∅) 1048575 0 2 1
                ltac:(lia) ltac:(lia) ltac:(lia) ltac:(lia)) as (_ & _ & Hout & _).
    apply Hout; unfold CANVAS_RES; lia.
  - destruct (getRegion_accepted_iff_in_bounds (mkState 1 ∅ ∅ ∅) 0 0 0 1
                ltac:(lia) ltac:(lia) ltac:(lia) ltac:(lia)) as (_ & _ & _ & Hdim).
    apply Hdim; unfold CANVAS_RES; lia.
Defined.

End LedgerReads.

(** * Further properties of the backend routes *)
Section Routes.


Lemma valid_dimensions_iff w h :
  valid_dimensions w h
  ↔ App.isValidDimension w 1000 = true ∧ App.isValidDimension h 1000 = true
    ∧ gt (mul w h) (Int 10000) = false.
Proof.
  rewrite !isValidDimension_spec. unfold valid_dimensions. split.
  - intros (a & b & -> & -> & Ha & Hb & Hab).
    split; [exists a; split; [reflexivity | lia] |].
    split; [exists b; split; [reflexivity | lia] |].
    cbn. apply Z.ltb_ge. exact Hab.
  - intros ((a & -> & Ha) & (b & -> & Hb) & Harea).
    cbn in Harea. apply Z.ltb_ge in Harea.
    exists a, b. repeat split; lia.
Qed.

Lemma get_region_accepts_iff (el : EventListener) (startX startY width height : number) :
  let r := App.get_region el startX startY width height in
  (status r = 200
     ↔ valid_coordinate startX ∧ valid_coordinate startY ∧ valid_dimensions width height)
  ∧ (status r = 200 ∨ status r = 400)
  ∧ (¬ (valid_coordinate startX ∧ valid_coordinate startY) →
       r = App.errorResponse 400
             "Invalid start coordinates. Must be integers between 0 and 1048575.")
  ∧ (valid_coordinate startX → valid_coordinate startY →
       ¬ (App.isValidDimension width 1000 = true ∧ App.isValidDimension height 1000 = true) →
       r = App.errorResponse 400 "Invalid dimensions. Must be integers between 1 and 1000.").
Proof.
  intros r. subst r. unfold App.get_region.
  rewrite valid_dimensions_iff, <- !isValidCoordinate_spec.
  destruct (App.isValidCoordinate startX), (App.isValidCoordinate startY);
    cbn [negb orb];
    try (split; [split; [discriminate | intros (? & ? & _); discriminate] |];
         split; [right; reflexivity |];
         split; [reflexivity | intros; discriminate]).
  destruct (App.isValidDimension width 1000), (App.isValidDimension height 1000);
    cbn [negb orb];
    try (split; [split; [discriminate | intros (_ & _ & ? & ? & _); discriminate] |];
         split; [right; reflexivity |];
         split; [intros Hn; exfalso; apply Hn; split; reflexivity | reflexivity]).
  destruct (gt (mul width height) (Int 10000)).
  - split; [split; [discriminate | intros (_ & _ & _ & _ & ?); discriminate] |].
    split; [right; reflexivity |].
    split; [intros Hn; exfalso; apply Hn; split; reflexivity |].
    intros _ _ Hn. exfalso. apply Hn. split; reflexivity.
  - split; [split; [intros _; repeat split | reflexivity] |].
    split; [left; reflexivity |].
    split; [intros Hn; exfalso; apply Hn; split; reflexivity |].
    intros _ _ Hn. exfalso. apply Hn. split; reflexivity.
Qed.

Lemma valid_dimensions_toNumber (c d : Z) :
  valid_dimensions (toNumber c) (toNumber d)
  ↔ 1 ≤ c ≤ 1000 ∧ 1 ≤ d ≤ 1000 ∧ c * d ≤ 10000.
Proof.
  unfold valid_dimensions. split.
  - intros (a & b & Ha & Hb & Hra & Hrb & Harea).
    assert (Hc : 1 ≤ c < 1001)
      by (apply (toNumber_in_range c 1 1001); [lia | lia | exists a; split; [exact Ha | lia]]).
    assert (Hd : 1 ≤ d < 1001)
      by (apply (toNumber_in_range d 1 1001); [lia | lia | exists b; split; [exact Hb | lia]]).
    rewrite toNumber_exact in Ha by lia. rewrite toNumber_exact in Hb by lia.
    injection Ha as <-. injection Hb as <-. lia.
  - intros (Hc & Hd & Harea). exists c, d.
    rewrite !toNumber_exact by lia. repeat split; lia.
Qed.

(** X13. The region route of app.ts answers 200 exactly when the
    integers that [parseInt] reads at the head of its four path
    parameters are start coordinates of [0, 1048576) and dimensions from
    1 to 1000 of an area of at most 10000, and 400 otherwise; a bad
    start coordinate decides the message before a bad dimension.  A
    parameter that starts with a decimal numeral is read as that integer
    whatever follows the numeral, so requests with decimal integer
    parameters are accepted exactly within those bounds, and a parameter
    that goes on after a numeral is not refused for it. *)
Theorem region_route_accepts_iff
    (el : EventListener) (startX startY width height : list Z) :
  let r := App.region_route el startX startY width height in
  (status r = 200
     ↔ valid_coordinate (parseInt startX) ∧ valid_coordinate (parseInt startY)
       ∧ valid_dimensions (parseInt width) (parseInt height))
  ∧ (status r = 200 ∨ status r = 400)
  ∧ (¬ (valid_coordinate (parseInt startX) ∧ valid_coordinate (parseInt startY)) →
       r = App.errorResponse 400
             "Invalid start coordinates. Must be integers between 0 and 1048575.")
  ∧ (valid_coordinate (parseInt startX) → valid_coordinate (parseInt startY) →
       ¬ (App.isValidDimension (parseInt width) 1000 = true
          ∧ App.isValidDimension (parseInt height) 1000 = true) →
       r = App.errorResponse 400 "Invalid dimensions. Must be integers between 1 and 1000.")
  ∧ (∀ a b c d ra rb rc rd, stops ra → stops rb → stops rc → stops rd →
       startX = codeUnits (pretty a) ++ ra → startY = codeUnits (pretty b) ++ rb →
       width = codeUnits (pretty c) ++ rc → height = codeUnits (pretty d) ++ rd →
       r = App.get_region el (toNumber a) (toNumber b) (toNumber c) (toNumber d)
       ∧ (status r = 200
            ↔ 0 ≤ a < RES ∧ 0 ≤ b < RES ∧ 1 ≤ c ≤ 1000 ∧ 1 ≤ d ≤ 1000 ∧ c * d ≤ 10000)).
Proof.
  intros r. subst r. unfold App.region_route. cbv zeta.
  destruct (get_region_accepts_iff el (parseInt startX) (parseInt startY)
              (parseInt width) (parseInt height)) as (Hiff & Hst & Hstart & Hdim).
  split; [exact Hiff |]. split; [exact Hst |]. split; [exact Hstart |].
  split; [exact Hdim |].
  intros a b c d ra rb rc rd Hra Hrb Hrc Hrd -> -> -> ->.
  rewrite Hiff.
  rewrite (valid_coordinate_parsed _ a ra Hra eq_refl).
  rewrite (valid_coordinate_parsed _ b rb Hrb eq_refl).
  rewrite !parseInt_decimal by assumption.
  rewrite valid_dimensions_toNumber.
  split; [reflexivity | tauto].
Qed.




End Routes.

(** * The storage key *)
Section Keys.

Lemma pretty_N_char_no_comma (d : N) :
  Ascii.eqb (pretty_N_char d) (Ascii.ascii_of_nat 44) = false.
Proof. unfold pretty_N_char. repeat case_match; reflexivity. Qed.

Lemma pretty_N_go_no_comma (n : N) : ∀ s,
  has_comma s = false → has_comma (pretty_N_go n s) = false.
Proof.
  induction (N.lt_wf_0 n) as [n _ IH]; intros s Hs.
  destruct (decide (n = 0)%N) as [-> | Hn].
  - rewrite pretty_N_go_0. exact Hs.
  - rewrite pretty_N_go_step by lia. apply IH.
    + apply N.div_lt; lia.
    + cbn [has_comma]. rewrite pretty_N_char_no_comma. exact Hs.
Qed.

Lemma pretty_N_no_comma (n : N) : has_comma (pretty n) = false.
Proof.
  unfold pretty, pretty_N. destruct (decide (n = 0)%N); [reflexivity |].
  apply pretty_N_go_no_comma. reflexivity.
Qed.

Lemma pretty_Z_no_comma (z : Z) : has_comma (pretty z) = false.
Proof.
  destruct z as [| p | p]; [reflexivity | apply pretty_N_no_comma |].
  change (pretty (Z.neg p)) with ("-" +:+ pretty (N.pos p)).
  cbn [String.append has_comma]. apply pretty_N_no_comma.
Qed.

Lemma split_at_first_comma (s1 : string) : ∀ s2 t1 t2,
  has_comma s1 = false → has_comma s2 = false →
  s1 +:+ "," +:+ t1 = s2 +:+ "," +:+ t2 → s1 = s2 ∧ t1 = t2.
Proof.
  induction s1 as [| c s1 IH]; intros s2 t1 t2 H1 H2 Heq.
  - destruct s2 as [| d s2]; cbv [String.append] in Heq; fold String.append in Heq.
    + injection Heq as Heq. subst t2. split; reflexivity.
    + injection Heq as Hd _. subst d. simpl in H2. discriminate H2.
  - destruct s2 as [| d s2]; cbv [String.append] in Heq; fold String.append in Heq.
    + injection Heq as Hc _. subst c. simpl in H1. discriminate H1.
    + injection Heq as Hc Heq. subst d. simpl in H1, H2.
      destruct (Ascii.eqb c (Ascii.ascii_of_nat 44)); [discriminate |].
      destruct (IH s2 t1 t2 H1 H2 Heq) as [-> ->]. split; reflexivity.
Qed.

Lemma pixelKey_eq_inv (x1 y1 x2 y2 : Z) :
  pixelKey (Int x1) (Int y1) = pixelKey (Int x2) (Int y2) → x1 = x2 ∧ y1 = y2.
Proof.
  unfold pixelKey. cbn [toString]. intros Heq.
  apply split_at_first_comma in Heq as [Hx Hy]; try apply pretty_Z_no_comma.
  split; [apply (inj pretty); exact Hx | apply (inj pretty); exact Hy].
Qed.

(** X16. The storage key ["x,y"] determines the coordinates as long as
    they are integers a Number holds exactly, of magnitude up to 2^53:
    two different pairs never share a key, so writing the record of one
    coordinate leaves the lookup of every other one as it was.  Beyond
    that, Number(event.x) rounds, and 2^53 + 1 gets the key of 2^53. *)
Theorem pixelKey_injective (x1 y1 x2 y2 : Z) (allPixels : gmap string PixelData)
    (p : PixelData)
    (Hx1 : Z.abs x1 ≤ 2 ^ 53) (Hy1 : Z.abs y1 ≤ 2 ^ 53)
    (Hx2 : Z.abs x2 ≤ 2 ^ 53) (Hy2 : Z.abs y2 ≤ 2 ^ 53) :
  (pixelKey (toNumber x1) (toNumber y1) = pixelKey (toNumber x2) (toNumber y2)
     ↔ x1 = x2 ∧ y1 = y2)
  ∧ ((x1, y1) ≠ (x2, y2) →
       <[pixelKey (toNumber x1) (toNumber y1) := p]> allPixels
         !! pixelKey (toNumber x2) (toNumber y2)
       = allPixels !! pixelKey (toNumber x2) (toNumber y2))
  ∧ <[pixelKey (toNumber x1) (toNumber y1) := p]> allPixels
      !! pixelKey (toNumber x1) (toNumber y1) = Some p
  ∧ pixelKey (toNumber (2 ^ 53 + 1)) (toNumber 0) = pixelKey (toNumber (2 ^ 53)) (toNumber 0).
Proof.
  rewrite !toNumber_exact by assumption.
  split; [split; [apply pixelKey_eq_inv | intros [-> ->]; reflexivity] |].
  split; [| split; [apply lookup_insert_eq | vm_compute; reflexivity]].
  intros Hne. apply lookup_insert_ne. intros Heq.
  apply pixelKey_eq_inv in Heq as [-> ->]. apply Hne. reflexivity.
Qed.

Lemma pixelKey_injective_witness :
  pixelKey (toNumber 3) (toNumber 4) ≠ pixelKey (toNumber 4) (toNumber 3)
  ∧ (<[pixelKey (toNumber 3) (toNumber 4) := red]> ∅ : gmap string PixelData)
      !! pixelKey (toNumber 4) (toNumber 3) = None.
Proof.
  assert (H3 : Z.abs 3 ≤ 2 ^ 53) by (vm_compute; discriminate).
  assert (H4 : Z.abs 4 ≤ 2 ^ 53) by (vm_compute; discriminate).
  destruct (pixelKey_injective 3 4 4 3 ∅ red H3 H4 H4 H3) as (Hiff & Hframe & _).
  split.
  - intros Heq. apply Hiff in Heq. lia.
  - rewrite Hframe; [reflexivity | intros [= ? ?]; lia].
Defined.

End Keys.

(** * Further properties of the frontend *)
Section Decoder.

Import BackendApi.

Lemma getUint32_Some_iff (buffer : list Z) (offset : nat) :
  is_Some (getUint32 buffer offset) ↔ (offset + 4 ≤ length buffer)%nat.
Proof.
  unfold getUint32.
  pose proof (length_drop buffer offset) as Hlen.
  destruct (drop offset buffer) as [| b0 [| b1 [| b2 [| b3 rest]]]]; cbn in Hlen;
    (split; [intros [v Hv]; try discriminate Hv; lia | intros H; try lia; eexists; reflexivity]).
Qed.

Lemma getUint32_None (buffer : list Z) (offset : nat) :
  (length buffer < offset + 4)%nat → getUint32 buffer offset = None.
Proof.
  intros Hlt. destruct (getUint32 buffer offset) eqn:Hr; [| reflexivity].
  assert (Hs : is_Some (getUint32 buffer offset)) by (rewrite Hr; eexists; reflexivity).
  apply getUint32_Some_iff in Hs. lia.
Qed.

Lemma decodeLoop_fits (buffer : list Z) (n : nat) : ∀ i,
  ((i + n) * 12 ≤ length buffer)%nat →
  ∃ l, decodeLoop buffer i n = Some l ∧ length l = n
       ∧ ∀ k d, l !! k = Some d →
           getUint32 buffer ((i + k) * 12) = Some (x d)
           ∧ getUint32 buffer ((i + k) * 12 + 4) = Some (y d)
           ∧ getUint32 buffer ((i + k) * 12 + 8) = Some (color d)
           ∧ placedBy d = "" ∧ timestamp d = 0.
Proof.
  induction n as [| n IH]; intros i Hfit.
  - exists []. split; [reflexivity |]. split; [reflexivity |].
    intros k d Hk. discriminate Hk.
  - destruct (IH (S i)) as (rest & Hrest & Hlen & Hnth); [lia |].
    destruct (proj2 (getUint32_Some_iff buffer (i * 12)) ltac:(lia)) as [vx Hx].
    destruct (proj2 (getUint32_Some_iff buffer (i * 12 + 4)) ltac:(lia)) as [vy Hy].
    destruct (proj2 (getUint32_Some_iff buffer (i * 12 + 8)) ltac:(lia)) as [vc Hc].
    cbn [decodeLoop]. rewrite Hx. cbn [mbind option_bind]. rewrite Hy. cbn [mbind option_bind].
    rewrite Hc. cbn [mbind option_bind]. rewrite Hrest. cbn [mbind option_bind].
    eexists. split; [reflexivity |]. split; [cbn; lia |].
    intros [| k] d Hd.
    + cbn in Hd. injection Hd as <-. cbn [x y color placedBy timestamp].
      rewrite Nat.add_0_r. repeat split; assumption.
    + cbn in Hd. replace (i + S k)%nat with (S i + k)%nat by lia. apply Hnth. exact Hd.
Qed.

Lemma decodeLoop_overruns (buffer : list Z) (n : nat) : ∀ i,
  (length buffer < (i + S n) * 12)%nat → decodeLoop buffer i (S n) = None.
Proof.
  induction n as [| n IH]; intros i Hover.
  - cbn [decodeLoop].
    destruct (getUint32 buffer (i * 12)); cbn [mbind option_bind]; [| reflexivity].
    destruct (getUint32 buffer (i * 12 + 4)); cbn [mbind option_bind]; [| reflexivity].
    rewrite getUint32_None by lia. reflexivity.
  - specialize (IH (S i) ltac:(lia)).
    change (decodeLoop buffer i (S (S n)))
      with (x ← getUint32 buffer (i * 12) ;
            y ← getUint32 buffer (i * 12 + 4) ;
            color ← getUint32 buffer (i * 12 + 8) ;
            rest ← decodeLoop buffer (S i) (S n) ;
            Some (mkBackendPixelData x y color "" 0 :: rest)).
    rewrite IH.
    destruct (getUint32 buffer (i * 12)); cbn [mbind option_bind]; [| reflexivity].
    destruct (getUint32 buffer (i * 12 + 4)); cbn [mbind option_bind]; [| reflexivity].
    destruct (getUint32 buffer (i * 12 + 8)); reflexivity.
Qed.

(** X17. The binary decoder returns records exactly when the length of
    the body is a multiple of 12, one record per 12 bytes and record [k]
    read from the three little-endian words at byte [12 k], with an empty
    placer and timestamp 0; on any other length it throws, which sends
    fetchAllPixelsBinary to the JSON route. *)
Theorem decodePixels_needs_whole_records (buffer : list Z) :
  ((length buffer mod 12 = 0)%nat →
     ∃ l, decodePixels buffer = Some l
          ∧ length l = (length buffer / 12)%nat
          ∧ ∀ k d, l !! k = Some d →
              getUint32 buffer (k * 12) = Some (x d)
              ∧ getUint32 buffer (k * 12 + 4) = Some (y d)
              ∧ getUint32 buffer (k * 12 + 8) = Some (color d)
              ∧ placedBy d = "" ∧ timestamp d = 0)
  ∧ ((length buffer mod 12 ≠ 0)%nat → decodePixels buffer = None).
Proof.
  unfold decodePixels.
  pose proof (Nat.div_mod_eq (length buffer) 12) as Hdm.
  pose proof (Nat.mod_upper_bound (length buffer) 12 ltac:(lia)) as Hr.
  split.
  - intros Hmod. rewrite Hmod in Hdm.
    replace ((length buffer + 11) / 12)%nat with (length buffer / 12)%nat.
    + destruct (decodeLoop_fits buffer (length buffer / 12) 0 ltac:(lia))
        as (l & Hl & Hlen & Hnth).
      exists l. split; [exact Hl |]. split; [exact Hlen |]. exact Hnth.
    + apply (Nat.div_unique _ _ _ 11); lia.
  - intros Hmod.
    replace ((length buffer + 11) / 12)%nat with (S (length buffer / 12)).
    + apply decodeLoop_overruns. lia.
    + apply (Nat.div_unique _ _ _ (length buffer mod 12 - 1)); lia.
Qed.

End Decoder.

Section Colors.

Import UseMegaplace.

Lemma toInt32_small v : 0 ≤ v < 2 ^ 31 → toInt32 v = v.
Proof. intros Hv. unfold toInt32. rewrite Z.mod_small by lia. lia. Qed.

Lemma toInt32_mod_256 v : toInt32 v mod 256 = v mod 256.
Proof.
  unfold toInt32. change (2 ^ 31) with 2147483648. change (2 ^ 32) with 4294967296.
  Z.div_mod_to_equations. lia.
Qed.

Lemma toInt32_shift_mod_256 v k :
  k = 8 ∨ k = 16 → (toInt32 v / 2 ^ k) mod 256 = (v / 2 ^ k) mod 256.
Proof.
  unfold toInt32. change (2 ^ 31) with 2147483648. change (2 ^ 32) with 4294967296.
  intros [-> | ->];
    [change (2 ^ 8) with 256 | change (2 ^ 16) with 65536];
    Z.div_mod_to_equations; lia.
Qed.

Lemma band_255 a : band a 255 = a mod 256.
Proof.
  unfold band. rewrite (toInt32_small 255) by (vm_compute; split; congruence).
  change 255 with (Z.ones 8). rewrite Z.land_ones by lia. change (2 ^ 8) with 256.
  rewrite toInt32_mod_256.
  apply toInt32_small. pose proof (Z.mod_pos_bound a 256 ltac:(lia)).
  change (2 ^ 31) with 2147483648. lia.
Qed.

Lemma sar_band_255 c k :
  k = 8 ∨ k = 16 → band (sar c k) 255 = (c / 2 ^ k) mod 256.
Proof.
  intros Hk. rewrite band_255. unfold sar.
  rewrite Z.shiftr_div_pow2 by (destruct Hk; lia).
  apply toInt32_shift_mod_256. exact Hk.
Qed.

Lemma small_high_bits b k n : 0 ≤ b < 2 ^ k → 0 ≤ k ≤ n → Z.testbit b n = false.
Proof.
  intros [Hlo Hhi] Hn.
  destruct (Z.eq_dec b 0) as [-> | Hnz]; [apply Z.bits_0 |].
  apply Z.bits_above_log2; [exact Hlo |].
  assert (Z.log2 b < k) by (apply Z.log2_lt_pow2; lia). lia.
Qed.

Lemma lor_shifted_small a b k :
  0 ≤ k → 0 ≤ b < 2 ^ k → Z.lor (a * 2 ^ k) b = a * 2 ^ k + b.
Proof.
  intros Hk Hb.
  assert (Hdisjoint : Z.land (a * 2 ^ k) b = 0).
  { apply Z.bits_inj'. intros n Hn. rewrite Z.land_spec, Z.bits_0.
    destruct (Z_lt_le_dec n k) as [Hlt | Hge].
    - rewrite Z.mul_pow2_bits_low by lia. reflexivity.
    - rewrite (small_high_bits b k n) by lia. apply andb_false_r. }
  rewrite <- Z.lxor_lor by exact Hdisjoint.
  symmetry. apply Z.add_nocarry_lxor. exact Hdisjoint.
Qed.

Lemma rgbToUint32_value r g b :
  rgbToUint32 r g b = (r mod 256) * 65536 + (g mod 256) * 256 + b mod 256.
Proof.
  unfold rgbToUint32. rewrite !band_255.
  pose proof (Z.mod_pos_bound r 256 ltac:(lia)) as Hr.
  pose proof (Z.mod_pos_bound g 256 ltac:(lia)) as Hg.
  pose proof (Z.mod_pos_bound b 256 ltac:(lia)) as Hb.
  set (R := r mod 256) in *. set (G := g mod 256) in *. set (B := b mod 256) in *.
  assert (H31 : 2 ^ 31 = 2147483648) by reflexivity.
  assert (Hshl16 : shl R 16 = R * 65536).
  { unfold shl. rewrite (toInt32_small R) by lia.
    rewrite Z.shiftl_mul_pow2 by lia. change (2 ^ 16) with 65536.
    apply toInt32_small. lia. }
  assert (Hshl8 : shl G 8 = G * 256).
  { unfold shl. rewrite (toInt32_small G) by lia.
    rewrite Z.shiftl_mul_pow2 by lia. change (2 ^ 8) with 256.
    apply toInt32_small. lia. }
  rewrite Hshl16, Hshl8.
  assert (Hor1 : bor (R * 65536) (G * 256) = R * 65536 + G * 256).
  { unfold bor. rewrite (toInt32_small (R * 65536)), (toInt32_small (G * 256)) by lia.
    change 65536 with (2 ^ 16).
    rewrite lor_shifted_small by (change (2 ^ 16) with 65536; lia).
    apply toInt32_small. change (2 ^ 16) with 65536. lia. }
  rewrite Hor1.
  assert (Hor2 : bor (R * 65536 + G * 256) B = R * 65536 + G * 256 + B).
  { unfold bor. rewrite (toInt32_small (R * 65536 + G * 256)), (toInt32_small B) by lia.
    replace (R * 65536 + G * 256) with ((R * 256 + G) * 2 ^ 8)
      by (change (2 ^ 8) with 256; lia).
    rewrite lor_shifted_small by (change (2 ^ 8) with 256; lia).
    apply toInt32_small. change (2 ^ 8) with 256. lia. }
  rewrite Hor2. unfold toUint32. apply Z.mod_small.
  change (2 ^ 32) with 4294967296. lia.
Qed.

Lemma uint32ToRgb_exact c :
  Z.abs c ≤ 2 ^ 53 →
  uint32ToRgb c = ((c / 65536) mod 256, (c / 256) mod 256, c mod 256).
Proof.
  intros Hc. unfold uint32ToRgb. rewrite (toNumber_exact c Hc). cbn [int32].
  rewrite !sar_band_255 by auto. rewrite band_255.
  rewrite !toInt32_shift_mod_256 by auto. rewrite toInt32_mod_256.
  reflexivity.
Qed.

(** X18. rgbToUint32 packs the low bytes of its integer arguments as
    0xRRGGBB, a value below 2^24, and uint32ToRgb reads them back:
    unpacking a packed color gives the three bytes.  Packing an unpacked
    color gives the color without what lies above its low 24 bits, for a
    color that a Number holds exactly; so the two are inverse on byte
    channels and on colors below 2^24.  A bigint beyond 2^53 is rounded
    by Number(color) first: 2^53 + 1 unpacks to (0, 0, 0). *)
Theorem rgb_pack_unpack (r g b c : Z) :
  uint32ToRgb (rgbToUint32 r g b) = (r mod 256, g mod 256, b mod 256)
  ∧ (Z.abs c ≤ 2 ^ 53 →
       rgbToUint32 (uint32ToRgb c).1.1 (uint32ToRgb c).1.2 (uint32ToRgb c).2 = c mod 2 ^ 24)
  ∧ 0 ≤ rgbToUint32 r g b < 2 ^ 24
  ∧ (0 ≤ r < 256 → 0 ≤ g < 256 → 0 ≤ b < 256 →
       uint32ToRgb (rgbToUint32 r g b) = (r, g, b))
  ∧ (0 ≤ c < 2 ^ 24 →
       rgbToUint32 (uint32ToRgb c).1.1 (uint32ToRgb c).1.2 (uint32ToRgb c).2 = c)
  ∧ uint32ToRgb (2 ^ 53 + 1) = (0, 0, 0).
Proof.
  assert (Hrange : 0 ≤ rgbToUint32 r g b < 2 ^ 24).
  { rewrite rgbToUint32_value. change (2 ^ 24) with 16777216.
    pose proof (Z.mod_pos_bound r 256 ltac:(lia)).
    pose proof (Z.mod_pos_bound g 256 ltac:(lia)).
    pose proof (Z.mod_pos_bound b 256 ltac:(lia)). lia. }
  assert (Hunpack : uint32ToRgb (rgbToUint32 r g b) = (r mod 256, g mod 256, b mod 256)).
  { rewrite uint32ToRgb_exact by (change (2 ^ 24) with 16777216 in Hrange;
                                  change (2 ^ 53) with 9007199254740992; lia).
    rewrite rgbToUint32_value.
    pose proof (Z.mod_pos_bound r 256 ltac:(lia)).
    pose proof (Z.mod_pos_bound g 256 ltac:(lia)).
    pose proof (Z.mod_pos_bound b 256 ltac:(lia)).
    set (R := r mod 256) in *. set (G := g mod 256) in *. set (B := b mod 256) in *.
    f_equal; [f_equal |]; Z.div_mod_to_equations; lia. }
  assert (Hpack : Z.abs c ≤ 2 ^ 53 →
                  rgbToUint32 (uint32ToRgb c).1.1 (uint32ToRgb c).1.2 (uint32ToRgb c).2
                  = c mod 2 ^ 24).
  { intros Hc. rewrite (uint32ToRgb_exact c Hc), rgbToUint32_value. cbn [fst snd].
    change (2 ^ 24) with 16777216. Z.div_mod_to_equations. lia. }
  split; [exact Hunpack |]. split; [exact Hpack |].
  split; [exact Hrange |].
  split; [| split].
  - intros Hr Hg Hb. rewrite Hunpack, !Z.mod_small by lia. reflexivity.
  - intros Hc. rewrite Hpack.
    + apply Z.mod_small. exact Hc.
    + change (2 ^ 24) with 16777216 in Hc. change (2 ^ 53) with 9007199254740992. lia.
  - vm_compute. reflexivity.
Qed.

End Colors.

Section RecentPixels.

Import UseMegaplace.

Lemma existsb_head_self (e : PixelPlacedEvent) (l : list PixelPlacedEvent) :
  existsb (λ p, (x p =? x e) && (y p =? y e) && (timestamp p =? timestamp e)) (e :: l) = true.
Proof. cbn [existsb]. rewrite !Z.eqb_refl. reflexivity. Qed.

(** X19. The recent-pixels list stays within 20 entries; a new event
    goes to the front; an event already listed (same x, y and timestamp)
    changes nothing, so handing the same event in twice is the same as
    once. *)
Theorem addRecent_bounded_and_idempotent
    (event : PixelPlacedEvent) (prev : list PixelPlacedEvent)
    (Hprev : (length prev ≤ 20)%nat) :
  (length (addRecent event prev) ≤ 20)%nat
  ∧ addRecent event (addRecent event prev) = addRecent event prev
  ∧ ((∀ p, p ∈ prev → ¬ (x p = x event ∧ y p = y event ∧ timestamp p = timestamp event)) →
       addRecent event prev = event :: take 19 prev)
  ∧ ((∃ p, p ∈ prev ∧ x p = x event ∧ y p = y event ∧ timestamp p = timestamp event) →
       addRecent event prev = prev).
Proof.
  destruct (existsb (λ p, (x p =? x event) && (y p =? y event)
                          && (timestamp p =? timestamp event)) prev) eqn:Hdup.
  - assert (Hr : addRecent event prev = prev)
      by (unfold addRecent; rewrite Hdup; reflexivity).
    rewrite !Hr.
    split; [exact Hprev |]. split; [reflexivity |]. split; [| reflexivity].
    intros Hnone. exfalso. apply existsb_exists in Hdup as (p & Hin & Hp).
    apply andb_true_iff in Hp as [Hp Ht]. apply andb_true_iff in Hp as [Hx Hy].
    apply Z.eqb_eq in Hx, Hy, Ht.
    apply (Hnone p); [apply list_elem_of_In; exact Hin | repeat split; assumption].
  - assert (Hr : addRecent event prev = event :: take 19 prev)
      by (unfold addRecent; rewrite Hdup; reflexivity).
    rewrite !Hr.
    split; [cbn [length]; rewrite length_take; lia |].
    split; [unfold addRecent; rewrite existsb_head_self; reflexivity |].
    split; [reflexivity |].
    intros (p & Hin & Hx & Hy & Ht). exfalso.
    assert (Htrue : existsb (λ p, (x p =? x event) && (y p =? y event)
                                  && (timestamp p =? timestamp event)) prev = true).
    { apply existsb_exists. exists p. split; [apply list_elem_of_In; exact Hin |].
      rewrite Hx, Hy, Ht, !Z.eqb_refl. reflexivity. }
    congruence.
Qed.

Lemma addRecent_bounded_and_idempotent_witness :
  let e := mkPixelPlacedEvent "0xa" 1 2 255 100 in
  addRecent e (addRecent e []) = [e].
Proof.
  intros e.
  destruct (addRecent_bounded_and_idempotent e [] ltac:(cbn; lia)) as (_ & Hidem & _).
  rewrite Hidem. reflexivity.
Defined.

Lemma polls_from_positive (heads : list Z) : ∀ last,
  0 < last →
  blocks (polls last heads).1 = seqZ (last + 1) ((polls last heads).2 - last)
  ∧ last ≤ (polls last heads).2
  ∧ (∀ h, h ∈ heads → h ≤ (polls last heads).2)
  ∧ ((polls last heads).2 = last ∨ (polls last heads).2 ∈ heads).
Proof.
  induction heads as [| h heads IH]; intros last Hlast.
  - cbn. rewrite Z.sub_diag. repeat split; [lia | | left; reflexivity].
    intros h Hh. inversion Hh.
  - cbn [polls]. unfold pollForNewEvents.
    replace (last =? 0) with false by (symmetry; apply Z.eqb_neq; lia).
    destruct (Z.leb_spec (last + 1) h) as [Hnew | Hold]; cbn [fst snd].
    + destruct (IH h ltac:(lia)) as (Hblocks & Hle & Hmax & Hfinal).
      split; [| split; [lia | split]].
      * unfold blocks in *. cbn [flat_map fst snd]. rewrite Hblocks.
        replace (h + 1) with (last + 1 + (h - (last + 1) + 1)) by lia.
        rewrite <- seqZ_app by lia. f_equal; lia.
      * intros h' Hh'. apply elem_of_cons in Hh' as [-> | Hh']; [exact Hle | apply Hmax, Hh'].
      * right. destruct Hfinal as [-> | Hin]; [left | right; exact Hin].
    + destruct (IH last Hlast) as (Hblocks & Hle & Hmax & Hfinal).
      split; [exact Hblocks |]. split; [exact Hle |]. split.
      * intros h' Hh'. apply elem_of_cons in Hh' as [-> | Hh']; [lia | apply Hmax, Hh'].
      * destruct Hfinal as [-> | Hin]; [left; reflexivity | right; right; exact Hin].
Qed.

(** X20. The event poll asks for every block once: from a reference
    block [last > 0], whatever heads the successive polls see, the ranges
    asked for are, in order and without gap or repetition, the blocks
    [last + 1] to the final reference, which is the highest head seen (or
    [last] if none was higher); a head that is not ahead asks for
    nothing.  The first poll of a fresh hook asks for the head block only. *)
Theorem polls_cover_each_block_once (last : Z) (heads : list Z) (Hlast : 0 < last) :
  blocks (polls last heads).1 = seqZ (last + 1) ((polls last heads).2 - last)
  ∧ last ≤ (polls last heads).2
  ∧ (∀ h, h ∈ heads → h ≤ (polls last heads).2)
  ∧ ((polls last heads).2 = last ∨ (polls last heads).2 ∈ heads)
  ∧ (∀ h, h ≤ last → pollForNewEvents last h = (None, last))
  ∧ blocks (polls 0 (last :: heads)).1 = seqZ last ((polls last heads).2 - last + 1).
Proof.
  destruct (polls_from_positive heads last Hlast) as (Hblocks & Hle & Hmax & Hfinal).
  split; [exact Hblocks |]. split; [exact Hle |]. split; [exact Hmax |].
  split; [exact Hfinal |]. split.
  - intros h Hh. unfold pollForNewEvents.
    replace (last =? 0) with false by (symmetry; apply Z.eqb_neq; lia).
    replace (last + 1 <=? h) with false by (symmetry; apply Z.leb_gt; lia).
    reflexivity.
  - cbn [polls]. unfold pollForNewEvents. rewrite Z.eqb_refl, Z.leb_refl. cbn [fst snd].
    unfold blocks in *. cbn [flat_map fst snd]. rewrite Hblocks.
    replace (last - last + 1) with 1 by lia.
    replace (last + 1) with (last + 1) at 1 by reflexivity.
    rewrite <- (seqZ_app last 1) by lia. f_equal; lia.
Qed.

Lemma polls_cover_each_block_once_witness :
  blocks (polls 10 [12; 11; 15]).1 = [11; 12; 13; 14; 15].
Proof.
  destruct (polls_cover_each_block_once 10 [12; 11; 15] ltac:(lia)) as (Hblocks & _).
  rewrite Hblocks. reflexivity.
Defined.

(** X23. The check of the batch hook passes exactly when the contract's
    two array checks would: the three arrays have one length between 1
    and 100.  A batch the hook lets through is therefore never reverted
    for a length mismatch or for its size, and a batch it refuses would
    have been reverted by the contract for one of those. *)
Theorem batch_hook_check_matches_contract (xs ys cs : list Z) :
  (placePixelBatch_check xs ys cs = None
     ↔ length xs = length ys ∧ length xs = length cs ∧ (1 ≤ length xs ≤ 100)%nat)
  ∧ (placePixelBatch_check xs ys cs = None →
       ∀ st e, Contract.placePixelBatch st e xs ys cs
               ≠ Contract.Revert "Megaplace: array length mismatch"
               ∧ Contract.placePixelBatch st e xs ys cs
                 ≠ Contract.Revert "Megaplace: batch size must be 1-100")
  ∧ (placePixelBatch_check xs ys cs ≠ None →
       ∀ st e, Contract.placePixelBatch st e xs ys cs
               = Contract.Revert "Megaplace: array length mismatch"
               ∨ Contract.placePixelBatch st e xs ys cs
                 = Contract.Revert "Megaplace: batch size must be 1-100").
Proof.
  assert (Hiff : placePixelBatch_check xs ys cs = None
                 ↔ length xs = length ys ∧ length xs = length cs
                   ∧ (1 ≤ length xs ≤ 100)%nat).
  { unfold placePixelBatch_check.
    destruct (Nat.eqb_spec (length xs) (length ys)) as [Hy | Hy]; cbn [negb orb];
      [| split; [discriminate | intros (? & _); contradiction]].
    destruct (Nat.eqb_spec (length xs) (length cs)) as [Hc | Hc]; cbn [negb orb];
      [| split; [discriminate | intros (_ & ? & _); contradiction]].
    destruct (Nat.eqb_spec (length xs) 0) as [H0 | H0]; cbn [orb];
      [split; [discriminate | intros (_ & _ & ?); lia] |].
    destruct (Nat.ltb_spec 100 (length xs)) as [H100 | H100];
      [split; [discriminate | intros (_ & _ & ?); lia] |].
    split; [intros _; repeat split; (assumption || lia) | reflexivity]. }
  split; [exact Hiff |]. split.
  - intros Hok st e. apply Hiff in Hok as (Hy & Hc & Hsize).
    unfold Contract.placePixelBatch, Contract.require.
    replace ((Z.of_nat (length xs) =? Z.of_nat (length ys))
             && (Z.of_nat (length xs) =? Z.of_nat (length cs))) with true
      by (symmetry; apply andb_true_iff; split; apply Z.eqb_eq; lia).
    cbn [mbind Contract.result_bind].
    replace ((0 <? Z.of_nat (length xs)) && (Z.of_nat (length xs) <=? 100)) with true
      by (symmetry; apply andb_true_iff; split; [apply Z.ltb_lt | apply Z.leb_le]; lia).
    cbn [mbind Contract.result_bind].
    unfold Contract.rateLimit, Contract.checked_add, Contract.require.
    destruct (Contract.premiumAccess_at st (Contract.msg_sender e)
              <? Contract.uint64 (Contract.block_timestamp e)).
    + destruct (Contract.lastPlaced_at st (Contract.msg_sender e) + 15 <? 2 ^ 64);
        cbn [mbind Contract.result_bind]; [| split; discriminate].
      destruct (Contract.lastPlaced_at st (Contract.msg_sender e) + 15
                <=? Contract.uint64 (Contract.block_timestamp e));
        cbn [mbind Contract.result_bind]; [| split; discriminate].
      destruct (Contract.placeBatchLoop _ _ xs ys cs _ _) as [r | m | c] eqn:Hloop;
        cbn [mbind Contract.result_bind]; [split; discriminate | | split; discriminate].
      assert (m = "Megaplace: invalid coordinates") as ->; [| split; discriminate].
      clear -Hloop. revert Hloop.
      generalize (Contract.canvas st). generalize (@nil Contract.event).
      revert ys cs. induction xs as [| x xs IH]; intros ys cs emitted cv Hloop;
        [discriminate |].
      destruct ys as [| y ys]; [discriminate |]. destruct cs as [| c cs]; [discriminate |].
      cbn [Contract.placeBatchLoop] in Hloop. unfold Contract.require in Hloop.
      destruct ((x <? Contract.CANVAS_RES) && (y <? Contract.CANVAS_RES));
        cbn [mbind Contract.result_bind] in Hloop.
      * apply (IH _ _ _ _ Hloop).
      * injection Hloop as <-. reflexivity.
    + cbn [mbind Contract.result_bind].
      destruct (Contract.placeBatchLoop _ _ xs ys cs _ _) as [r | m | c] eqn:Hloop;
        cbn [mbind Contract.result_bind]; [split; discriminate | | split; discriminate].
      assert (m = "Megaplace: invalid coordinates") as ->; [| split; discriminate].
      clear -Hloop. revert Hloop.
      generalize (Contract.canvas st). generalize (@nil Contract.event).
      revert ys cs. induction xs as [| x xs IH]; intros ys cs emitted cv Hloop;
        [discriminate |].
      destruct ys as [| y ys]; [discriminate |]. destruct cs as [| c cs]; [discriminate |].
      cbn [Contract.placeBatchLoop] in Hloop. unfold Contract.require in Hloop.
      destruct ((x <? Contract.CANVAS_RES) && (y <? Contract.CANVAS_RES));
        cbn [mbind Contract.result_bind] in Hloop.
      * apply (IH _ _ _ _ Hloop).
      * injection Hloop as <-. reflexivity.
  - intros Hbad st e.
    assert (Hn : ¬ (length xs = length ys ∧ length xs = length cs
                    ∧ (1 ≤ length xs ≤ 100)%nat)) by (rewrite <- Hiff; exact Hbad).
    unfold Contract.placePixelBatch, Contract.require.
    destruct (Z.eqb_spec (Z.of_nat (length xs)) (Z.of_nat (length ys))) as [Hy | Hy];
      cbn [andb]; [| left; reflexivity].
    destruct (Z.eqb_spec (Z.of_nat (length xs)) (Z.of_nat (length cs))) as [Hc | Hc];
      cbn [andb]; [| left; reflexivity].
    cbn [mbind Contract.result_bind].
    destruct (Z.ltb_spec 0 (Z.of_nat (length xs))) as [H0 | H0]; cbn [andb];
      [| right; reflexivity].
    destruct (Z.leb_spec (Z.of_nat (length xs)) 100) as [H100 | H100];
      [| right; reflexivity].
    exfalso. apply Hn. repeat split; lia.
Qed.

End RecentPixels.

Section MapHook.

Import UseMegaplace.


(** X22. With this ledger the erase branch of handlePixelPlaced is never
    taken: the event of every accepted placePixel has a non-zero color,
    so handling it sets the pixel to the stored color (0x010101 for a
    placement of color 0) and the pixel count does not go down. *)
Theorem ledger_events_never_erase
    (st st' : Contract.state) (e : Contract.env) (px py c : Z)
    (evs : list Contract.event) (show : Z → string) (pixelData : gmap string Z)
    (Haccepted : Contract.placePixel st e px py c = Contract.Ok (st', evs)) :
  ∃ event,
    (event_of_log show <$> evs) = [Some event]
    ∧ x event = px ∧ y event = py
    ∧ color event = (if c =? 0 then 65793 else c)
    ∧ color event ≠ 0
    ∧ UseMap.handlePixelPlaced event pixelData !! pixelKey (Int px) (Int py)
      = Some (if c =? 0 then 65793 else c)
    ∧ (UseMap.placedPixelCount pixelData
       ≤ UseMap.placedPixelCount (UseMap.handlePixelPlaced event pixelData))%nat.
Proof.
  apply placePixel_Ok_inv in Haccepted as (_ & _ & _ & ->).
  eexists. split; [reflexivity |]. cbn [x y color].
  split; [reflexivity |]. split; [reflexivity |]. split; [reflexivity |].
  assert (Hnz : (if c =? 0 then 65793 else c) ≠ 0) by apply stored_color_nonzero.
  split; [exact Hnz |].
  unfold UseMap.handlePixelPlaced, UseMap.placedPixelCount. cbn [x y color].
  replace ((if c =? 0 then 65793 else c) =? 0) with false
    by (symmetry; apply Z.eqb_neq; exact Hnz).
  split; [apply lookup_insert_eq |].
  destruct (pixelData !! pixelKey (Int px) (Int py)) as [v |] eqn:Hk.
  - rewrite map_size_insert_Some by (eexists; exact Hk). lia.
  - rewrite map_size_insert_None by exact Hk. lia.
Qed.

Lemma ledger_events_never_erase_witness :
  match Contract.placePixel (Contract.mkState 1 ∅ ∅ ∅) (Contract.mkEnv 7 100) 3 4 0 with
  | Contract.Ok (_, evs) =>
      ∃ event, (event_of_log (λ _, "0x07") <$> evs) = [Some event]
               ∧ UseMap.handlePixelPlaced event ∅ !! pixelKey (Int 3) (Int 4) = Some 65793
  | _ => False
  end.
Proof.
  destruct (Contract.placePixel (Contract.mkState 1 ∅ ∅ ∅) (Contract.mkEnv 7 100) 3 4 0)
    as [[st' evs] | m | c] eqn:Hrun;
    [| vm_compute in Hrun; discriminate | vm_compute in Hrun; discriminate].
  destruct (ledger_events_never_erase _ st' _ 3 4 0 evs (λ _, "0x07") ∅ Hrun)
    as (event & Hev & _ & _ & _ & _ & Hset & _).
  exists event. split; [exact Hev | exact Hset].
Defined.

End MapHook.

Section Fetch.

Import BackendApi.

Lemma parseInt_numeral (z : Z) : parseInt (codeUnits (pretty z)) = toNumber z.
Proof.
  rewrite <- (app_nil_r (codeUnits (pretty z))). apply parseInt_decimal. exact I.
Qed.

Lemma valid_coordinate_Int (z : Z) : valid_coordinate (Int z) ↔ 0 ≤ z < RES.
Proof.
  unfold valid_coordinate. split.
  - intros (z' & [= <-] & H). exact H.
  - intros H. exists z. split; [reflexivity | exact H].
Qed.

Lemma valid_dimensions_Int (w h : Z) :
  valid_dimensions (Int w) (Int h) ↔ 1 ≤ w ≤ 1000 ∧ 1 ≤ h ≤ 1000 ∧ w * h ≤ 10000.
Proof.
  unfold valid_dimensions. split.
  - intros (a & b & [= <-] & [= <-] & H). exact H.
  - intros H. exists w, h. split; [reflexivity |]. split; [reflexivity | exact H].
Qed.

(** X24. What the frontend's fetchPixel and fetchRegion make of the
    routes of app.ts, for integer arguments that a Number holds exactly
    and a network that takes the request to the route with its path
    segments and brings the answer back: fetchPixel returns the JSON of
    the record when both coordinates are in [0, 1048576) and the listener
    holds a record there, and null in every other case, so a refused
    request (400) and a missing pixel (404) look the same to the caller;
    fetchRegion returns the route's pixels for a region within the
    route's bounds and the empty array for a refused one.  When the
    network fails, fetchPixel returns null and fetchRegion the empty
    array. *)
Theorem fetch_helpers_on_routes
    (el : EventListener) (BACKEND_URL : string) (fetch : string → option response)
    (x y w h : Z)
    (Hx : Z.abs x ≤ 2 ^ 53) (Hy : Z.abs y ≤ 2 ^ 53)
    (Hw : Z.abs w ≤ 2 ^ 53) (Hh : Z.abs h ≤ 2 ^ 53)
    (Hpixel :
       fetch (BACKEND_URL +:+ "/api/pixels/" +:+ toString (Int x) +:+ "/"
              +:+ toString (Int y))
       = Some (App.pixel_route el (codeUnits (toString (Int x)))
                 (codeUnits (toString (Int y)))))
    (Hregion :
       fetch (BACKEND_URL +:+ "/api/pixels/region/" +:+ toString (Int x) +:+ "/"
              +:+ toString (Int y) +:+ "/" +:+ toString (Int w) +:+ "/"
              +:+ toString (Int h))
       = Some (App.region_route el (codeUnits (toString (Int x)))
                 (codeUnits (toString (Int y))) (codeUnits (toString (Int w)))
                 (codeUnits (toString (Int h))))) :
  fetchPixel BACKEND_URL fetch (Int x) (Int y)
    = (if decide (0 ≤ x < RES ∧ 0 ≤ y < RES)
       then pixel_json <$> getPixel el (Int x) (Int y) else None)
  ∧ fetchRegion BACKEND_URL fetch (Int x) (Int y) (Int w) (Int h)
    = (if decide (0 ≤ x < RES ∧ 0 ≤ y < RES
                  ∧ 1 ≤ w ≤ 1000 ∧ 1 ≤ h ≤ 1000 ∧ w * h ≤ 10000)
       then pixel_json <$> getRegion el (Int x) (Int y) (Int w) (Int h) else [])
  ∧ fetchPixel BACKEND_URL (λ _, None) (Int x) (Int y) = None
  ∧ fetchRegion BACKEND_URL (λ _, None) (Int x) (Int y) (Int w) (Int h) = [].
Proof.
  split; [| split; [| split; reflexivity]].
  - unfold fetchPixel. rewrite Hpixel. unfold App.pixel_route. cbn [toString].
    rewrite !parseInt_numeral, !toNumber_exact by assumption.
    unfold App.get_pixel.
    destruct (decide (0 ≤ x < RES ∧ 0 ≤ y < RES)) as [[Vx Vy] | Hn].
    + rewrite (proj2 (isValidCoordinate_spec (Int x)))
        by (apply valid_coordinate_Int; exact Vx).
      rewrite (proj2 (isValidCoordinate_spec (Int y)))
        by (apply valid_coordinate_Int; exact Vy).
      cbn [negb orb]. destruct (getPixel el (Int x) (Int y)); reflexivity.
    + destruct (App.isValidCoordinate (Int x)) eqn:Ex,
               (App.isValidCoordinate (Int y)) eqn:Ey; cbn [negb orb]; try reflexivity.
      exfalso. apply Hn.
      apply isValidCoordinate_spec, valid_coordinate_Int in Ex.
      apply isValidCoordinate_spec, valid_coordinate_Int in Ey. split; assumption.
  - unfold fetchRegion. rewrite Hregion. unfold App.region_route. cbn [toString].
    rewrite !parseInt_numeral, !toNumber_exact by assumption.
    pose proof (get_region_accepts_iff el (Int x) (Int y) (Int w) (Int h))
      as (Hiff & Hst & _).
    cbv zeta in Hiff, Hst.
    rewrite !valid_coordinate_Int, valid_dimensions_Int in Hiff.
    destruct (decide (0 ≤ x < RES ∧ 0 ≤ y < RES
                      ∧ 1 ≤ w ≤ 1000 ∧ 1 ≤ h ≤ 1000 ∧ w * h ≤ 10000)) as [Hd | Hn].
    + apply Hiff in Hd. revert Hd. unfold App.get_region.
      destruct (negb (App.isValidCoordinate (Int x)) || negb (App.isValidCoordinate (Int y)));
        [discriminate |].
      destruct (negb (App.isValidDimension (Int w) 1000)
                || negb (App.isValidDimension (Int h) 1000)); [discriminate |].
      destruct (gt (mul (Int w) (Int h)) (Int 10000)); [discriminate |].
      intros _. reflexivity.
    + destruct Hst as [H200 | H400]; [exfalso; apply Hn, Hiff; exact H200 |].
      unfold ok. rewrite H400. reflexivity.
Qed.

Lemma fetch_helpers_on_routes_witness :
  let url := "http://localhost:3001" in
  let fetch := λ u : string,
    if decide (u = "http://localhost:3001/api/pixels/0/0")
    then Some (App.pixel_route stored (codeUnits "0") (codeUnits "0"))
    else Some (App.region_route stored (codeUnits "0") (codeUnits "0")
                 (codeUnits "2") (codeUnits "2")) in
  fetchPixel url fetch (Int 0) (Int 0) = Some (pixel_json red)
  ∧ fetchRegion url fetch (Int 0) (Int 0) (Int 2) (Int 2) = [pixel_json red].
Proof.
  intros url fetch.
  assert (H0 : Z.abs 0 ≤ 2 ^ 53) by (vm_compute; discriminate).
  assert (H2 : Z.abs 2 ≤ 2 ^ 53) by (vm_compute; discriminate).
  destruct (fetch_helpers_on_routes stored url fetch 0 0 2 2 H0 H0 H2 H2
              ltac:(vm_compute; reflexivity) ltac:(vm_compute; reflexivity))
    as (Hp & Hr & _).
  split; [rewrite Hp | rewrite Hr]; vm_compute; reflexivity.
Defined.

End Fetch.
